(** * UncertainSCI: recurrence coefficients of orthogonal polynomial families

    A shallow embedding of [opoly1d.py] and [UncertainSCI/composite.py].

    Numbers.  The Python code computes with IEEE doubles held in numpy arrays.
    The embedding idealises them as real numbers ([R]): rounding, overflow and
    NaN are outside the model.  So is the division by zero, which gives [inf]
    or NaN in floats and 0 in [R]: a statement that depends on a quotient is
    about the runs in which the divisor is not 0.  Interval endpoints that
    the code compares with [np.inf] get a constructor of their own.

    Control.  A Python exception is a value [Raise e]; a [while] loop is run
    on a fuel counter and [OutOfFuel] stands for a loop that is still running
    when the fuel is spent, so that "the loop never exits" is the statement
    "every amount of fuel is spent".

    Absent code.  [utils.quad.gq_modification_composite], the names imported
    from [UncertainSCI.opoly1d] by [composite.py], [JacobiPolynomials],
    [array_unique], [quad_mod] and numpy's [eigh] are not part of the two
    source files; they are section variables of the functions that call
    them. *)

From Stdlib Require Import String.
From Stdlib Require Import Reals Lra Lia List Bool Arith ZArith.
From Stdlib Require Import Sorting.Sorted Sorting.Permutation.
From Stdlib Require Import ClassicalEpsilon FunctionalExtensionality.
From HB Require Import structures.
From mathcomp Require boot algebra.
Import ListNotations.
Local Open Scope R_scope.

(** ** Python outcomes *)

Inductive exn : Type :=
| ValueError (msg : string)
| IndexError
| UnboundLocalError
| AssertionError.

(** [Unmodelled] marks a run that leaves what the embedding follows: a float
    that is NaN ([np.sqrt] of a negative number, [inf - inf]), or numpy
    slicing and broadcasting a table shorter than a docstring requires. *)
Inductive outcome (A : Type) : Type :=
| Ret (a : A)
| Raise (e : exn)
| OutOfFuel
| Unmodelled.

Arguments Ret {A} a.
Arguments Raise {A} e.
Arguments OutOfFuel {A}.
Arguments Unmodelled {A}.

Definition bind {A B : Type} (m : outcome A) (k : A -> outcome B) : outcome B :=
  match m with
  | Ret a => k a
  | Raise e => Raise e
  | OutOfFuel => OutOfFuel
  | Unmodelled => Unmodelled
  end.

Notation "'let*' x ':=' m 'in' k" := (bind m (fun x => k))
  (at level 10, x pattern, m at level 100, k at level 200).

(** [while cond: body] on a loop state [S]: one unit of fuel per pass. *)
Fixpoint while {S : Type} (fuel : nat) (cond : S -> bool) (body : S -> outcome S) (s : S)
  : outcome S :=
  if cond s then
    match fuel with
    | O => OutOfFuel
    | Datatypes.S fuel' => let* s' := body s in while fuel' cond body s'
    end
  else Ret s.

(** [for i in l: body] *)
Fixpoint for_each {I S : Type} (l : list I) (body : I -> S -> outcome S) (s : S)
  : outcome S :=
  match l with
  | [] => Ret s
  | i :: l' => let* s' := body i s in for_each l' body s'
  end.

(** ** Comparisons of reals as the booleans the code branches on *)

Definition Rltb (x y : R) : bool := if Rlt_dec x y then true else false.
Definition Rleb (x y : R) : bool := if Rle_dec x y then true else false.
Definition Reqb (x y : R) : bool := if Req_dec_T x y then true else false.

(** [np.sqrt].  On a negative argument numpy returns NaN, with a warning,
    and the caller goes on with it; the embedding does not follow NaN, so
    the run is [Unmodelled] from there.  A statement about the runs that
    end in [Ret] is therefore a statement about the runs in which no square
    root is taken of a negative number. *)
Definition np_sqrt (x : R) : outcome R :=
  if Rltb x 0 then Unmodelled else Ret (sqrt x).

(** [np.sum] of an array of floats *)
Definition np_sum (l : list R) : R := fold_right Rplus 0 l.

(** [np.prod] of an array of floats *)
Definition np_prod (l : list R) : R := fold_right Rmult 1 l.

(** ** Floats that may be infinite *)

Inductive ext : Type :=
| MInf
| Fin (x : R)
| PInf.

Definition ext_eqb (x y : ext) : bool :=
  match x, y with
  | MInf, MInf => true
  | PInf, PInf => true
  | Fin u, Fin v => Reqb u v
  | _, _ => false
  end.

Definition ext_ltb (x y : ext) : bool :=
  match x, y with
  | MInf, MInf => false
  | MInf, _ => true
  | Fin _, MInf => false
  | Fin u, Fin v => Rltb u v
  | Fin _, PInf => true
  | PInf, _ => false
  end.

(** ** Recurrence tables: an [N x 2] array, row [n] holding [(alpha_n, beta_n)] *)

Definition table : Type := list (R * R).

Definition zeros2 (N : nat) : table := repeat (0, 0) N.

(** [ab[n,0]] and [ab[n,1]] for an index known to be in range. *)
Definition alpha (ab : table) (n : nat) : R := fst (nth n ab (0, 0)).
Definition beta (ab : table) (n : nat) : R := snd (nth n ab (0, 0)).

(** [ab[n,:] = r] for an index in range (numpy raises IndexError otherwise;
    the callers below guard the index). *)
Fixpoint set_row (ab : table) (n : nat) (r : R * R) : table :=
  match ab, n with
  | [], _ => []
  | _ :: t, O => r :: t
  | h :: t, S n' => h :: set_row t n' r
  end.

(** * composite.py, module level *)

Module CompositePy.

(** One entry of [singularity_list]: location, left strength, right strength
    ([entry[0]], [entry[1]], [entry[2]]).  The code keeps three parallel
    arrays and deletes and reorders them with the same index sets; the model
    keeps the three values of an entry together. *)
Definition singularity : Type := (R * R * R)%type.
Definition loc (e : singularity) : R := fst (fst e).
Definition strength_left (e : singularity) : R := snd (fst e).
Definition strength_right (e : singularity) : R := snd e.

(** One row of the result: left point, right point, left-singularity
    strength, right-singularity strength. *)
Definition subinterval : Type := (R * R * R * R)%type.

(** [tol = 1e-8], the local constant of [compute_subintervals] *)
Definition tol_sing : R := 1e-8.

Definition overlapping_msg : string :=
  "Overlapping singularities were specified. Singularities must be unique".

(** [if s < a-tol or s > b+tol: discard.append(ind)] *)
Definition discard (a b : R) (e : singularity) : bool :=
  Rltb (loc e) (a - tol_sing) || Rltb (b + tol_sing) (loc e).

(** [np.argsort(singularities)] applied to the three arrays: a stable
    insertion sort by location (what numpy runs on short arrays; on a result
    that is returned the order is unique, all gaps being at least [tol]). *)
Fixpoint insert_sorted (e : singularity) (l : list singularity) : list singularity :=
  match l with
  | [] => [e]
  | h :: t => if Rleb (loc e) (loc h) then e :: l else h :: insert_sorted e t
  end.

Definition argsort (l : list singularity) : list singularity :=
  fold_right insert_sorted [] l.

(** [np.any(np.diff(singularities) < tol)] *)
Fixpoint any_diff_lt (l : list singularity) : bool :=
  match l with
  | x :: ((y :: _) as t) => Rltb (loc y - loc x) tol_sing || any_diff_lt t
  | _ => false
  end.

(** [for q in range(S-1): subintervals[q,:] = [singularities[q],
    singularities[q+1], strength_right[q], strength_left[q+1]]] *)
Fixpoint rows_of (l : list singularity) : list subinterval :=
  match l with
  | x :: ((y :: _) as t) => (loc x, loc y, strength_right x, strength_left y) :: rows_of t
  | _ => []
  end.

Definition compute_subintervals (a b : R) (singularity_list : list singularity)
  : outcome (list subinterval) :=
  let kept := filter (fun e => negb (discard a b e)) singularity_list in
  let sorted := argsort kept in
  if any_diff_lt sorted then Raise (ValueError overlapping_msg)
  else
    match sorted with
    | [] => Ret [(a, b, 0, 0)]
    | first :: _ =>
        let a_sing := Rleb (Rabs (loc first - a)) tol_sing in
        let b_sing := Rleb (Rabs (loc (last sorted first) - b)) tol_sing in
        let ext1 := if b_sing then sorted else sorted ++ [(b, 0, 0)] in
        let ext2 := if a_sing then ext1 else (a, 0, 0) :: ext1 in
        Ret (rows_of ext2)
    end.

(** ** Integration over an unbounded interval *)

(** The keyword arguments the callers pass on to [gq_modification_composite]. *)
Record quad_kwargs : Type := {
  kw_roots : option (list R);
  kw_quadroots : option (list R);
  kw_leading_coefficient : option R
}.

Definition no_kwargs : quad_kwargs :=
  {| kw_roots := None; kw_quadroots := None; kw_leading_coefficient := None |}.

(** Loop state of an outward walk: [l], [r], the running sum, the newest
    increment. *)
Definition walk_state : Type := (R * R * R * R)%type.

Definition walk_sum (st : walk_state) : R := snd (fst st).
Definition walk_newest (st : walk_state) : R := snd st.

(** [while np.abs(integral_new) > tol] *)
Definition walk_cond (tol : R) (st : walk_state) : bool :=
  Rltb tol (Rabs (walk_newest st)).

Section ModuleLevel.

(** [utils.quad.gq_modification_composite(integrand, a, b, N, subintervals,
    adaptive, **kwargs)]; [adaptive] is [None] where the caller leaves it to
    the callee's default. *)
Variable gq_modification_composite :
  (R -> R) -> R -> R -> nat -> list subinterval -> option bool -> quad_kwargs -> R.

(** [eval_driver(x, np.array([n]), 0, ab)] at one point [x]. *)
Variable eval_driver : R -> nat -> table -> R.

(** [leading_coefficient_driver(N, ab)] *)
Variable leading_coefficient_driver : nat -> table -> list R.

(** [gauss_quadrature_driver(ab, N)] as imported from [UncertainSCI.opoly1d]:
    nodes and weights. *)
Variable gauss_quadrature_driver : table -> Z -> list R * list R.

(** [r = l; l = r - step; subintervals = ...; integral_new = ...;
    integral += integral_new] *)
Definition gq_walk_left (integrand : R -> R) (N : nat) (singularity_list : list singularity)
    (adaptive : option bool) (step : R) (kwargs : quad_kwargs) (st : walk_state)
  : outcome walk_state :=
  let '(l, r, integral, integral_new) := st in
  let r := l in
  let l := r - step in
  let* subintervals := compute_subintervals l r singularity_list in
  let integral_new := gq_modification_composite integrand l r N subintervals adaptive kwargs in
  Ret (l, r, integral + integral_new, integral_new).

(** [l = r; r = l + step; ...] *)
Definition gq_walk_right (integrand : R -> R) (N : nat) (singularity_list : list singularity)
    (adaptive : option bool) (step : R) (kwargs : quad_kwargs) (st : walk_state)
  : outcome walk_state :=
  let '(l, r, integral, integral_new) := st in
  let l := r in
  let r := l + step in
  let* subintervals := compute_subintervals l r singularity_list in
  let integral_new := gq_modification_composite integrand l r N subintervals adaptive kwargs in
  Ret (l, r, integral + integral_new, integral_new).

(** The three branches test [a == -np.inf] and [b == np.inf]; the function
    has no [else], so [return integral] reads an unassigned local when none
    of the tests holds.  With [a == b == -inf] or [a == b == +inf] the walk
    starts from an infinite endpoint. *)
Definition gq_modification_unbounded_composite (fuel : nat) (integrand : R -> R) (a b : ext)
    (N : nat) (singularity_list : list singularity) (adaptive : option bool)
    (tol step : R) (kwargs : quad_kwargs) : outcome R :=
  match a, b with
  | MInf, PInf =>
      let l := -1 in
      let r := 1 in
      let* subintervals := compute_subintervals l r singularity_list in
      let integral := gq_modification_composite integrand l r N subintervals adaptive kwargs in
      let integral_new := 1 in
      let* st := while fuel (walk_cond tol)
                   (gq_walk_left integrand N singularity_list adaptive step kwargs)
                   (l, r, integral, integral_new) in
      let integral := walk_sum st in
      let l := -1 in
      let r := 1 in
      let integral_new := 1 in
      let* st := while fuel (walk_cond tol)
                   (gq_walk_right integrand N singularity_list adaptive step kwargs)
                   (l, r, integral, integral_new) in
      Ret (walk_sum st)
  | MInf, Fin b =>
      let r := b in
      let l := b - step in
      let* subintervals := compute_subintervals l r singularity_list in
      let integral := gq_modification_composite integrand l r N subintervals adaptive kwargs in
      let integral_new := 1 in
      let* st := while fuel (walk_cond tol)
                   (gq_walk_left integrand N singularity_list adaptive step kwargs)
                   (l, r, integral, integral_new) in
      Ret (walk_sum st)
  | Fin a, PInf =>
      let l := a in
      let r := a + step in
      let* subintervals := compute_subintervals l r singularity_list in
      let integral := gq_modification_composite integrand l r N subintervals adaptive kwargs in
      let integral_new := 1 in
      let* st := while fuel (walk_cond tol)
                   (gq_walk_right integrand N singularity_list adaptive step kwargs)
                   (l, r, integral, integral_new) in
      Ret (walk_sum st)
  | MInf, MInf => Unmodelled
  | PInf, PInf => Unmodelled
  | _, _ => Raise UnboundLocalError
  end.

(** The defaults [adaptive=True, tol = 1e-8, step = 2]. *)
Definition gq_unbounded_default (fuel : nat) (integrand : R -> R) (a b : ext) (N : nat)
    (singularity_list : list singularity) (kwargs : quad_kwargs) : outcome R :=
  gq_modification_unbounded_composite fuel integrand a b N singularity_list
    (Some true) 1e-8 2 kwargs.

(** ** Three-term recurrence coefficients, module-level variants *)

(** [ab[0,1] = np.sqrt(v)] on [ab = np.zeros([N, 2])]: row 0 does not exist
    when [N = 0]. *)
Definition init_table (N : nat) (v : R) : outcome table :=
  match N with
  | O => Raise IndexError
  | S _ => let* b0 := np_sqrt v in Ret (set_row (zeros2 N) 0 (0, b0))
  end.

(** One pass of the loop of [compute_ttr_bounded]; [peval] reads the array
    [ab] as it is when the integrand is called. *)
Definition ttr_bounded_step (a b : R) (weight : R -> R) (Nquad : nat)
    (subintervals : list subinterval) (n : nat) (ab : table) : outcome table :=
  let ab := set_row ab (n + 1) (alpha ab n, beta ab n) in
  let integrand := fun x => weight x * eval_driver x n ab * eval_driver x (n + 1) ab in
  let ab := set_row ab (n + 1)
              (alpha ab (n + 1)
               + beta ab n * gq_modification_composite integrand a b (n + 1 + Nquad)
                               subintervals None no_kwargs,
               beta ab (n + 1)) in
  let integrand := fun x => weight x * (eval_driver x (n + 1) ab) ^ 2 in
  let* root := np_sqrt (gq_modification_composite integrand a b (n + 1 + Nquad)
                          subintervals None no_kwargs) in
  Ret (set_row ab (n + 1) (alpha ab (n + 1), beta ab (n + 1) * root)).

Definition compute_ttr_bounded (a b : R) (weight : R -> R) (N : nat)
    (singularity_list : list singularity) (Nquad : nat) : outcome table :=
  if negb (Rltb a b) then Raise AssertionError
  else
    let* subintervals := compute_subintervals a b singularity_list in
    let* ab := init_table N
                 (gq_modification_composite weight a b Nquad subintervals None no_kwargs) in
    for_each (seq 0 (N - 1)) (ttr_bounded_step a b weight Nquad subintervals) ab.

Definition ttr_unbounded_step (fuel : nat) (a b : ext) (weight : R -> R) (Nquad : nat)
    (singularity_list : list singularity) (n : nat) (ab : table) : outcome table :=
  let ab := set_row ab (n + 1) (alpha ab n, beta ab n) in
  let integrand := fun x => weight x * eval_driver x n ab * eval_driver x (n + 1) ab in
  let* v := gq_unbounded_default fuel integrand a b (n + 1 + Nquad) singularity_list
              no_kwargs in
  let ab := set_row ab (n + 1) (alpha ab (n + 1) + beta ab n * v, beta ab (n + 1)) in
  let integrand := fun x => weight x * (eval_driver x (n + 1) ab) ^ 2 in
  let* v := gq_unbounded_default fuel integrand a b (n + 1 + Nquad) singularity_list
              no_kwargs in
  let* root := np_sqrt v in
  Ret (set_row ab (n + 1) (alpha ab (n + 1), beta ab (n + 1) * root)).

Definition compute_ttr_unbounded (fuel : nat) (a b : ext) (weight : R -> R) (N : nat)
    (singularity_list : list singularity) (Nquad : nat) : outcome table :=
  if negb (ext_ltb a b) then Raise AssertionError
  else
    let* v := gq_unbounded_default fuel weight a b Nquad singularity_list no_kwargs in
    let* ab := init_table N v in
    for_each (seq 0 (N - 1)) (ttr_unbounded_step fuel a b weight Nquad singularity_list) ab.

(** [np.prod(leading_coefficient_driver(n+2, ab)[-2:])] *)
Definition last_two_prod (l : list R) : R := np_prod (skipn (length l - 2) l).

(** [(leading_coefficient_driver(n+2, ab)[-1])**2]; indexing an empty array
    raises. *)
Definition last_squared (l : list R) : outcome R :=
  match rev l with
  | [] => Raise IndexError
  | x :: _ => Ret (x ^ 2)
  end.

(** [breaks += [[z, 0, 0] for z in roots]] *)
Definition add_breaks (breaks : list singularity) (roots : list R) : list singularity :=
  breaks ++ map (fun z => (z, 0, 0)) roots.

Definition ttr_bounded_composite_step (a b : R) (weight : R -> R) (Nquad : nat)
    (singularity_list : list singularity) (global_subintervals : list subinterval)
    (n : nat) (ab : table) : outcome table :=
  let integrand := weight in
  let ab := set_row ab (n + 1) (alpha ab n, beta ab n) in
  let pn_zeros := fst (gauss_quadrature_driver ab (Z.of_nat n)) in
  let pn1_zeros := fst (gauss_quadrature_driver ab (Z.of_nat (n + 1))) in
  let roots := pn_zeros ++ pn1_zeros in
  let breaks := add_breaks singularity_list roots in
  let* subintervals := compute_subintervals a b breaks in
  let qlc := last_two_prod (leading_coefficient_driver (n + 2) ab) in
  let ab := set_row ab (n + 1)
              (alpha ab (n + 1)
               + beta ab n * gq_modification_composite integrand a b (n + 1 + Nquad)
                               subintervals None
                               {| kw_roots := Some roots; kw_quadroots := None;
                                  kw_leading_coefficient := Some qlc |},
               beta ab (n + 1)) in
  let pn1_zeros := fst (gauss_quadrature_driver ab (Z.of_nat (n + 1))) in
  let* qlc := last_squared (leading_coefficient_driver (n + 2) ab) in
  let* root := np_sqrt (gq_modification_composite integrand a b (n + 1 + Nquad)
                          global_subintervals None
                          {| kw_roots := None; kw_quadroots := Some pn1_zeros;
                             kw_leading_coefficient := Some qlc |}) in
  Ret (set_row ab (n + 1) (alpha ab (n + 1), beta ab (n + 1) * root)).

Definition compute_ttr_bounded_composite (a b : R) (weight : R -> R) (N : nat)
    (singularity_list : list singularity) (Nquad : nat) : outcome table :=
  if negb (Rltb a b) then Raise AssertionError
  else
    let* global_subintervals := compute_subintervals a b singularity_list in
    let* ab := init_table N
                 (gq_modification_composite weight a b Nquad global_subintervals None
                    no_kwargs) in
    for_each (seq 0 (N - 1))
      (ttr_bounded_composite_step a b weight Nquad singularity_list global_subintervals) ab.

Definition ttr_unbounded_composite_step (fuel : nat) (a b : ext) (weight : R -> R)
    (Nquad : nat) (singularity_list : list singularity) (n : nat) (ab : table)
  : outcome table :=
  let integrand := weight in
  let ab := set_row ab (n + 1) (alpha ab n, beta ab n) in
  let pn_zeros := fst (gauss_quadrature_driver ab (Z.of_nat n)) in
  let pn1_zeros := fst (gauss_quadrature_driver ab (Z.of_nat (n + 1))) in
  let roots := pn_zeros ++ pn1_zeros in
  let breaks := add_breaks singularity_list roots in
  let qlc := last_two_prod (leading_coefficient_driver (n + 2) ab) in
  let* v := gq_unbounded_default fuel integrand a b (n + 1 + Nquad) breaks
              {| kw_roots := Some roots; kw_quadroots := None;
                 kw_leading_coefficient := Some qlc |} in
  let ab := set_row ab (n + 1) (alpha ab (n + 1) + beta ab n * v, beta ab (n + 1)) in
  let pn1_zeros := fst (gauss_quadrature_driver ab (Z.of_nat (n + 1))) in
  let* qlc := last_squared (leading_coefficient_driver (n + 2) ab) in
  let* v := gq_unbounded_default fuel integrand a b (n + 1 + Nquad) singularity_list
              {| kw_roots := None; kw_quadroots := Some pn1_zeros;
                 kw_leading_coefficient := Some qlc |} in
  let* root := np_sqrt v in
  Ret (set_row ab (n + 1) (alpha ab (n + 1), beta ab (n + 1) * root)).

Definition compute_ttr_unbounded_composite (fuel : nat) (a b : ext) (weight : R -> R)
    (N : nat) (singularity_list : list singularity) (Nquad : nat) : outcome table :=
  if negb (ext_ltb a b) then Raise AssertionError
  else
    let* v := gq_unbounded_default fuel weight a b Nquad singularity_list no_kwargs in
    let* ab := init_table N v in
    for_each (seq 0 (N - 1))
      (ttr_unbounded_composite_step fuel a b weight Nquad singularity_list) ab.

End ModuleLevel.

End CompositePy.
(** * composite.py, class [Composite] *)

Module Composite.

(** The fields set by [__init__]. *)
Record t : Type := {
  domain : ext * ext;
  weight : R -> R;
  l_step : R;
  r_step : R;
  N_start : nat;
  N_step : nat;
  sing : list R;
  sing_strength : list (R * R);
  tol : R
}.

(** [np.unique]: the sorted array of the distinct values. *)
Fixpoint insert_unique (x : ext) (l : list ext) : list ext :=
  match l with
  | [] => [x]
  | h :: rest =>
      if ext_eqb x h then l
      else if ext_ltb x h then x :: l
      else h :: insert_unique x rest
  end.

Definition np_unique (l : list ext) : list ext := fold_right insert_unique [] l.

(** [endpts = np.concatenate((self.domain, self.sing, zeros), axis = None);
    return np.sort(np.unique(endpts))] *)
Definition find_demar (self : t) (zeros : list R) : list ext :=
  np_unique ([fst (domain self); snd (domain self)] ++ map Fin (sing self) ++ map Fin zeros).

(** [mapped_ab[1:,0] = (ab[1:,0] - a) / b;
    mapped_ab[0,1] = ab[0,1] / np.sqrt(np.abs(b));
    mapped_ab[1:,1] = ab[1:,1] / np.abs(b)] *)
Definition affine_mapping (ab : table) (a b : R) : outcome table :=
  match ab with
  | [] => Raise IndexError
  | r0 :: rest =>
      Ret ((0, snd r0 / sqrt (Rabs b))
           :: map (fun r => ((fst r - a) / b, snd r / Rabs b)) rest)
  end.

(** The consecutive pairs [(l[j], l[j+1])], [j] in [range(len(l)-1)]. *)
Fixpoint pairs {A : Type} (l : list A) : list (A * A) :=
  match l with
  | x :: ((y :: _) as rest) => (x, y) :: pairs rest
  | _ => []
  end.

(** [ab[:i,1]] *)
Definition betas (ab : table) (i : nat) : list R := map snd (firstn i ab).

Section Methods.

(** [JacobiPolynomials(alpha, beta, probability_measure = False).recurrence(N)] *)
Variable jacobi_recurrence : R -> R -> nat -> table.

(** [linear_modification(alphbet, x0)]: the modified table and a sign. *)
Variable linear_modification : table -> R -> table * R.

(** [quadratic_modification(alphbet, z0)] *)
Variable quadratic_modification : table -> R -> table.

(** [gauss_quadrature_driver(ab, N)] as imported from [UncertainSCI.opoly1d] *)
Variable gauss_quadrature_driver : table -> Z -> list R * list R.

(** [array_unique(a, tol)] *)
Variable array_unique : list ext -> R -> list ext.

(** The float power [x ** y] with a float exponent. *)
Variable fpow : R -> R -> R.

(** [np.linalg.solve(M, b)] *)
Variable linalg_solve : list (list R) -> list R -> outcome (list R).

(** [self.sing_strength[np.where(self.sing == a)][0, :]] *)
Definition strength_at (self : t) (a : R) : outcome (R * R) :=
  match find (fun p => Reqb (fst p) a) (combine (sing self) (sing_strength self)) with
  | Some p => Ret (snd p)
  | None => Raise IndexError
  end.

(** [a in self.sing] *)
Definition in_sing (self : t) (a : R) : bool := existsb (fun s => Reqb s a) (sing self).

Fixpoint measure_mod_loop (ab : table) (signs : R) (zeros : list R) (lin : bool)
  : table * R :=
  match zeros with
  | [] => (ab, signs)
  | z :: rest =>
      if lin then
        let '(ab, sgn) := linear_modification ab z in
        measure_mod_loop ab (signs * sgn) rest lin
      else
        measure_mod_loop (quadratic_modification ab z) signs rest lin
  end.

Definition measure_mod (ab : table) (zeros : list R) (lin : bool) : table * R :=
  measure_mod_loop ab 1 zeros lin.

(** [if len(zeros) == 0: ab_mod = ab; signs = 1.
    else: ab_mod, signs = self.measure_mod(ab, zeros, lin)] *)
Definition modify (ab : table) (nzeros : nat) (zeros : list R) (lin : bool) : table * R :=
  if (nzeros =? 0)%nat then (ab, 1) else measure_mod ab zeros lin.

Definition find_jacobi (self : t) (a b : R) (N_quad : nat) (zeros : list R) (lin : bool)
  : outcome ((R -> R) * table * R) :=
  let mapped_coeff :=
    if lin then ((b - a) / 2) ^ (length zeros)
    else ((b - a) / 2) ^ (2 * length zeros) in
  let mapped_zeros := map (fun z => 2 / (b - a) * z - (a + b) / (b - a)) zeros in
  let x := fun u => (b - a) / 2 * u + (a + b) / 2 in
  if in_sing self a && in_sing self b then
    let* sa := strength_at self a in
    let a_r_expstr := snd sa in
    let* sb := strength_at self b in
    let b_l_expstr := fst sb in
    let integrands := fun u =>
      weight self (x u) * fpow (b - x u) (- b_l_expstr) * fpow (x u - a) (- a_r_expstr)
      * fpow ((b - a) / 2) (b_l_expstr + a_r_expstr + 1) * mapped_coeff in
    let ab := jacobi_recurrence b_l_expstr a_r_expstr N_quad in
    let '(ab_mod, signs) := modify ab (length zeros) mapped_zeros lin in
    Ret (integrands, ab_mod, signs)
  else if in_sing self a then
    let* sa := strength_at self a in
    let a_r_expstr := snd sa in
    let integrands := fun u =>
      weight self (x u) * fpow (x u - a) (- a_r_expstr)
      * fpow ((b - a) / 2) (a_r_expstr + 1) * mapped_coeff in
    let ab := jacobi_recurrence 0 a_r_expstr N_quad in
    let '(ab_mod, signs) := modify ab (length zeros) mapped_zeros lin in
    Ret (integrands, ab_mod, signs)
  else if in_sing self b then
    let* sb := strength_at self b in
    let b_l_expstr := fst sb in
    let integrands := fun u =>
      weight self (x u) * fpow (b - x u) (- b_l_expstr)
      * fpow ((b - a) / 2) (b_l_expstr + 1) * mapped_coeff in
    let ab := jacobi_recurrence b_l_expstr 0 N_quad in
    let '(ab_mod, signs) := modify ab (length zeros) mapped_zeros lin in
    Ret (integrands, ab_mod, signs)
  else
    let integrands := fun u => weight self u in
    let* ab := affine_mapping (jacobi_recurrence 0 0 N_quad)
                 (- (a + b) / (b - a)) (2 / (b - a)) in
    let '(ab_mod, signs) := modify ab (length zeros) zeros lin in
    Ret (integrands, ab_mod, signs).

(** The estimate at one quadrature order, the block that [eval_integral]
    writes three times:
    [find_jacobi; if len(addzeros) > 0: measure_mod on addzeros;
     ug, wg = gauss_quadrature_driver(ab_mod, len(ab_mod)-1);
     np.sum(leadingc * signs * integrands(ug) * wg)] *)
Definition quad_estimate (self : t) (a b : R) (zeros : list R) (leadingc : R) (lin : bool)
    (addzeros : list R) (N_quad : nat) : outcome R :=
  let* fj := find_jacobi self a b N_quad zeros lin in
  let '(integrands, ab_mod, signs) := fj in
  let '(ab_mod, signs) :=
    if (0 <? length addzeros)%nat then
      let '(ab, sgn) := measure_mod ab_mod addzeros true in (ab, signs * sgn)
    else (ab_mod, signs) in
  let '(ug, wg) := gauss_quadrature_driver ab_mod (Z.of_nat (length ab_mod) - 1) in
  Ret (np_sum (map (fun p => leadingc * signs * integrands (fst p) * snd p)
                 (combine ug wg))).

(** Loop state of the refinement: [N_quad], [s], [s_new]. *)
Definition refine_state : Type := (nat * R * R)%type.

(** [while np.abs(s - s_new) > self.tol] *)
Definition refine_cond (tol : R) (st : refine_state) : bool :=
  let '(_, s, s_new) := st in Rltb tol (Rabs (s - s_new)).

(** [s = s_new; N_quad += self.N_step; ...; s_new = ...] *)
Definition refine_body (N_step : nat) (estimate : nat -> outcome R) (st : refine_state)
  : outcome refine_state :=
  let '(N_quad, s, s_new) := st in
  let s := s_new in
  let N_quad := (N_quad + N_step)%nat in
  let* s_new := estimate N_quad in
  Ret (N_quad, s, s_new).

Definition eval_integral (fuel : nat) (self : t) (a b : R) (zeros : list R) (leadingc : R)
    (lin : bool) (addzeros : list R) : outcome R :=
  let estimate := quad_estimate self a b zeros leadingc lin addzeros in
  let N_quad := (length zeros + N_start self)%nat in
  let* s := estimate N_quad in
  let N_quad := (N_quad + N_step self)%nat in
  let* s_new := estimate N_quad in
  let* st := while fuel (refine_cond (tol self)) (refine_body (N_step self) estimate)
               (N_quad, s, s_new) in
  Ret (snd st).

(** [r = l; l = l - self.l_step; Q_minus = ...; s += Q_minus] *)
Definition extend_left (step : R) (integral : R -> R -> outcome R)
    (st : CompositePy.walk_state) : outcome CompositePy.walk_state :=
  let '(l, r, s, Q_minus) := st in
  let r := l in
  let l := l - step in
  let* Q_minus := integral l r in
  Ret (l, r, s + Q_minus, Q_minus).

(** [l = r; r = r + self.r_step; Q_plus = ...; s += Q_plus] *)
Definition extend_right (step : R) (integral : R -> R -> outcome R)
    (st : CompositePy.walk_state) : outcome CompositePy.walk_state :=
  let '(l, r, s, Q_plus) := st in
  let l := r in
  let r := r + step in
  let* Q_plus := integral l r in
  Ret (l, r, s + Q_plus, Q_plus).

(** The body shared by [eval_extend] and [eval_disc_extend], which differ in
    the integral they call on a bounded interval.  The branches test
    [a == -np.inf] and [b == np.inf]; a remaining infinite endpoint enters
    float arithmetic. *)
Definition extend (fuel : nat) (self : t) (integral : R -> R -> outcome R) (a b : ext)
  : outcome R :=
  match a, b with
  | MInf, PInf =>
      let l := -1 in
      let r := 1 in
      let* s := integral l r in
      let Q_minus := 1 in
      let* st := while fuel (CompositePy.walk_cond (tol self))
                   (extend_left (l_step self) integral) (l, r, s, Q_minus) in
      let s := CompositePy.walk_sum st in
      let l := -1 in
      let r := 1 in
      let Q_plus := 1 in
      let* st := while fuel (CompositePy.walk_cond (tol self))
                   (extend_right (r_step self) integral) (l, r, s, Q_plus) in
      Ret (CompositePy.walk_sum st)
  | MInf, Fin b =>
      let r := b in
      let l := b - l_step self in
      let* s := integral l r in
      let Q_minus := 1 in
      let* st := while fuel (CompositePy.walk_cond (tol self))
                   (extend_left (l_step self) integral) (l, r, s, Q_minus) in
      Ret (CompositePy.walk_sum st)
  | Fin a, PInf =>
      let l := a in
      let r := a + r_step self in
      let* s := integral l r in
      let Q_plus := 1 in
      let* st := while fuel (CompositePy.walk_cond (tol self))
                   (extend_right (r_step self) integral) (l, r, s, Q_plus) in
      Ret (CompositePy.walk_sum st)
  | Fin a, Fin b => integral a b
  | _, _ => Unmodelled
  end.

Definition eval_extend (fuel : nat) (self : t) (a b : ext) (zeros : list R) (leadingc : R)
    (lin : bool) (addzeros : list R) : outcome R :=
  extend fuel self
    (fun l r => eval_integral fuel self l r zeros leadingc lin addzeros) a b.

(** [s = 0; for j in range(len(demar)-1): s += self.eval_extend(a = demar[j],
    b = demar[j+1], ...)] *)
Definition sum_extend (fuel : nat) (self : t) (demar : list ext) (zeros : list R)
    (leadingc : R) (lin : bool) (addzeros : list R) : outcome R :=
  for_each (pairs demar)
    (fun p s => let* q := eval_extend fuel self (fst p) (snd p) zeros leadingc lin addzeros in
                Ret (s + q))
    0.

(** One pass of the loop of [recurrence], [i] in [range(1, N+1)]. *)
Definition recurrence_step (fuel : nat) (self : t) (i : nat) (ab : table) : outcome table :=
  let ab := set_row ab i (alpha ab (i - 1), beta ab (i - 1)) in
  let r_p :=
    if (i =? 1)%nat then [] else fst (gauss_quadrature_driver (firstn i ab) (Z.of_nat i - 1)) in
  let r_ptilde :=
    if (i =? 1)%nat then [alpha ab 0]
    else fst (gauss_quadrature_driver (firstn (i + 1) ab) (Z.of_nat i)) in
  let r_pptilde := r_p ++ r_ptilde in
  let demar := find_demar self r_pptilde in
  let demar := array_unique demar 1e-12 in
  let leadingcoeff_p := 1 / np_prod (betas ab i) in
  let leadingcoeff_ptilde := 1 / (beta ab (i - 1) * np_prod (betas ab i)) in
  let c := leadingcoeff_p * leadingcoeff_ptilde in
  let* s := sum_extend fuel self demar r_pptilde c true [] in
  let ab := set_row ab i (alpha ab (i - 1) + beta ab (i - 1) * s, beta ab i) in
  let r_phat :=
    if (i =? 1)%nat then [alpha ab 1]
    else fst (gauss_quadrature_driver (firstn (i + 1) ab) (Z.of_nat i)) in
  let leadingcoeff_phat := 1 / (beta ab (i - 1) * np_prod (betas ab i)) in
  let c := leadingcoeff_phat ^ 2 in
  let* s := sum_extend fuel self demar r_phat c false [] in
  let* root := np_sqrt s in
  Ret (set_row ab i (alpha ab i, beta ab (i - 1) * root)).

Definition recurrence (fuel : nat) (self : t) (N : nat) : outcome table :=
  let ab := zeros2 (N + 1) in
  let ab := set_row ab 0 (0, beta ab 0) in
  let demar := find_demar self [] in
  let* s := sum_extend fuel self demar [] 1 true [] in
  let* b0 := np_sqrt s in
  let ab := set_row ab 0 (alpha ab 0, b0) in
  if (N =? 0)%nat then Ret ab
  else for_each (seq 1 N) (recurrence_step fuel self) ab.

(** One pass of the loop of [stieltjes]. *)
Definition stieltjes_step (fuel : nat) (self : t) (i : nat) (ab : table) : outcome table :=
  let r_p :=
    if (i =? 1)%nat then [] else fst (gauss_quadrature_driver (firstn i ab) (Z.of_nat i - 1)) in
  let addzeros := [0] in
  let demar := find_demar self (r_p ++ addzeros) in
  let demar := array_unique demar 1e-12 in
  let leadingcoeff_p := 1 / np_prod (betas ab i) in
  let c := leadingcoeff_p in
  let* s := sum_extend fuel self demar r_p (c ^ 2) false addzeros in
  let ab := set_row ab i (s, beta ab i) in
  let addzeros := [0; alpha ab i] in
  let demar := find_demar self (r_p ++ addzeros) in
  let demar := array_unique demar 1e-12 in
  let* s_1 := sum_extend fuel self demar r_p (c ^ 2) false addzeros in
  let* s_2 :=
    if (i =? 1)%nat then Ret 0
    else
      let r_pminus :=
        if (i =? 2)%nat then []
        else fst (gauss_quadrature_driver (firstn i ab) (Z.of_nat i - 2)) in
      let r_ppminus := r_p ++ r_pminus in
      let addzeros := [0] in
      let demar := find_demar self (r_ppminus ++ addzeros) in
      let demar := array_unique demar 1e-12 in
      let leadingcoeff_pminus := 1 / np_prod (betas ab (i - 1)) in
      let c := beta ab (i - 1) * leadingcoeff_p * leadingcoeff_pminus in
      sum_extend fuel self demar r_ppminus c true addzeros in
  let* root := np_sqrt (s_1 - s_2) in
  Ret (set_row ab i (alpha ab i, root)).

Definition stieltjes (fuel : nat) (self : t) (N : nat) : outcome table :=
  let ab := zeros2 (N + 1) in
  let ab := set_row ab 0 (0, beta ab 0) in
  let zeros := [] in
  let demar := find_demar self zeros in
  let demar := array_unique demar 1e-12 in
  let* s := sum_extend fuel self demar zeros 1 true [] in
  let* b0 := np_sqrt s in
  let ab := set_row ab 0 (alpha ab 0, b0) in
  if (N =? 0)%nat then Ret ab
  else for_each (seq 1 N) (stieltjes_step fuel self) ab.

(** ** Arbitrary polynomial chaos *)

(** [mom[i] = sum_j eval_extend(demar[j], demar[j+1], zeros = np.zeros(i),
    leadingc = 1, lin = True)], [i] in [range(2*k)] *)
Definition eval_mom (fuel : nat) (self : t) (k : nat) : outcome (list R) :=
  for_each (seq 0 (2 * k))
    (fun i mom =>
       let zeros := repeat 0 i in
       let demar := find_demar self zeros in
       let* s := sum_extend fuel self demar zeros 1 true [] in
       Ret (mom ++ [s]))
    [].

(** [M[i,:] = self.eval_mom(k)[i:i+k+1]] for [i < k], [M[k,k] = 1.],
    [b[k] = 1]; [np.linalg.solve(M, b)] *)
Definition eval_coeff_aPC (fuel : nat) (self : t) (k : nat) : outcome (list R) :=
  let* M := for_each (seq 0 k)
              (fun i M => let* mom := eval_mom fuel self k in
                          Ret (M ++ [firstn (k + 1) (skipn i mom)]))
              [] in
  let M := M ++ [repeat 0 k ++ [1]] in
  let b := repeat 0 k ++ [1] in
  linalg_solve M b.

(** [s = 0.; for i in range(k+1): s += self.eval_coeff_aPC(k)[i] * x**i]
    on an array [x] *)
Definition eval_disc_p (fuel : nat) (self : t) (x : list R) (k : nat) : outcome (list R) :=
  for_each (seq 0 (k + 1))
    (fun i s => let* coeff := eval_coeff_aPC fuel self k in
                match nth_error coeff i with
                | None => Raise IndexError
                | Some c => Ret (map (fun p => fst p + c * snd p ^ i) (combine s x))
                end)
    (repeat 0 (length x)).

Definition find_disc_jacobi (self : t) (a b : R) (N_quad : nat)
  : outcome ((R -> R) * table) :=
  let x := fun u => (b - a) / 2 * u + (a + b) / 2 in
  if in_sing self a && in_sing self b then
    let* sa := strength_at self a in
    let a_r_expstr := snd sa in
    let* sb := strength_at self b in
    let b_l_expstr := fst sb in
    let integrands := fun u =>
      weight self (x u) * fpow (b - x u) (- b_l_expstr) * fpow (x u - a) (- a_r_expstr)
      * fpow ((b - a) / 2) (b_l_expstr + a_r_expstr + 1) in
    Ret (integrands, jacobi_recurrence b_l_expstr a_r_expstr N_quad)
  else if in_sing self a then
    let* sa := strength_at self a in
    let a_r_expstr := snd sa in
    let integrands := fun u =>
      weight self (x u) * fpow (x u - a) (- a_r_expstr)
      * fpow ((b - a) / 2) (a_r_expstr + 1) in
    Ret (integrands, jacobi_recurrence 0 a_r_expstr N_quad)
  else if in_sing self b then
    let* sb := strength_at self b in
    let b_l_expstr := fst sb in
    let integrands := fun u =>
      weight self (x u) * fpow (b - x u) (- b_l_expstr)
      * fpow ((b - a) / 2) (b_l_expstr + 1) in
    Ret (integrands, jacobi_recurrence b_l_expstr 0 N_quad)
  else
    let integrands := fun u => weight self u in
    let* ab := affine_mapping (jacobi_recurrence 0 0 N_quad)
                 (- (a + b) / (b - a)) (2 / (b - a)) in
    Ret (integrands, ab).

(** [integrands, ab = self.find_disc_jacobi(a, b, N_quad);
     ug, wg = gauss_quadrature_driver(ab, len(ab)-1);
     np.sum(f(ug) * integrands(ug) * wg)] *)
Definition disc_estimate (self : t) (f : list R -> outcome (list R)) (a b : R)
    (N_quad : nat) : outcome R :=
  let* fj := find_disc_jacobi self a b N_quad in
  let '(integrands, ab) := fj in
  let '(ug, wg) := gauss_quadrature_driver ab (Z.of_nat (length ab) - 1) in
  let* fu := f ug in
  Ret (np_sum (map (fun p => fst p * integrands (fst (snd p)) * snd (snd p))
                 (combine fu (combine ug wg)))).

Definition eval_disc_integral (fuel : nat) (self : t) (f : list R -> outcome (list R))
    (a b : R) : outcome R :=
  let estimate := disc_estimate self f a b in
  let N_quad := N_start self in
  let* s := estimate N_quad in
  let N_quad := (N_quad + N_step self)%nat in
  let* s_new := estimate N_quad in
  let* st := while fuel (refine_cond (tol self)) (refine_body (N_step self) estimate)
               (N_quad, s, s_new) in
  Ret (snd st).

Definition eval_disc_extend (fuel : nat) (self : t) (f : list R -> outcome (list R))
    (a b : ext) : outcome R :=
  extend fuel self (fun l r => eval_disc_integral fuel self f l r) a b.

Definition sum_disc_extend (fuel : nat) (self : t) (demar : list ext)
    (f : list R -> outcome (list R)) : outcome R :=
  for_each (pairs demar)
    (fun p s => let* q := eval_disc_extend fuel self f (fst p) (snd p) in Ret (s + q))
    0.

(** [endpts = np.concatenate((self.domain, self.sing), axis = None);
    demar = np.sort(np.unique(endpts))] *)
Definition disc_demar (self : t) : list ext :=
  np_unique ([fst (domain self); snd (domain self)] ++ map Fin (sing self)).

(** [nc[i] = s] under [assert s >= 0.]; the result is [np.sqrt(nc)]. *)
Definition eval_nc (fuel : nat) (self : t) (k : nat) : outcome (list R) :=
  let demar := disc_demar self in
  let* nc := for_each (seq 0 (k + 1))
               (fun i nc =>
                  let f := fun x => let* p := eval_disc_p fuel self x i in
                                    Ret (map (fun v => v ^ 2) p) in
                  let* s := sum_disc_extend fuel self demar f in
                  if Rleb 0 s then Ret (nc ++ [s]) else Raise AssertionError)
               [] in
  Ret (map sqrt nc).

(** One pass of the loop of [aPC]. *)
Definition aPC_step (fuel : nat) (self : t) (nc : list R) (demar : list ext) (i : nat)
    (ab : table) : outcome table :=
  let nc_at := fun j => nth j nc 0 in
  let f := fun x =>
    let* p := eval_disc_p fuel self x (i - 1) in
    Ret (map (fun q => fst q * (snd q / nc_at (i - 1)%nat) ^ 2) (combine x p)) in
  let* s := sum_disc_extend fuel self demar f in
  let ab := set_row ab i (s, beta ab i) in
  let f := fun x =>
    let* p := eval_disc_p fuel self x (i - 1) in
    Ret (map (fun q => fst q * (fst q - alpha ab i) * (snd q / nc_at (i - 1)%nat) ^ 2)
           (combine x p)) in
  let* s_1 := sum_disc_extend fuel self demar f in
  let* s_2 :=
    if (i =? 1)%nat then Ret 0
    else
      let f := fun x =>
        let* p := eval_disc_p fuel self x (i - 1) in
        let* pm := eval_disc_p fuel self x (i - 2) in
        Ret (map (fun q => beta ab (i - 1) * fst q * (fst (snd q) / nc_at (i - 1)%nat)
                           * (snd (snd q) / nc_at (i - 2)%nat))
               (combine x (combine p pm))) in
      sum_disc_extend fuel self demar f in
  let* root := np_sqrt (s_1 - s_2) in
  Ret (set_row ab i (alpha ab i, root)).

Definition aPC (fuel : nat) (self : t) (N : nat) : outcome table :=
  let* nc := eval_nc fuel self N in
  let ab := zeros2 (N + 1) in
  let ab := set_row ab 0 (0, beta ab 0) in
  let demar := disc_demar self in
  match nc with
  | [] => Raise IndexError
  | nc0 :: _ =>
      let ab := set_row ab 0 (alpha ab 0, nc0) in
      if (N =? 0)%nat then Ret ab
      else for_each (seq 1 N) (aPC_step fuel self nc demar) ab
  end.

End Methods.

End Composite.
(** * opoly1d.py *)

Module Opoly1d.

(** ** Class [OrthogonalPolynomialBasis1D] *)

(** The instance: [self.ab], the memoized table.  [driver_calls] is a ghost
    field, absent from the code: the arguments of the calls of
    [recurrence_driver] made so far, oldest first. *)
Record basis : Type := {
  ab : table;
  driver_calls : list nat
}.

(** [__init__]: [self.ab = np.zeros([0,2])] *)
Definition init : basis := {| ab := []; driver_calls := [] |}.

(** A method: from the instance to an outcome and the instance afterwards. *)
Definition M (A : Type) : Type := basis -> outcome A * basis.

Definition ret {A : Type} (a : A) : M A := fun self => (Ret a, self).

Definition raise {A : Type} (e : exn) : M A := fun self => (Raise e, self).

Definition lift {A : Type} (o : outcome A) : M A := fun self => (o, self).

Definition mbind {A B : Type} (m : M A) (k : A -> M B) : M B :=
  fun self =>
    match m self with
    | (Ret a, self') => k a self'
    | (Raise e, self') => (Raise e, self')
    | (OutOfFuel, self') => (OutOfFuel, self')
    | (Unmodelled, self') => (Unmodelled, self')
    end.

Notation "'let!' x ':=' m 'in' k" := (mbind m (fun x => k))
  (at level 10, x pattern, m at level 100, k at level 200).

(** [for i in l] accumulating a list of results. *)
Fixpoint collect {I A : Type} (l : list I) (f : I -> M A) : M (list A) :=
  match l with
  | [] => ret []
  | i :: l' => let! v := f i in let! vs := collect l' f in ret (v :: vs)
  end.

(** What the two modification methods return: the message for a table that
    is too short, or the modified coefficients. *)
Inductive modification : Type :=
| ErrorMessage (msg : string)
| Coefficients (AB : table).

Definition more_pairs_msg : string := "Error, requires more recurrence pairs".

Section Methods.

(** [recurrence_driver(N)], the method a family overrides; the base class
    raises [ValueError('Define this')]. *)
Variable recurrence_driver : nat -> outcome table.

(** [if N+1 > self.ab.shape[0]: self.ab = self.recurrence_driver(N);
    return self.ab
    else: return self.ab[:(N+1),:]] *)
Definition recurrence (N : nat) : M table :=
  fun self =>
    if (length (ab self) <? N + 1)%nat then
      let called := {| ab := ab self; driver_calls := driver_calls self ++ [N] |} in
      match recurrence_driver N with
      | Ret computed =>
          (Ret computed, {| ab := computed; driver_calls := driver_calls called |})
      | Raise e => (Raise e, called)
      | OutOfFuel => (OutOfFuel, called)
      | Unmodelled => (Unmodelled, called)
      end
    else (Ret (firstn (N + 1) (ab self)), self).

(** The column [r[:,j]] of [r_eval] at one point [x].  Where [r[:,j-1]] or
    a [beta] is 0 the code divides by zero and goes on with [inf] or NaN,
    which the real quotient does not follow: a statement that depends on
    the value of [r_column] carries the hypotheses that exclude it. *)
Fixpoint r_column (ab : table) (x : R) (j : nat) : R :=
  match j with
  | O => 1 / beta ab 0
  | S j' =>
      match j' with
      | O => 1 / beta ab 1 * (x - alpha ab 1)
      | S _ => 1 / beta ab j * ((x - alpha ab j) - beta ab j' / r_column ab x j')
      end
  end.

(** [r_eval(x, n)] for a scalar [x] and one degree [n], [d = 0]: the single
    entry of the array returned. *)
Definition r_eval (x : R) (n : nat) : M R :=
  let! ab := recurrence (n + 1) in
  if (n <? length ab)%nat then ret (r_column ab x n) else raise AssertionError.

(** The columns of [qpoly1d_eval] at one point [x], with the running [qt]:
    [(q[:,j], q[:,j-1], qt)]. *)
Fixpoint q_column (ab : table) (x : R) (j : nat) : R * R * R :=
  match j with
  | O => (1, 0, 0)
  | S j' =>
      let '(q, q_prev, qt) := q_column ab x j' in
      match j' with
      | O =>
          let qt := 1 / beta ab 1 * (x - alpha ab 1) * q in
          (qt / sqrt (1 + qt ^ 2), q, qt)
      | S _ =>
          let qt := 1 / beta ab j
                    * ((x - alpha ab j) * q - beta ab j' * q_prev / sqrt (1 + qt ^ 2)) in
          (qt / sqrt (1 + qt ^ 2), q, qt)
      end
  end.

(** [self.qpoly1d_eval(x, n)[0,-1]] for a scalar [x], [d = 0].  The rows
    read are [ab[1]] to [ab[n-1]]. *)
Definition qpoly1d_eval_last (x : R) (n : nat) : M R :=
  if (n =? 0)%nat then raise AssertionError
  else
    let! ab := recurrence (n - 1) in
    if (1 <? n)%nat && (length ab <? n)%nat then raise IndexError
    else ret (fst (fst (q_column ab x (n - 1)))).

(** [np.sqrt] of an array *)
Fixpoint np_sqrt_all (l : list R) : outcome (list R) :=
  match l with
  | [] => Ret []
  | v :: rest =>
      let* r := np_sqrt v in
      let* rs := np_sqrt_all rest in
      Ret (r :: rs)
  end.

(** [AB[:,0] = ab[lo:lo+N+1,0] + AB[:,0];
    AB[:,1] = np.sqrt(ab[lo:lo+N+1,1]**2 * AB[:,1])] *)
Definition finish_modification (ab : table) (lo : nat) (AB0 AB1 : list R) : M modification :=
  let rows := firstn (length AB0) (skipn lo ab) in
  let col0 := map (fun p => fst (fst p) + snd p) (combine rows AB0) in
  let! col1 := lift (np_sqrt_all (map (fun p => snd (fst p) ^ 2 * snd p) (combine rows AB1))) in
  ret (Coefficients (combine col0 col1)).

Definition recurrence_quad_mod_jacobi (ab : table) (N : nat) (z0 : R) : M modification :=
  if (length ab <? N + 3)%nat then ret (ErrorMessage more_pairs_msg)
  else
    let Q := qpoly1d_eval_last z0 in
    let! q3 := Q 3%nat in
    let! q2 := Q 2%nat in
    let! q2a := Q 2%nat in
    let! q2b := Q 2%nat in
    let! q1 := Q 1%nat in
    let! q1a := Q 1%nat in
    let AB00 := beta ab 2 * q3 * q2 / sqrt (1 + q2a ^ 2)
                - beta ab 1 * q2b * q1 / sqrt (1 + q1a ^ 2) in
    let! q2c := Q 2%nat in
    let! q1b := Q 1%nat in
    let AB01 := (1 + q2c ^ 2) / q1b ^ 2 in
    let! col1 := collect (seq 1 N)
                   (fun j => let! u := Q (j + 2)%nat in
                             let! v := Q (j + 1)%nat in
                             ret ((1 + u ^ 2) / (1 + v ^ 2))) in
    let! col0 := collect (seq 1 N)
                   (fun j => let! u3 := Q (j + 3)%nat in
                             let! u2 := Q (j + 2)%nat in
                             let! u2a := Q (j + 2)%nat in
                             let! v2 := Q (j + 2)%nat in
                             let! v1 := Q (j + 1)%nat in
                             let! v1a := Q (j + 1)%nat in
                             ret (beta ab (j + 2) * u3 * u2 / sqrt (1 + u2a ^ 2)
                                  - beta ab (j + 1) * v2 * v1 / sqrt (1 + v1a ^ 2))) in
    finish_modification ab 1 (AB00 :: col0) (AB01 :: col1).

Definition recurrence_lin_mod_jacobi (ab : table) (N : nat) (y0 : R) : M modification :=
  if (length ab <? N + 2)%nat then ret (ErrorMessage more_pairs_msg)
  else
    let r := r_eval y0 in
    let! r2 := r 2%nat in
    let AB00 := beta ab 1 / r2 in
    let! r2a := r 2%nat in
    let AB01 := beta ab 1 * r2a in
    let! col1 := collect (seq 1 N)
                   (fun j => let! u := r (j + 2)%nat in
                             let! v := r (j + 1)%nat in
                             ret (beta ab (j + 1) * u / (beta ab j * v))) in
    let! col0 := collect (seq 1 N)
                   (fun j => let! u := r (j + 2)%nat in
                             let! v := r (j + 1)%nat in
                             ret (beta ab (j + 1) / u - beta ab j / v)) in
    finish_modification ab 0 (AB00 :: col0) (AB01 :: col1).

End Methods.

(** ** [markov_stiltjies]: arrays passed by reference *)

(** The numpy arrays alive during a call, by address. *)
Definition store : Type := list (list R).
Definition ref : Type := nat.

Definition load (h : store) (p : ref) : list R := nth p h [].

Fixpoint store_at (h : store) (p : ref) (v : list R) : store :=
  match h, p with
  | [], _ => []
  | _ :: rest, O => v :: rest
  | x :: rest, S p' => x :: store_at rest p' v
  end.

(** A new array object: its address is the next free one. *)
Definition alloc (h : store) (v : list R) : store * ref := (h ++ [v], length h).

(** [arr[0] = 1] on the array at [p]: in place, IndexError on an empty array. *)
Definition set_first (h : store) (p : ref) : outcome unit * store :=
  match load h p with
  | [] => (Raise IndexError, h)
  | _ :: rest => (Ret tt, store_at h p (1 :: rest))
  end.

Section MarkovStiltjies.

(** [J = np.diag(b[1:n], k=1) + np.diag(a[1:n+1], k=0) + np.diag(b[1:n], k=-1);
    x, v = np.linalg.eigh(J)]: eigenvalues and eigenvector matrix, or the
    exception numpy raises on arrays too short for the slices. *)
Variable jacobi_eigh : list R -> list R -> Z -> outcome (list R * list (list R)).

(** [quad_mod(a, b, x0)] from the module [quad_mod]: taken to read its
    arguments and to return two new arrays. *)
Variable quad_mod : list R -> list R -> R -> outcome (list R * list R).

(** Lines 77 to 102, which read [u], [N], [supp], [y] and [v] and build the
    brackets from new local arrays. *)
Variable brackets : list R -> Z -> R * R -> list R -> list (list R) -> outcome (list (R * R)).

(** [for j in range(n): a, b = quad_mod(a, b, x[j]); b[0] = 1] with the
    local names [a] and [b] rebound to the arrays returned. *)
Fixpoint modify_nodes (js : list nat) (x : list R) (a b : ref) (h : store)
  : outcome (ref * ref) * store :=
  match js with
  | [] => (Ret (a, b), h)
  | j :: rest =>
      match nth_error x j with
      | None => (Raise IndexError, h)
      | Some xj =>
          match quad_mod (load h a) (load h b) xj with
          | Ret (a_new, b_new) =>
              let '(h, a) := alloc h a_new in
              let '(h, b) := alloc h b_new in
              match set_first h b with
              | (Ret _, h) => modify_nodes rest x a b h
              | (Raise e, h) => (Raise e, h)
              | (OutOfFuel, h) => (OutOfFuel, h)
              | (Unmodelled, h) => (Unmodelled, h)
              end
          | Raise e => (Raise e, h)
          | OutOfFuel => (OutOfFuel, h)
          | Unmodelled => (Unmodelled, h)
          end
      end
  end.

(** [a] and [b] are the addresses of the caller's arrays. *)
Definition markov_stiltjies (u : list R) (n : nat) (a b : ref) (supp : R * R) (h : store)
  : outcome (list (R * R)) * store :=
  match jacobi_eigh (load h a) (load h b) (Z.of_nat n) with
  | Ret (x, v) =>
      match set_first h b with
      | (Ret _, h) =>
          match modify_nodes (seq 0 n) x a b h with
          | (Ret (a, b), h) =>
              let N := (Z.of_nat (length (load h a)) - 1)%Z in
              match jacobi_eigh (load h a) (load h b) N with
              | Ret (y, v) => (brackets u N supp y v, h)
              | Raise e => (Raise e, h)
              | OutOfFuel => (OutOfFuel, h)
              | Unmodelled => (Unmodelled, h)
              end
          | (Raise e, h) => (Raise e, h)
          | (OutOfFuel, h) => (OutOfFuel, h)
          | (Unmodelled, h) => (Unmodelled, h)
          end
      | (Raise e, h) => (Raise e, h)
      | (OutOfFuel, h) => (OutOfFuel, h)
      | (Unmodelled, h) => (Unmodelled, h)
      end
  | Raise e => (Raise e, h)
  | OutOfFuel => (OutOfFuel, h)
  | Unmodelled => (Unmodelled, h)
  end.

End MarkovStiltjies.

(** ** Evaluation, connection matrices and the Jacobi matrix applied to a vector *)

(** [l[i] = v] for an index in range (the callers below guard the index). *)
Fixpoint assign {A : Type} (l : list A) (i : nat) (v : A) : list A :=
  match l, i with
  | [], _ => []
  | _ :: t, O => v :: t
  | h :: t, S i' => h :: assign t i' v
  end.

(** [np.cumprod] *)
Fixpoint cumprod_from (acc : R) (l : list R) : list R :=
  match l with
  | [] => []
  | x :: t => (acc * x) :: cumprod_from (acc * x) t
  end.

Definition np_cumprod (l : list R) : list R := cumprod_from 1 l.

(** The column [p[:,j]] of [eval] at one point [x]. *)
Fixpoint p_column (ab : table) (x : R) (j : nat) : R :=
  match j with
  | O => 1 / beta ab 0
  | S j' =>
      match j' with
      | O => 1 / beta ab 1 * ((x - alpha ab 1) * p_column ab x j')
      | S j'' =>
          1 / beta ab j * ((x - alpha ab j) * p_column ab x j' - beta ab j' * p_column ab x j'')
      end
  end.

(** [Jv = v*ab[1:(N+1),0]; Jv[...,:-1] += v[...,1:]*ab[1:N,1];
    Jv[...,1:] += v[...,:-1]*ab[1:N,1]] for a vector [v] of length [N] and a
    table of at least [N+1] rows. *)
Definition apply_jacobi_rows (ab : table) (v : list R) : list R :=
  let N := length v in
  let Jv := map (fun i => nth i v 0 * alpha ab (i + 1)) (seq 0 N) in
  let Jv := map (fun i => if (i <? N - 1)%nat
                          then nth i Jv 0 + nth (i + 1) v 0 * beta ab (i + 1)
                          else nth i Jv 0) (seq 0 N) in
  map (fun i => if (0 <? i)%nat
                then nth i Jv 0 + nth (i - 1) v 0 * beta ab i
                else nth i Jv 0) (seq 0 N).

(** One pass of the loop of [canonical_connection]:
    [C[n+1,0] = ...; C[n+1,n] = ...; C[n+1,n+1] = C[n,n];
     js = np.arange(1,n); C[n+1,js] = ...; C[n+1,:] /= ab[n+1,1]] *)
Definition connection_step (ab : table) (n : nat) (C : list (list R)) : list (list R) :=
  let Cn := nth n C [] in
  let Cp := nth (n - 1) C [] in
  let row := nth (n + 1) C [] in
  let row := assign row 0 (- alpha ab (n + 1) * nth 0 Cn 0 - beta ab n * nth 0 Cp 0) in
  let row := assign row n (nth (n - 1) Cn 0 - alpha ab (n + 1) * nth n Cn 0) in
  let row := assign row (n + 1) (nth n Cn 0) in
  let row := fold_left
               (fun row j =>
                  assign row j (nth (j - 1) Cn 0 - alpha ab (n + 1) * nth j Cn 0
                                - beta ab n * nth j Cp 0))
               (seq 1 (n - 1)) row in
  assign C (n + 1) (map (fun c => c / beta ab (n + 1)) row).

(** [canonical_connection] on the table [ab = self.recurrence(N)];
    [C = np.zeros([N,N])]. *)
Definition canonical_connection_rows (ab : table) (N : nat) : list (list R) :=
  let C := repeat (repeat 0 N) N in
  match N with
  | O => C
  | S O => assign C 0 (assign (nth 0 C []) 0 (1 / beta ab 0))
  | S (S _) =>
      let C00 := 1 / beta ab 0 in
      let C := assign C 0 (assign (nth 0 C []) 0 C00) in
      let C := assign C 1 (assign (nth 1 C []) 1 (C00 / beta ab 1)) in
      let C := assign C 1 (assign (nth 1 C []) 0 (- alpha ab 1 * C00 / beta ab 1)) in
      fold_left (fun C n => connection_step ab n C) (seq 1 (N - 2)) C
  end.

Section Evaluation.

Variable recurrence_driver : nat -> outcome table.

(** [eval(x, n)] for a scalar [x] and one degree [n], [d = 0]: the single
    entry of the array returned. *)
Definition eval_at (x : R) (n : nat) : M R :=
  let! ab := recurrence recurrence_driver (n + 1) in
  if (n <? length ab)%nat then ret (p_column ab x n) else raise AssertionError.

(** [eval(x, range(k))] for a scalar [x], [d = 0].  The code returns an
    array of shape [(1, k)], one row for the point [x]; the list is that row,
    [eval(x, range(k))[0, :]] (for the empty range the code returns
    [np.zeros(0)]).  A caller that works along the first axis of the array,
    the axis of the points, is not a caller of this list. *)
Definition eval_range (x : R) (k : nat) : M (list R) :=
  if (k =? 0)%nat then ret []
  else
    let nmax := (k - 1)%nat in
    let! ab := recurrence recurrence_driver (nmax + 1) in
    if (nmax <? length ab)%nat then ret (map (p_column ab x) (seq 0 k))
    else raise AssertionError.

(** [assert k > 0; p = self.eval(x, range(k));
    return np.sqrt(float(k) / np.sum(p**2, axis=1))] at a scalar [x];
    a zero sum makes the quotient infinite. *)
Definition christoffel_function (x : R) (k : nat) : M R :=
  if (k =? 0)%nat then raise AssertionError
  else
    let! p := eval_range x k in
    let s := np_sum (map (fun v => v ^ 2) p) in
    if Reqb s 0 then lift Unmodelled else lift (np_sqrt (INR k / s)).

(** [assert N > 0; return np.cumprod(1 / self.recurrence(N)[:,1])] *)
Definition leading_coefficient (N : nat) : M (list R) :=
  if (N =? 0)%nat then raise AssertionError
  else
    let! ab := recurrence recurrence_driver N in
    ret (np_cumprod (map (fun r => 1 / snd r) ab)).

(** [apply_jacobi_matrix(v)] for a one-dimensional [v]; on a table of fewer
    than [N+1] rows numpy broadcasts or raises according to the shapes. *)
Definition apply_jacobi_matrix (v : list R) : M (list R) :=
  let N := length v in
  let! ab := recurrence recurrence_driver (N + 1) in
  if (0 <? N)%nat && (length ab <? N + 1)%nat then lift Unmodelled
  else ret (apply_jacobi_rows ab v).

(** [canonical_connection(N)]: the rows read are [ab[0]] to [ab[N-1]]. *)
Definition canonical_connection (N : nat) : M (list (list R)) :=
  let! ab := recurrence recurrence_driver N in
  if (length ab <? N)%nat then raise IndexError
  else ret (canonical_connection_rows ab N).

(** [for n in range(1,N-1): C[n+1,:] = self.apply_jacobi_matrix(C[n,:])] *)
Fixpoint connection_inverse_loop (ns : list nat) (C : list (list R)) : M (list (list R)) :=
  match ns with
  | [] => ret C
  | n :: rest =>
      let! row := apply_jacobi_matrix (nth n C []) in
      connection_inverse_loop rest (assign C (n + 1) row)
  end.

(** [canonical_connection_inverse(N)] *)
Definition canonical_connection_inverse (N : nat) : M (list (list R)) :=
  let! ab := recurrence recurrence_driver N in
  let C := repeat (repeat 0 N) N in
  match N with
  | O => ret C
  | S O =>
      if (length ab <? 1)%nat then raise IndexError
      else ret (assign C 0 (assign (nth 0 C []) 0 (beta ab 0)))
  | S (S _) =>
      if (length ab <? 2)%nat then raise IndexError
      else
        let C := assign C 0 (assign (nth 0 C []) 0 (beta ab 0)) in
        let C := assign C 1 (assign (nth 1 C []) 1 (beta ab 0 * beta ab 1)) in
        let C := assign C 1 (assign (nth 1 C []) 0 (alpha ab 1 * beta ab 0)) in
        connection_inverse_loop (seq 1 (N - 2)) C
  end.

End Evaluation.

End Opoly1d.

(** * opoly1d.py: Jacobi matrices and quadrature rules

    The matrices are MathComp's, over the reals of the Standard Library,
    which get the structure of a commutative ring here. *)

Module Spectral.

Import mathcomp.boot.ssreflect mathcomp.boot.ssrfun mathcomp.boot.ssrbool.
Import mathcomp.boot.eqtype mathcomp.boot.choice mathcomp.boot.ssrnat mathcomp.boot.seq.
Import mathcomp.boot.fintype mathcomp.boot.bigop mathcomp.boot.nmodule.
Import mathcomp.algebra.algebraic_hierarchy.ssralg mathcomp.algebra.matrix.
Import GRing.Theory.
Import Opoly1d.

Definition R_eqb (x y : R) : bool := if Req_dec_T x y then true else false.

Lemma R_eqbP : Equality.axiom R_eqb.
Proof. move=> x y; rewrite /R_eqb; case: (Req_dec_T x y) => h; by constructor. Qed.

HB.instance Definition _ := hasDecEq.Build R R_eqbP.

Definition R_pick (P : pred R) (n : nat) : option R :=
  match excluded_middle_informative (exists x, P x) with
  | left ex => Some (proj1_sig (constructive_indefinite_description _ ex))
  | right _ => None
  end.

Lemma R_pick_correct (P : pred R) (n : nat) (x : R) : R_pick P n = Some x -> P x.
Proof.
rewrite /R_pick; case: excluded_middle_informative => // ex [<-].
exact: (proj2_sig (constructive_indefinite_description _ ex)).
Qed.

Lemma R_pick_complete (P : pred R) : (exists x, P x) -> exists n, R_pick P n.
Proof. by move=> ex; exists 0%N; rewrite /R_pick; case: excluded_middle_informative. Qed.

Lemma R_pick_ext (P Q : pred R) : P =1 Q -> R_pick P =1 R_pick Q.
Proof. by move=> /functional_extensionality ->. Qed.

HB.instance Definition _ := hasChoice.Build R R_pick_correct R_pick_complete R_pick_ext.

Lemma R_addA : associative Rplus.
Proof. by move=> x y z; rewrite Rplus_assoc. Qed.

Lemma R_addNr : left_inverse R0 Ropp Rplus.
Proof. exact: Rplus_opp_l. Qed.

HB.instance Definition _ := GRing.isZmodule.Build R R_addA Rplus_comm Rplus_0_l R_addNr.

Lemma R_mulA : associative Rmult.
Proof. by move=> x y z; rewrite Rmult_assoc. Qed.

Lemma R_1_neq_0 : R1 != R0.
Proof. by apply/eqP; exact: R1_neq_R0. Qed.

HB.instance Definition _ :=
  GRing.Zmodule_isComNzRing.Build R R_mulA Rmult_comm Rmult_1_l Rmult_plus_distr_r R_1_neq_0.

Local Open Scope ring_scope.

(** [np.diag(ab[1:N,1], k=1) + np.diag(ab[1:(N+1),0], k=0)
    + np.diag(ab[1:N,1], k=-1)] for a table of at least [N+1] rows. *)
Definition jacobi_matrix_driver (ab : table) (N : nat) : 'M[R]_N :=
  \matrix_(i, j)
    (if (i : nat) == j then alpha ab i.+1
     else if (j : nat) == i.+1 then beta ab j
     else if (i : nat) == j.+1 then beta ab i
     else 0).

Section Quadrature.

(** [numpy.linalg.eigh]: the eigenvalues, and the matrix whose columns are
    the eigenvectors. *)
Variable eigh : forall n : nat, 'M[R]_n -> 'rV[R]_n * 'M[R]_n.

(** [lamb, v = eigh(jacobi_matrix_driver(ab, N));
    return lamb, ab[0,1]**2 * v[0,:]**2].
    With [N = 0] the eigenvector matrix is 0 x 0 and has no row [v[0,:]].
    A table of [N] rows or fewer is outside the docstring
    ("Requires ab.shape[0] >= N+1"): numpy then slices short and broadcasts. *)
Definition gauss_quadrature_driver (ab : table) (N : nat)
  : outcome ('rV[R]_N * 'rV[R]_N) :=
  if (size ab <= N)%N then Unmodelled
  else
    match N return outcome ('rV[R]_N * 'rV[R]_N) with
    | 0 => Raise IndexError
    | N'.+1 =>
        let: (lamb, v) := eigh N'.+1 (jacobi_matrix_driver ab N'.+1) in
        Ret (lamb, \row_j (beta ab 0 ^+ 2 * v ord0 j ^+ 2))
    end.

Variable recurrence_driver : nat -> outcome table.

(** [return gauss_quadrature_driver(self.recurrence(N+1), N)] *)
Definition gauss_quadrature (N : nat) : M ('rV[R]_N * 'rV[R]_N) :=
  let! ab := recurrence recurrence_driver N.+1 in
  lift (gauss_quadrature_driver ab N).

(** [ab = self.recurrence(N+1); c = self.r_eval(anchor, N); cd = ab.copy();
    cd[N,0] += c*cd[N,1]; J = np.diag(cd[1:N,1], k=1) + ...;
    lamb, v = eigh(J); return lamb, v[0,:]**2] *)
Definition gauss_radau_quadrature (N : nat) (anchor : R) : M ('rV[R]_N * 'rV[R]_N) :=
  let! ab := recurrence recurrence_driver N.+1 in
  let! c := r_eval recurrence_driver anchor N in
  if (size ab <= N)%N then raise IndexError
  else
    let cd := set_row ab N (alpha ab N + c * beta ab N, beta ab N) in
    match N return M ('rV[R]_N * 'rV[R]_N) with
    | 0 => raise IndexError
    | N'.+1 =>
        let: (lamb, v) := eigh N'.+1 (jacobi_matrix_driver cd N'.+1) in
        ret (lamb, \row_j (v ord0 j ^+ 2))
    end.

End Quadrature.

Section JacobiMatrix.

Variable recurrence_driver : nat -> outcome table.

(** [return jacobi_matrix_driver(self.recurrence(N+1), N)]; on a table of
    [N] rows or fewer the three diagonals do not have the lengths of an
    [N x N] matrix. *)
Definition jacobi_matrix (N : nat) : M 'M[R]_N :=
  let! ab := recurrence recurrence_driver N.+1 in
  if (size ab <= N)%N then lift Unmodelled else ret (jacobi_matrix_driver ab N).

End JacobiMatrix.

(** A one-dimensional array of length [N] as a column. *)
Definition column_of (N : nat) (v : list R) : 'cV[R]_N := \col_(i < N) List.nth i v 0.

End Spectral.

(** * Facts: comparisons and loops *)

Lemma Rltb_true (x y : R) : x < y -> Rltb x y = true.
Proof. intros H. unfold Rltb. destruct (Rlt_dec x y); [reflexivity | contradiction]. Qed.

Lemma Rltb_false (x y : R) : y <= x -> Rltb x y = false.
Proof. intros H. unfold Rltb. destruct (Rlt_dec x y); [lra | reflexivity]. Qed.

Lemma Rleb_true (x y : R) : x <= y -> Rleb x y = true.
Proof. intros H. unfold Rleb. destruct (Rle_dec x y); [reflexivity | contradiction]. Qed.

Lemma Rleb_false (x y : R) : y < x -> Rleb x y = false.
Proof. intros H. unfold Rleb. destruct (Rle_dec x y); [lra | reflexivity]. Qed.

Lemma Rltb_spec (x y : R) : Rltb x y = true <-> x < y.
Proof. unfold Rltb. destruct (Rlt_dec x y); split; intros; try discriminate; tauto. Qed.

Lemma Rleb_spec (x y : R) : Rleb x y = true <-> x <= y.
Proof. unfold Rleb. destruct (Rle_dec x y); split; intros; try discriminate; tauto. Qed.

Lemma Reqb_spec (x y : R) : Reqb x y = true <-> x = y.
Proof. unfold Reqb. destruct (Req_dec_T x y); split; intros; try discriminate; tauto. Qed.

(** Decides every comparison of the goal whose two sides [lra] can order. *)
Ltac Rdecide :=
  repeat match goal with
  | |- context [Rltb ?x ?y] =>
      first [ rewrite (Rltb_true x y) by lra | rewrite (Rltb_false x y) by lra ]
  | |- context [Rleb ?x ?y] =>
      first [ rewrite (Rleb_true x y) by lra | rewrite (Rleb_false x y) by lra ]
  end.

Lemma Rleb_abs_true (x t : R) : - t <= x <= t -> Rleb (Rabs x) t = true.
Proof. intros H. apply Rleb_true. apply Rabs_le. lra. Qed.

Lemma Rleb_abs_false (x t : R) : t < x \/ x < - t -> Rleb (Rabs x) t = false.
Proof.
  intros H. apply Rleb_false. unfold Rabs. destruct (Rcase_abs x); lra.
Qed.

Ltac Rdecide_abs :=
  repeat match goal with
  | |- context [Rleb (Rabs ?x) ?t] =>
      first [ rewrite (Rleb_abs_true x t) by lra
            | rewrite (Rleb_abs_false x t) by lra ]
  end.

(** ** Loops *)

Lemma while_done {S : Type} (fuel : nat) (cond : S -> bool) (body : S -> outcome S) (s : S) :
  cond s = false -> while fuel cond body s = Ret s.
Proof. intros H. destruct fuel; simpl; rewrite H; reflexivity. Qed.

Lemma while_step {S : Type} (fuel : nat) (cond : S -> bool) (body : S -> outcome S) (s s' : S) :
  cond s = true -> body s = Ret s' ->
  while (Datatypes.S fuel) cond body s = while fuel cond body s'.
Proof. intros Hc Hb. simpl. rewrite Hc, Hb. reflexivity. Qed.

Lemma while_spent {S : Type} (cond : S -> bool) (body : S -> outcome S) (s : S) :
  cond s = true -> while 0 cond body s = OutOfFuel.
Proof. intros H. simpl. rewrite H. reflexivity. Qed.

(** A loop whose successive states are [st 0], [st 1], ...: it returns the
    first state that fails the test, and runs for ever when none does. *)
Section Chain.

Context {S : Type}.
Variable cond : S -> bool.
Variable body : S -> outcome S.
Variable st : nat -> S.
Hypothesis body_st : forall k, body (st k) = Ret (st (k + 1)).

Definition first_exit (j k : nat) : Prop :=
  (forall i, (i < k)%nat -> cond (st (j + i)) = true) /\ cond (st (j + k)) = false.

Lemma chain_returns (k : nat) : forall j fuel,
  first_exit j k -> (k <= fuel)%nat -> while fuel cond body (st j) = Ret (st (j + k)).
Proof.
  induction k as [|k IH]; intros j fuel [Hgo Hstop] Hf.
  - rewrite Nat.add_0_r in *. apply while_done. exact Hstop.
  - destruct fuel as [|fuel]; [lia|].
    rewrite (while_step _ _ _ _ (st (j + 1))).
    + replace (j + Datatypes.S k)%nat with (j + 1 + k)%nat by lia. apply IH; [|lia]. split.
      * intros i Hi. replace (j + 1 + i)%nat with (j + Datatypes.S i)%nat by lia.
        apply Hgo. lia.
      * replace (j + 1 + k)%nat with (j + Datatypes.S k)%nat by lia. exact Hstop.
    + specialize (Hgo 0%nat). rewrite Nat.add_0_r in Hgo. apply Hgo. lia.
    + apply body_st.
Qed.

Lemma chain_diverges (fuel : nat) : forall j,
  (forall i, cond (st (j + i)) = true) -> while fuel cond body (st j) = OutOfFuel.
Proof.
  induction fuel as [|fuel IH]; intros j Hgo.
  - apply while_spent. specialize (Hgo 0%nat). rewrite Nat.add_0_r in Hgo. exact Hgo.
  - rewrite (while_step _ _ _ _ (st (j + 1))).
    + apply IH. intros i. replace (j + 1 + i)%nat with (j + Datatypes.S i)%nat by lia. apply Hgo.
    + specialize (Hgo 0%nat). rewrite Nat.add_0_r in Hgo. exact Hgo.
    + apply body_st.
Qed.

Lemma chain_returned (fuel : nat) : forall j s,
  while fuel cond body (st j) = Ret s ->
  exists k, (k <= fuel)%nat /\ first_exit j k /\ s = st (j + k).
Proof.
  induction fuel as [|fuel IH]; intros j s H.
  - destruct (cond (st j)) eqn:E.
    { rewrite while_spent in H by exact E. discriminate. }
    rewrite while_done in H by exact E.
    exists 0%nat. rewrite Nat.add_0_r. split; [lia|]. split; [|congruence].
    split; [intros i Hi; lia | rewrite Nat.add_0_r; exact E].
  - destruct (cond (st j)) eqn:E.
    + rewrite (while_step _ _ _ _ (st (j + 1)) E (body_st j)) in H.
      destruct (IH _ _ H) as (k & Hk & [Hgo Hstop] & Hs).
      exists (Datatypes.S k). split; [lia|]. unfold first_exit.
      replace (j + Datatypes.S k)%nat with (j + 1 + k)%nat by lia.
      split; [|exact Hs]. split; [|exact Hstop].
      intros i Hi. destruct i as [|i].
      * rewrite Nat.add_0_r. exact E.
      * replace (j + Datatypes.S i)%nat with (j + 1 + i)%nat by lia. apply Hgo. lia.
    + rewrite while_done in H by exact E.
      exists 0%nat. rewrite Nat.add_0_r. split; [lia|]. split; [|congruence].
      split; [intros i Hi; lia | rewrite Nat.add_0_r; exact E].
Qed.

End Chain.
(** * Facts about composite.py *)

Module CompositeFacts.

Import CompositePy Composite.

Ltac run_subintervals :=
  unfold compute_subintervals, discard, argsort;
  repeat (cbn [filter negb orb andb fold_right insert_sorted any_diff_lt rows_of
               loc strength_left strength_right fst snd last app];
          unfold tol_sing; Rdecide_abs; Rdecide).

(** ** The partition into sub-intervals *)
Definition le_loc (x y : singularity) : Prop := loc x <= loc y.

Lemma insert_sorted_perm (e : singularity) (l : list singularity) :
  Permutation (insert_sorted e l) (e :: l).
Proof.
  induction l as [|h t IH]; simpl.
  - apply Permutation_refl.
  - destruct (Rleb (loc e) (loc h)).
    + apply Permutation_refl.
    + apply perm_trans with (h :: e :: t).
      * apply perm_skip. exact IH.
      * apply perm_swap.
Qed.

Lemma argsort_perm (l : list singularity) : Permutation (argsort l) l.
Proof.
  induction l as [|h t IH]; simpl.
  - apply perm_nil.
  - apply perm_trans with (h :: argsort t).
    + apply insert_sorted_perm.
    + apply perm_skip. exact IH.
Qed.

Lemma insert_sorted_sorted (e : singularity) (l : list singularity) :
  StronglySorted le_loc l -> StronglySorted le_loc (insert_sorted e l).
Proof.
  induction l as [|h t IH]; intros Hs; simpl.
  - constructor; constructor.
  - destruct (Rleb (loc e) (loc h)) eqn:E.
    + apply Rleb_spec in E. constructor; [exact Hs|].
      inversion Hs as [|? ? Ht Hall]; subst.
      constructor; [exact E|].
      revert Hall. apply Forall_impl. intros x Hx. unfold le_loc in *. lra.
    + assert (Hlt : loc h < loc e).
      { unfold Rleb in E. destruct (Rle_dec (loc e) (loc h)); [discriminate | lra]. }
      inversion Hs as [|? ? Ht Hall]; subst.
      constructor; [apply IH; exact Ht|].
      apply (Permutation_Forall (Permutation_sym (insert_sorted_perm e t))).
      constructor; [unfold le_loc; lra | exact Hall].
Qed.

Lemma argsort_sorted (l : list singularity) : StronglySorted le_loc (argsort l).
Proof.
  induction l as [|h t IH]; simpl.
  - constructor.
  - apply insert_sorted_sorted. exact IH.
Qed.

Lemma any_diff_lt_app (l1 l2 : list singularity) :
  any_diff_lt l2 = true -> any_diff_lt (l1 ++ l2) = true.
Proof.
  induction l1 as [|x t IH]; intros H; simpl; [exact H|].
  specialize (IH H).
  destruct (t ++ l2) eqn:E.
  - simpl in IH. discriminate.
  - rewrite IH. apply orb_true_r.
Qed.

Lemma any_diff_lt_close (x y : singularity) (m r : list singularity) :
  StronglySorted le_loc (x :: m ++ y :: r) ->
  loc y - loc x < tol_sing ->
  any_diff_lt (x :: m ++ y :: r) = true.
Proof.
  intros Hs Hc. destruct m as [|z m]; simpl.
  - rewrite Rltb_true by exact Hc. reflexivity.
  - rewrite Rltb_true; [reflexivity|].
    inversion Hs as [|? ? Ht _]; subst.
    inversion Ht as [|? ? _ Hall]; subst.
    rewrite Forall_forall in Hall.
    assert (Hzy : le_loc z y) by (apply Hall; apply in_or_app; right; left; reflexivity).
    unfold le_loc in Hzy. lra.
Qed.

Lemma StronglySorted_app_r {A : Type} (P : A -> A -> Prop) (l1 l2 : list A) :
  StronglySorted P (l1 ++ l2) -> StronglySorted P l2.
Proof.
  induction l1 as [|x t IH]; simpl; intros H; [exact H|].
  inversion H; subst. apply IH. assumption.
Qed.

(** Two entries at different places of a sorted list that are closer than
    [tol] make some adjacent gap smaller than [tol]. *)
Lemma any_diff_lt_two (x y : singularity) (p m r : list singularity) :
  StronglySorted le_loc (p ++ x :: m ++ y :: r) ->
  Rabs (loc x - loc y) < tol_sing ->
  any_diff_lt (p ++ x :: m ++ y :: r) = true.
Proof.
  intros Hs Hc. apply any_diff_lt_app.
  apply StronglySorted_app_r in Hs.
  apply any_diff_lt_close; [exact Hs|].
  unfold Rabs in Hc. destruct (Rcase_abs (loc x - loc y)); [lra|].
  inversion Hs as [|? ? _ Hall]; subst.
  rewrite Forall_forall in Hall.
  assert (Hxy : le_loc x y) by (apply Hall; apply in_or_app; right; left; reflexivity).
  unfold le_loc in Hxy. lra.
Qed.

Lemma two_places_split {A : Type} (l : list A) (i j : nat) (x y : A) :
  (i < j)%nat -> nth_error l i = Some x -> nth_error l j = Some y ->
  exists p m r, l = p ++ x :: m ++ y :: r.
Proof.
  intros Hij Hi Hj.
  destruct (nth_error_split l i Hi) as (p & t & -> & Hp).
  assert (Hj' : nth_error t (j - i - 1) = Some y).
  { rewrite nth_error_app2 in Hj by lia.
    rewrite Hp in Hj. replace (j - i)%nat with (S (j - i - 1)) in Hj by lia.
    exact Hj. }
  destruct (nth_error_split t _ Hj') as (m & r & -> & _).
  exists p, m, r. reflexivity.
Qed.

Lemma perm_two_places {A : Type} (l l' : list A) (p m r : list A) (x y : A) :
  l = p ++ x :: m ++ y :: r -> Permutation l l' ->
  exists p' m' r', l' = p' ++ x :: m' ++ y :: r' \/ l' = p' ++ y :: m' ++ x :: r'.
Proof.
  intros -> HP.
  assert (Hx : In x l').
  { apply (Permutation_in _ HP). apply in_or_app. right. left. reflexivity. }
  destruct (in_split _ _ Hx) as (q1 & q2 & ->).
  assert (HP' : Permutation (p ++ m ++ y :: r) (q1 ++ q2)).
  { apply Permutation_app_inv with (a := x). exact HP. }
  assert (Hy : In y (q1 ++ q2)).
  { apply (Permutation_in _ HP'). apply in_or_app. right. apply in_or_app. right.
    left. reflexivity. }
  apply in_app_or in Hy. destruct Hy as [Hy | Hy].
  - destruct (in_split _ _ Hy) as (s1 & s2 & ->).
    exists s1, s2, q2. right. rewrite <- app_assoc. reflexivity.
  - destruct (in_split _ _ Hy) as (s1 & s2 & ->).
    exists q1, s1, s2. left. reflexivity.
Qed.

Lemma filter_two_places {A : Type} (f : A -> bool) (p m r : list A) (x y : A) :
  f x = true -> f y = true ->
  filter f (p ++ x :: m ++ y :: r) = filter f p ++ x :: filter f m ++ y :: filter f r.
Proof.
  intros Hx Hy. rewrite filter_app. simpl. rewrite Hx. rewrite filter_app. simpl.
  rewrite Hy. reflexivity.
Qed.

Lemma overlapping_raises (a b : R) (sl : list singularity) (i j : nat) (x y : singularity) :
  i <> j -> nth_error sl i = Some x -> nth_error sl j = Some y ->
  discard a b x = false -> discard a b y = false ->
  Rabs (loc x - loc y) < tol_sing ->
  compute_subintervals a b sl = Raise (ValueError overlapping_msg).
Proof.
  intros Hij Hi Hj Hdx Hdy Hc.
  assert (Hgen : forall i j x y, (i < j)%nat -> nth_error sl i = Some x -> nth_error sl j = Some y ->
     discard a b x = false -> discard a b y = false ->
     Rabs (loc x - loc y) < tol_sing ->
     compute_subintervals a b sl = Raise (ValueError overlapping_msg)).
  { clear. intros i j x y Hij Hi Hj Hdx Hdy Hc.
    destruct (two_places_split sl i j x y Hij Hi Hj) as (p & m & r & Hsl).
    unfold compute_subintervals.
    set (f := fun e => negb (discard a b e)).
    assert (Hk : filter f sl = filter f p ++ x :: filter f m ++ y :: filter f r).
    { rewrite Hsl. apply filter_two_places; unfold f; [rewrite Hdx | rewrite Hdy]; reflexivity. }
    destruct (perm_two_places _ (argsort (filter f sl)) _ _ _ x y Hk
                (Permutation_sym (argsort_perm _))) as (p' & m' & r' & [E | E]).
    - assert (Hany : any_diff_lt (argsort (filter f sl)) = true).
      { pose proof (argsort_sorted (filter f sl)) as Hs. rewrite E in *.
        apply any_diff_lt_two; assumption. }
      rewrite Hany. reflexivity.
    - assert (Hany : any_diff_lt (argsort (filter f sl)) = true).
      { pose proof (argsort_sorted (filter f sl)) as Hs. rewrite E in *.
        apply any_diff_lt_two; [assumption|].
        rewrite Rabs_minus_sym. assumption. }
      rewrite Hany. reflexivity. }
  destruct (Nat.lt_total i j) as [H | [H | H]].
  - eapply Hgen; eauto.
  - contradiction.
  - eapply (Hgen j i y x); eauto. rewrite Rabs_minus_sym. assumption.
Qed.

(** C3, as amended.  On [[0, 5]] with singularities at 1 and 3 (in either
    order of the list) the result is the three rows (0,1), (1,3), (3,5); the
    third entry of a row is the right strength of the singularity at its left
    endpoint and the fourth the left strength of the one at its right
    endpoint, 0 at the synthesized endpoints 0 and 5.  Two singularities of
    the list that both survive the discard step (neither lies below
    [a - tol] or above [b + tol]) and are closer than [tol = 1e-8] make the
    call raise ValueError. *)
Theorem compute_subintervals_partition :
  (forall l1 r1 l3 r3 : R,
     compute_subintervals 0 5 [(1, l1, r1); (3, l3, r3)]
     = Ret [(0, 1, 0, l1); (1, 3, r1, l3); (3, 5, r3, 0)]
     /\ compute_subintervals 0 5 [(3, l3, r3); (1, l1, r1)]
        = Ret [(0, 1, 0, l1); (1, 3, r1, l3); (3, 5, r3, 0)])
  /\ (forall (a b : R) (sl : list singularity) (i j : nat) (x y : singularity),
        i <> j -> nth_error sl i = Some x -> nth_error sl j = Some y ->
        discard a b x = false -> discard a b y = false ->
        Rabs (loc x - loc y) < tol_sing ->
        compute_subintervals a b sl = Raise (ValueError overlapping_msg)).
Proof.
  split.
  - intros l1 r1 l3 r3. split; run_subintervals; reflexivity.
  - exact overlapping_raises.
Qed.

(** The singularities 1 and 1 + 1e-10 on [[0, 5]]. *)
Lemma compute_subintervals_partition_witness :
  compute_subintervals 0 5 [(1, 0, 0); (1 + 1e-10, 0, 0)]
  = Raise (ValueError overlapping_msg).
Proof.
  apply (proj2 compute_subintervals_partition 0 5 [(1, 0, 0); (1 + 1e-10, 0, 0)] 0%nat 1%nat
           (1, 0, 0) (1 + 1e-10, 0, 0)).
  - discriminate.
  - reflexivity.
  - reflexivity.
  - unfold discard, tol_sing, loc. cbn [fst snd]. Rdecide. reflexivity.
  - unfold discard, tol_sing, loc. cbn [fst snd]. Rdecide. reflexivity.
  - unfold tol_sing, loc. cbn [fst snd]. unfold Rabs. destruct (Rcase_abs _); lra.
Defined.

(** C3, counterexample.  Two singularities closer than [tol] that lie
    outside [[a - tol, b + tol]] are discarded before the overlap test: the
    call returns the single row [(0, 5, 0, 0)] and raises nothing. *)
Lemma compute_subintervals_counterexample :
  Rabs (7 - (7 + 1e-10)) < tol_sing
  /\ compute_subintervals 0 5 [(7, 0, 0); (7 + 1e-10, 0, 0)] = Ret [(0, 5, 0, 0)].
Proof.
  split.
  - unfold tol_sing, Rabs. destruct (Rcase_abs _); lra.
  - run_subintervals. reflexivity.
Qed.

(** ** Outward walks *)

Lemma while_ext {S : Type} (cond : S -> bool) (body body' : S -> outcome S) :
  (forall s, body s = body' s) ->
  forall fuel s, while fuel cond body s = while fuel cond body' s.
Proof.
  intros Hb fuel. induction fuel as [|fuel IH]; intros s; simpl; [reflexivity|].
  destruct (cond s); [|reflexivity]. rewrite Hb.
  destruct (body' s); simpl; try reflexivity. apply IH.
Qed.

(** [psum q k] is [q 0 + ... + q (k-1)]. *)
Fixpoint psum (q : nat -> R) (k : nat) : R :=
  match k with
  | O => 0
  | S k' => psum q k' + q k'
  end.

(** The first increment whose magnitude is not above [tol] is [q k]. *)
Definition first_below (tol : R) (q : nat -> R) (k : nat) : Prop :=
  (forall i, (i < k)%nat -> tol < Rabs (q i)) /\ Rabs (q k) <= tol.

Definition never_below (tol : R) (q : nat -> R) : Prop :=
  forall i, tol < Rabs (q i).

(** The increments of the first [k + 1] steps of a walk to the left of [l0],
    and to the right of [r0]: the integral over each of these intervals
    returns, and [q i] is its value.  Nothing is asked of the intervals
    beyond step [k], which such a walk does not visit. *)
Definition steps_left (integral : R -> R -> outcome R) (l0 step : R) (q : nat -> R)
    (k : nat) : Prop :=
  forall i, (i <= k)%nat ->
    integral (l0 - INR (i + 1) * step) (l0 - INR i * step) = Ret (q i).

Definition steps_right (integral : R -> R -> outcome R) (r0 step : R) (q : nat -> R)
    (k : nat) : Prop :=
  forall i, (i <= k)%nat ->
    integral (r0 + INR i * step) (r0 + INR (i + 1) * step) = Ret (q i).

(** A loop whose first [k] passes lead from [st j] to [st (j + k)], where
    the test fails: the passes after the exit are not looked at. *)
Lemma chain_returns_upto {S : Type} (cond : S -> bool) (body : S -> outcome S)
    (st : nat -> S) (k : nat) : forall j fuel,
  (forall i, (i < k)%nat -> body (st (j + i)%nat) = Ret (st (j + i + 1)%nat)) ->
  first_exit cond st j k -> (k <= fuel)%nat ->
  while fuel cond body (st j) = Ret (st (j + k)%nat).
Proof.
  induction k as [|k IH]; intros j fuel Hb [Hgo Hstop] Hf.
  - rewrite Nat.add_0_r in *. apply while_done. exact Hstop.
  - destruct fuel as [|fuel]; [lia|].
    rewrite (while_step _ _ _ _ (st (j + 1)%nat)).
    + replace (j + Datatypes.S k)%nat with (j + 1 + k)%nat by lia. apply IH; [| |lia].
      * intros i Hi. replace (j + 1 + i)%nat with (j + Datatypes.S i)%nat by lia.
        apply Hb. lia.
      * split.
        -- intros i Hi. replace (j + 1 + i)%nat with (j + Datatypes.S i)%nat by lia.
           apply Hgo. lia.
        -- replace (j + 1 + k)%nat with (j + Datatypes.S k)%nat by lia. exact Hstop.
    + specialize (Hgo 0%nat). rewrite Nat.add_0_r in Hgo. apply Hgo. lia.
    + specialize (Hb 0%nat). rewrite Nat.add_0_r in Hb. apply Hb. lia.
Qed.

Section Walk.

Variable tol step : R.
Variable integral : R -> R -> outcome R.
Variable q : nat -> R.

(** The state of the leftward loop after [k] passes. *)
Fixpoint left_chain (l0 r0 s0 : R) (k : nat) : walk_state :=
  match k with
  | O => (l0, r0, s0, 1)
  | S k' => (l0 - INR k * step, l0 - INR k' * step, s0 + psum q k, q k')
  end.

Fixpoint right_chain (l0 r0 s0 : R) (k : nat) : walk_state :=
  match k with
  | O => (l0, r0, s0, 1)
  | S k' => (r0 + INR k' * step, r0 + INR k * step, s0 + psum q k, q k')
  end.

Lemma left_chain_sum (l0 r0 s0 : R) (k : nat) :
  walk_sum (left_chain l0 r0 s0 k) = s0 + psum q k.
Proof. destruct k; unfold walk_sum; simpl; lra. Qed.

Lemma right_chain_sum (l0 r0 s0 : R) (k : nat) :
  walk_sum (right_chain l0 r0 s0 k) = s0 + psum q k.
Proof. destruct k; unfold walk_sum; simpl; lra. Qed.

Lemma left_chain_body (l0 r0 s0 : R) (n : nat) :
  steps_left integral l0 step q n ->
  forall k, (k <= n)%nat ->
            extend_left step integral (left_chain l0 r0 s0 k)
            = Ret (left_chain l0 r0 s0 (k + 1)).
Proof.
  intros Hq k Hk. rewrite Nat.add_1_r. specialize (Hq k Hk). rewrite Nat.add_1_r in Hq.
  destruct k as [|k].
  - cbn [left_chain extend_left]. simpl INR in *.
    replace (l0 - step) with (l0 - 1 * step) by lra.
    replace l0 with (l0 - 0 * step) at 2 by lra.
    rewrite Hq. cbn [bind psum]. simpl INR. apply f_equal.
    apply f_equal2; [apply f_equal2; [apply f_equal2|]|]; lra.
  - cbn [left_chain extend_left].
    replace (l0 - INR (S k) * step - step) with (l0 - INR (S (S k)) * step)
      by (rewrite (S_INR (S k)); lra).
    rewrite Hq. cbn [bind psum]. apply f_equal.
    apply f_equal2; [apply f_equal2; [apply f_equal2|]|]; lra.
Qed.

Lemma right_chain_body (l0 r0 s0 : R) (n : nat) :
  steps_right integral r0 step q n ->
  forall k, (k <= n)%nat ->
            extend_right step integral (right_chain l0 r0 s0 k)
            = Ret (right_chain l0 r0 s0 (k + 1)).
Proof.
  intros Hq k Hk. rewrite Nat.add_1_r. specialize (Hq k Hk). rewrite Nat.add_1_r in Hq.
  destruct k as [|k].
  - cbn [right_chain extend_right]. simpl INR in *.
    replace (r0 + step) with (r0 + 1 * step) by lra.
    replace r0 with (r0 + 0 * step) at 1 by lra.
    rewrite Hq. cbn [bind psum]. simpl INR. apply f_equal.
    apply f_equal2; [apply f_equal2; [apply f_equal2|]|]; lra.
  - cbn [right_chain extend_right].
    replace (r0 + INR (S k) * step + step) with (r0 + INR (S (S k)) * step)
      by (rewrite (S_INR (S k)); lra).
    rewrite Hq. cbn [bind psum]. apply f_equal.
    apply f_equal2; [apply f_equal2; [apply f_equal2|]|]; lra.
Qed.

Lemma walk_exit (chain : nat -> walk_state) (k : nat) :
  chain 0%nat = (fst (fst (fst (chain 0%nat))), snd (fst (fst (chain 0%nat))),
                 walk_sum (chain 0%nat), 1) ->
  (forall i, walk_newest (chain (S i)) = q i) ->
  tol < 1 -> first_below tol q k ->
  first_exit (walk_cond tol) chain 0 (k + 1).
Proof.
  intros H0 Hn Ht [Hgo Hstop]. split.
  - intros i Hi. simpl. unfold walk_cond. apply Rltb_true.
    destruct i as [|i].
    + rewrite H0. unfold walk_newest. simpl. rewrite Rabs_R1. exact Ht.
    + rewrite Hn. apply Hgo. lia.
  - simpl. rewrite Nat.add_1_r. unfold walk_cond. apply Rltb_false. rewrite Hn. exact Hstop.
Qed.

Lemma walk_left_returns (l0 r0 s0 : R) (k fuel : nat) :
  steps_left integral l0 step q k -> tol < 1 -> first_below tol q k -> (k < fuel)%nat ->
  while fuel (walk_cond tol) (extend_left step integral) (l0, r0, s0, 1)
  = Ret (left_chain l0 r0 s0 (k + 1)).
Proof.
  intros Hq Ht Hk Hf.
  change (l0, r0, s0, 1) with (left_chain l0 r0 s0 0).
  rewrite (chain_returns_upto (walk_cond tol) (extend_left step integral)
             (left_chain l0 r0 s0) (k + 1) 0 fuel); [reflexivity| | |lia].
  - intros i Hi. cbn [Nat.add]. apply (left_chain_body l0 r0 s0 k Hq). lia.
  - apply walk_exit; auto.
Qed.

Lemma walk_right_returns (l0 r0 s0 : R) (k fuel : nat) :
  steps_right integral r0 step q k -> tol < 1 -> first_below tol q k -> (k < fuel)%nat ->
  while fuel (walk_cond tol) (extend_right step integral) (l0, r0, s0, 1)
  = Ret (right_chain l0 r0 s0 (k + 1)).
Proof.
  intros Hq Ht Hk Hf.
  change (l0, r0, s0, 1) with (right_chain l0 r0 s0 0).
  rewrite (chain_returns_upto (walk_cond tol) (extend_right step integral)
             (right_chain l0 r0 s0) (k + 1) 0 fuel); [reflexivity| | |lia].
  - intros i Hi. cbn [Nat.add]. apply (right_chain_body l0 r0 s0 k Hq). lia.
  - apply walk_exit; auto.
Qed.

Lemma walk_diverges (chain : nat -> walk_state) (body : walk_state -> outcome walk_state)
    (fuel : nat) :
  (forall k, body (chain k) = Ret (chain (k + 1)%nat)) ->
  walk_newest (chain 0%nat) = 1 ->
  (forall i, walk_newest (chain (S i)) = q i) ->
  tol < 1 -> never_below tol q ->
  while fuel (walk_cond tol) body (chain 0%nat) = OutOfFuel.
Proof.
  intros Hb H0 Hn Ht Hq.
  apply (chain_diverges (walk_cond tol) body chain Hb fuel 0).
  intros i. simpl. unfold walk_cond. apply Rltb_true. destruct i as [|i].
  - rewrite H0, Rabs_R1. exact Ht.
  - rewrite Hn. apply Hq.
Qed.

(** With [1 <= tol] the loop test fails on the value [1.] that primes
    [integral_new]: no step is taken. *)
Lemma walk_not_started (body : walk_state -> outcome walk_state) (l0 r0 s0 : R) (fuel : nat) :
  1 <= tol -> while fuel (walk_cond tol) body (l0, r0, s0, 1) = Ret (l0, r0, s0, 1).
Proof.
  intros Ht. apply while_done. unfold walk_cond, walk_newest. simpl.
  apply Rltb_false. rewrite Rabs_R1. exact Ht.
Qed.

End Walk.

(** ** The extension routines *)

Section Extension.

Variable fuel : nat.
Variable self : Composite.t.
Variable integral : R -> R -> outcome R.

Lemma extend_left_ray (b s0 : R) (q : nat -> R) (k : nat) :
  tol self < 1 ->
  integral (b - l_step self) b = Ret s0 ->
  steps_left integral (b - l_step self) (l_step self) q k ->
  first_below (tol self) q k -> (k < fuel)%nat ->
  extend fuel self integral MInf (Fin b) = Ret (s0 + psum q (k + 1)).
Proof.
  intros Ht H0 Hq Hk Hf. unfold extend. rewrite H0. cbn [bind].
  rewrite (walk_left_returns (tol self) (l_step self) integral q _ _ _ k fuel Hq Ht Hk Hf).
  cbn [bind]. rewrite left_chain_sum. reflexivity.
Qed.

Lemma extend_right_ray (a s0 : R) (q : nat -> R) (k : nat) :
  tol self < 1 ->
  integral a (a + r_step self) = Ret s0 ->
  steps_right integral (a + r_step self) (r_step self) q k ->
  first_below (tol self) q k -> (k < fuel)%nat ->
  extend fuel self integral (Fin a) PInf = Ret (s0 + psum q (k + 1)).
Proof.
  intros Ht H0 Hq Hk Hf. unfold extend. rewrite H0. cbn [bind].
  rewrite (walk_right_returns (tol self) (r_step self) integral q _ _ _ k fuel Hq Ht Hk Hf).
  cbn [bind]. rewrite right_chain_sum. reflexivity.
Qed.

Lemma extend_line (s0 : R) (qL qR : nat -> R) (kL kR : nat) :
  tol self < 1 ->
  integral (-1) 1 = Ret s0 ->
  steps_left integral (-1) (l_step self) qL kL ->
  steps_right integral 1 (r_step self) qR kR ->
  first_below (tol self) qL kL -> first_below (tol self) qR kR ->
  (kL < fuel)%nat -> (kR < fuel)%nat ->
  extend fuel self integral MInf PInf = Ret (s0 + psum qL (kL + 1) + psum qR (kR + 1)).
Proof.
  intros Ht H0 HqL HqR HkL HkR HfL HfR. unfold extend. rewrite H0. cbn [bind].
  rewrite (walk_left_returns (tol self) (l_step self) integral qL _ _ _ kL fuel HqL Ht HkL HfL).
  cbn [bind]. rewrite left_chain_sum.
  rewrite (walk_right_returns (tol self) (r_step self) integral qR _ _ _ kR fuel HqR Ht HkR HfR).
  cbn [bind]. rewrite right_chain_sum. reflexivity.
Qed.

(** With [1 <= tol] neither walk starts. *)
Lemma extend_not_started (a b : ext) :
  1 <= tol self ->
  extend fuel self integral a b =
  match a, b with
  | MInf, PInf => integral (-1) 1
  | MInf, Fin b => integral (b - l_step self) b
  | Fin a, PInf => integral a (a + r_step self)
  | Fin a, Fin b => integral a b
  | _, _ => Unmodelled
  end.
Proof.
  intros Ht. unfold extend. destruct a as [|a|], b as [|b|]; try reflexivity.
  - destruct (integral (b - l_step self) b); try reflexivity. cbn [bind].
    rewrite walk_not_started by exact Ht. reflexivity.
  - destruct (integral (-1) 1); try reflexivity. cbn [bind].
    rewrite walk_not_started by exact Ht. cbn [bind].
    rewrite walk_not_started by exact Ht. reflexivity.
  - destruct (integral a (a + r_step self)); try reflexivity. cbn [bind].
    rewrite walk_not_started by exact Ht. reflexivity.
Qed.

End Extension.

(** The contribution of [[l, r]] in [gq_modification_unbounded_composite]:
    [subintervals = compute_subintervals(l, r, singularity_list)] and then
    [gq_modification_composite(integrand, l, r, N, subintervals, adaptive,
    **kwargs)]. *)
Definition gq_on
    (gq : (R -> R) -> R -> R -> nat -> list subinterval -> option bool -> quad_kwargs -> R)
    (integrand : R -> R) (N : nat) (singularity_list : list singularity)
    (adaptive : option bool) (kwargs : quad_kwargs) (l r : R) : outcome R :=
  let* subintervals := compute_subintervals l r singularity_list in
  Ret (gq integrand l r N subintervals adaptive kwargs).

(** The steps and the tolerance of a walk, as an instance of the class. *)
Definition walker (tolerance step : R) : Composite.t :=
  {| domain := (MInf, PInf); weight := fun _ => 0; l_step := step; r_step := step;
     N_start := 0; N_step := 0; sing := []; sing_strength := []; tol := tolerance |}.

Section ModuleLevelExtension.

Variable gq : (R -> R) -> R -> R -> nat -> list subinterval -> option bool -> quad_kwargs -> R.
Variable integrand : R -> R.
Variable N : nat.
Variable singularity_list : list singularity.
Variable adaptive : option bool.
Variable kwargs : quad_kwargs.

Lemma gq_walk_left_extend (step : R) (st : walk_state) :
  gq_walk_left gq integrand N singularity_list adaptive step kwargs st
  = extend_left step (gq_on gq integrand N singularity_list adaptive kwargs) st.
Proof.
  destruct st as [[[l r] s] Q]. unfold gq_walk_left, extend_left, gq_on.
  destruct (compute_subintervals (l - step) l singularity_list); reflexivity.
Qed.

Lemma gq_walk_right_extend (step : R) (st : walk_state) :
  gq_walk_right gq integrand N singularity_list adaptive step kwargs st
  = extend_right step (gq_on gq integrand N singularity_list adaptive kwargs) st.
Proof.
  destruct st as [[[l r] s] Q]. unfold gq_walk_right, extend_right, gq_on.
  destruct (compute_subintervals r (r + step) singularity_list); reflexivity.
Qed.

(** Apart from the missing [else], the module-level routine is the method's
    body with one step for both directions. *)
Lemma gq_unbounded_extend (fuel : nat) (a b : ext) (tolerance step : R) :
  a = MInf \/ b = PInf ->
  gq_modification_unbounded_composite gq fuel integrand a b N singularity_list adaptive
    tolerance step kwargs
  = extend fuel (walker tolerance step)
      (gq_on gq integrand N singularity_list adaptive kwargs) a b.
Proof.
  intros Hab. unfold gq_modification_unbounded_composite, extend.
  destruct a as [|a|], b as [|b|]; try reflexivity;
    try (destruct Hab; discriminate); cbn [walker l_step r_step tol].
  - unfold gq_on at 1.
    destruct (compute_subintervals (b - step) b singularity_list); try reflexivity.
    cbn [bind]. rewrite (while_ext _ _ _ (gq_walk_left_extend step)). reflexivity.
  - unfold gq_on at 1.
    destruct (compute_subintervals (-1) 1 singularity_list); try reflexivity.
    cbn [bind]. rewrite (while_ext _ _ _ (gq_walk_left_extend step)).
    destruct (while fuel _ _ _); try reflexivity. cbn [bind].
    rewrite (while_ext _ _ _ (gq_walk_right_extend step)). reflexivity.
  - unfold gq_on at 1.
    destruct (compute_subintervals a (a + step) singularity_list); try reflexivity.
    cbn [bind]. rewrite (while_ext _ _ _ (gq_walk_right_extend step)). reflexivity.
Qed.

End ModuleLevelExtension.

(** C10.  [gq_modification_unbounded_composite] assigns [integral] only in
    the branches taken when [a == -np.inf] or [b == np.inf]: with both
    endpoints finite (neither test holds) [return integral] raises
    UnboundLocalError, and a value is returned only when an endpoint is
    infinite. *)
Theorem unbounded_composite_needs_infinite_endpoint
    (gq : (R -> R) -> R -> R -> nat -> list subinterval -> option bool -> quad_kwargs -> R)
    (fuel : nat) (integrand : R -> R) (a b : ext) (N : nat)
    (singularity_list : list singularity) (adaptive : option bool) (tolerance step : R)
    (kwargs : quad_kwargs) :
  (a <> MInf -> b <> PInf ->
   gq_modification_unbounded_composite gq fuel integrand a b N singularity_list adaptive
     tolerance step kwargs = Raise UnboundLocalError)
  /\ (forall v,
        gq_modification_unbounded_composite gq fuel integrand a b N singularity_list adaptive
          tolerance step kwargs = Ret v ->
        a = MInf \/ b = PInf).
Proof.
  split.
  - intros Ha Hb. destruct a, b; try reflexivity; congruence.
  - intros v H. destruct a, b; auto; discriminate.
Qed.

Lemma unbounded_composite_needs_infinite_endpoint_witness :
  gq_modification_unbounded_composite (fun _ l r _ _ _ _ => r - l) 3 (fun _ => 1)
    (Fin 0) (Fin 1) 10 [] (Some true) 1e-8 2 no_kwargs = Raise UnboundLocalError.
Proof.
  apply (proj1 (unbounded_composite_needs_infinite_endpoint (fun _ l r _ _ _ _ => r - l) 3
                  (fun _ => 1) (Fin 0) (Fin 1) 10 [] (Some true) 1e-8 2 no_kwargs));
    discriminate.
Defined.

(** C5, as amended.  For [tol < 1] the extension routines integrate a first
    interval ([[-1, 1]] on a doubly-infinite domain, the interval of one step
    at the finite endpoint otherwise), then walk outward in fixed steps,
    adding each increment to the running sum, and leave a direction with the
    first increment whose magnitude is not above [tol], that increment
    included; on a doubly-infinite domain the left walk and the right walk
    each have their own test; the value returned is the accumulated sum.
    [s0] is the first integral and [q i] the increment of step [i]; the
    integrals that have to return are those over the first interval and over
    the intervals of the steps [0] to [k] the walk visits, no other.  For
    [1 <= tol] no step is walked: what the routine returns, or raises, is
    the integral over the first interval. *)
Theorem unbounded_extension_walks
    (jacobi_recurrence : R -> R -> nat -> table)
    (linear_modification : table -> R -> table * R)
    (quadratic_modification : table -> R -> table)
    (gauss_quadrature_driver : table -> Z -> list R * list R)
    (fpow : R -> R -> R)
    (gq : (R -> R) -> R -> R -> nat -> list subinterval -> option bool -> quad_kwargs -> R)
    (fuel : nat) (self : Composite.t) (zeros : list R) (leadingc : R) (lin : bool)
    (addzeros : list R) (integrand : R -> R) (N : nat) (singularity_list : list singularity)
    (adaptive : option bool) (tolerance step : R) (kwargs : quad_kwargs) :
  let I := fun l r =>
    eval_integral jacobi_recurrence linear_modification quadratic_modification
      gauss_quadrature_driver fpow fuel self l r zeros leadingc lin addzeros in
  let E := fun a b =>
    eval_extend jacobi_recurrence linear_modification quadratic_modification
      gauss_quadrature_driver fpow fuel self a b zeros leadingc lin addzeros in
  let G := gq_on gq integrand N singularity_list adaptive kwargs in
  let U := fun a b =>
    gq_modification_unbounded_composite gq fuel integrand a b N singularity_list adaptive
      tolerance step kwargs in
  (tol self < 1 ->
     (forall b s0 q k,
        I (b - l_step self) b = Ret s0 ->
        steps_left I (b - l_step self) (l_step self) q k ->
        first_below (tol self) q k -> (k < fuel)%nat ->
        E MInf (Fin b) = Ret (s0 + psum q (k + 1)))
     /\ (forall a s0 q k,
        I a (a + r_step self) = Ret s0 ->
        steps_right I (a + r_step self) (r_step self) q k ->
        first_below (tol self) q k -> (k < fuel)%nat ->
        E (Fin a) PInf = Ret (s0 + psum q (k + 1)))
     /\ (forall s0 qL kL qR kR,
        I (-1) 1 = Ret s0 ->
        steps_left I (-1) (l_step self) qL kL -> steps_right I 1 (r_step self) qR kR ->
        first_below (tol self) qL kL -> first_below (tol self) qR kR ->
        (kL < fuel)%nat -> (kR < fuel)%nat ->
        E MInf PInf = Ret (s0 + psum qL (kL + 1) + psum qR (kR + 1))))
  /\
  (1 <= tol self ->
     (forall b, E MInf (Fin b) = I (b - l_step self) b)
     /\ (forall a, E (Fin a) PInf = I a (a + r_step self))
     /\ E MInf PInf = I (-1) 1)
  /\
  (tolerance < 1 ->
     (forall b s0 q k,
        G (b - step) b = Ret s0 ->
        steps_left G (b - step) step q k ->
        first_below tolerance q k -> (k < fuel)%nat ->
        U MInf (Fin b) = Ret (s0 + psum q (k + 1)))
     /\ (forall a s0 q k,
        G a (a + step) = Ret s0 ->
        steps_right G (a + step) step q k ->
        first_below tolerance q k -> (k < fuel)%nat ->
        U (Fin a) PInf = Ret (s0 + psum q (k + 1)))
     /\ (forall s0 qL kL qR kR,
        G (-1) 1 = Ret s0 ->
        steps_left G (-1) step qL kL -> steps_right G 1 step qR kR ->
        first_below tolerance qL kL -> first_below tolerance qR kR ->
        (kL < fuel)%nat -> (kR < fuel)%nat ->
        U MInf PInf = Ret (s0 + psum qL (kL + 1) + psum qR (kR + 1))))
  /\
  (1 <= tolerance ->
     (forall b, U MInf (Fin b) = G (b - step) b)
     /\ (forall a, U (Fin a) PInf = G a (a + step))
     /\ U MInf PInf = G (-1) 1).
Proof.
  intros I E G U. split; [|split; [|split]]; intros Ht.
  - unfold E, eval_extend. fold I. split; [|split].
    + intros b s0 q k. apply extend_left_ray. exact Ht.
    + intros a s0 q k. apply extend_right_ray. exact Ht.
    + intros s0 qL kL qR kR. apply extend_line. exact Ht.
  - unfold E, eval_extend. fold I. split; [|split]; intros;
      rewrite extend_not_started by exact Ht; reflexivity.
  - unfold U. split; [|split].
    + intros b s0 q k H0 Hq Hk Hf. rewrite gq_unbounded_extend by (left; reflexivity).
      exact (extend_left_ray fuel (walker tolerance step) G b s0 q k Ht H0 Hq Hk Hf).
    + intros a s0 q k H0 Hq Hk Hf. rewrite gq_unbounded_extend by (right; reflexivity).
      exact (extend_right_ray fuel (walker tolerance step) G a s0 q k Ht H0 Hq Hk Hf).
    + intros s0 qL kL qR kR H0 HqL HqR HkL HkR HfL HfR.
      rewrite gq_unbounded_extend by (left; reflexivity).
      exact (extend_line fuel (walker tolerance step) G s0 qL qR kL kR Ht H0 HqL HqR HkL HkR
               HfL HfR).
  - unfold U. split; [|split]; intros;
      (rewrite gq_unbounded_extend by (first [left; reflexivity | right; reflexivity]));
      rewrite extend_not_started by exact Ht; reflexivity.
Qed.

(** ** Adaptive refinement of one integral *)

(** Successive estimates [x 0], [x 1], ... first agree within [tol] at
    [x k], [x (k+1)]. *)
Definition first_agreement (tol : R) (x : nat -> R) (k : nat) : Prop :=
  (forall i, (i < k)%nat -> tol < Rabs (x i - x (i + 1)%nat))
  /\ Rabs (x k - x (k + 1)%nat) <= tol.

Definition never_agree (tol : R) (x : nat -> R) : Prop :=
  forall i, tol < Rabs (x i - x (i + 1)%nat).

(** What the refinement loop does with the estimates [x]: it returns
    [x (k+1)] for the first agreeing pair, it returns nothing else, and it
    spends any fuel when no pair agrees. *)
Definition adaptive_loop (tol : R) (x : nat -> R) (run : nat -> outcome R) : Prop :=
  (forall k fuel, first_agreement tol x k -> (k <= fuel)%nat -> run fuel = Ret (x (k + 1)%nat))
  /\ (forall fuel v, run fuel = Ret v ->
        exists k, (k <= fuel)%nat /\ first_agreement tol x k /\ v = x (k + 1)%nat)
  /\ (never_agree tol x -> forall fuel, run fuel = OutOfFuel).

Section Refinement.

Variable tol : R.
Variable N_step N0 : nat.
Variable estimate : nat -> outcome R.
Variable x : nat -> R.
Hypothesis estimate_x : forall k, estimate (N0 + k * N_step)%nat = Ret (x k).

(** The loop state when the pair [x j], [x (j+1)] is compared. *)
Definition refine_at (j : nat) : refine_state :=
  ((N0 + (j + 1) * N_step)%nat, x j, x (j + 1)%nat).

Lemma refine_body_at (j : nat) :
  refine_body N_step estimate (refine_at j) = Ret (refine_at (j + 1)).
Proof.
  unfold refine_body, refine_at.
  replace (N0 + (j + 1) * N_step + N_step)%nat with (N0 + (j + 1 + 1) * N_step)%nat by lia.
  rewrite estimate_x. reflexivity.
Qed.

Lemma refine_exit (k : nat) :
  first_agreement tol x k <-> first_exit (refine_cond tol) refine_at 0 k.
Proof.
  unfold first_agreement, first_exit, refine_cond, refine_at. simpl.
  split; intros [Hgo Hstop]; split.
  - intros i Hi. apply Rltb_true. apply Hgo. exact Hi.
  - apply Rltb_false. exact Hstop.
  - intros i Hi. apply Rltb_spec. apply Hgo. exact Hi.
  - destruct (Rle_dec (Rabs (x k - x (k + 1)%nat)) tol) as [Hle|Hn]; [exact Hle|].
    rewrite Rltb_true in Hstop by lra. discriminate.
Qed.

Lemma adaptive_loop_refine :
  adaptive_loop tol x
    (fun fuel =>
       let* s := estimate N0 in
       let* s_new := estimate (N0 + N_step)%nat in
       let* st := while fuel (refine_cond tol) (refine_body N_step estimate)
                    ((N0 + N_step)%nat, s, s_new) in
       Ret (snd st)).
Proof.
  assert (H0 : estimate N0 = Ret (x 0%nat)).
  { pose proof (estimate_x 0) as H. rewrite Nat.add_0_r in H. exact H. }
  assert (H1 : estimate (N0 + N_step)%nat = Ret (x 1%nat)).
  { pose proof (estimate_x 1) as H. rewrite Nat.mul_1_l in H. exact H. }
  assert (Hst : ((N0 + N_step)%nat, x 0%nat, x 1%nat) = refine_at 0).
  { unfold refine_at. simpl. rewrite Nat.add_0_r. reflexivity. }
  unfold adaptive_loop. rewrite H0, H1. cbn [bind]. rewrite Hst.
  split; [|split].
  - intros k fuel Hk Hf. apply refine_exit in Hk.
    rewrite (chain_returns _ _ _ refine_body_at k 0 fuel Hk Hf). reflexivity.
  - intros fuel v H.
    destruct (while fuel (refine_cond tol) (refine_body N_step estimate) (refine_at 0))
      as [st| | |] eqn:E; cbn [bind] in H; try discriminate.
    destruct (chain_returned _ _ _ refine_body_at fuel 0 st E) as (k & Hk & Hex & ->).
    exists k. split; [exact Hk|]. split; [apply refine_exit; exact Hex|].
    unfold refine_at in H. simpl in H. congruence.
  - intros Hn fuel.
    rewrite (chain_diverges _ _ _ refine_body_at fuel 0); [reflexivity|].
    intros i. unfold refine_cond, refine_at. simpl. apply Rltb_true. apply Hn.
Qed.

End Refinement.

(** C4.  [eval_integral] and [eval_disc_integral] evaluate the estimate at
    the start order and then at orders raised by [N_step] each pass; with
    [x k] the estimate at the start order plus [k * N_step], they return
    [x (k+1)] exactly for the first [k] at which [|x k - x (k+1)| <= tol]
    (given fuel for [k] passes), they return no other value, and when no two
    successive estimates agree within [tol] no amount of fuel makes them
    return: the loops have no iteration cap. *)
Theorem adaptive_integration_refines
    (jacobi_recurrence : R -> R -> nat -> table)
    (linear_modification : table -> R -> table * R)
    (quadratic_modification : table -> R -> table)
    (gauss_quadrature_driver : table -> Z -> list R * list R)
    (fpow : R -> R -> R)
    (self : Composite.t) (a b : R) (zeros : list R) (leadingc : R) (lin : bool)
    (addzeros : list R) (f : list R -> outcome (list R)) (x y : nat -> R) :
  ((forall k, quad_estimate jacobi_recurrence linear_modification quadratic_modification
                gauss_quadrature_driver fpow self a b zeros leadingc lin addzeros
                (length zeros + N_start self + k * N_step self) = Ret (x k)) ->
   adaptive_loop (tol self) x
     (fun fuel => eval_integral jacobi_recurrence linear_modification quadratic_modification
                    gauss_quadrature_driver fpow fuel self a b zeros leadingc lin addzeros))
  /\
  ((forall k, disc_estimate jacobi_recurrence gauss_quadrature_driver fpow self f a b
                (N_start self + k * N_step self) = Ret (y k)) ->
   adaptive_loop (tol self) y
     (fun fuel => eval_disc_integral jacobi_recurrence gauss_quadrature_driver fpow fuel
                    self f a b)).
Proof.
  split; intros Hx.
  - exact (adaptive_loop_refine (tol self) (N_step self) (length zeros + N_start self) _ x Hx).
  - exact (adaptive_loop_refine (tol self) (N_step self) (N_start self) _ y Hx).
Qed.

(** A run: a stand-in family with [N+1] rows at order [N], and a one-node
    rule whose weight is the reciprocal of the table length, so that the
    estimates are 1/2, 1/3, 1/4, ... *)
Definition demo_jacobi (al be : R) (N : nat) : table := repeat (0, 1) (N + 1).
Definition demo_gauss (ab : table) (N : Z) : list R * list R := ([0], [/ IZR (N + 1)]).
Definition demo_self (tolerance : R) : Composite.t :=
  {| domain := (Fin 0, Fin 1); weight := fun _ => 1; l_step := 2; r_step := 2;
     N_start := 1; N_step := 1; sing := []; sing_strength := []; tol := tolerance |}.
Definition demo_x (k : nat) : R := / INR (k + 2).

Lemma demo_estimate (tolerance : R) (k : nat) :
  quad_estimate demo_jacobi (fun ab _ => (ab, 1)) (fun ab _ => ab) demo_gauss (fun u _ => u)
    (demo_self tolerance) 0 1 [] 1 true []
    (length (@nil R) + N_start (demo_self tolerance) + k * N_step (demo_self tolerance))
  = Ret (demo_x k).
Proof.
  unfold quad_estimate, find_jacobi, in_sing, demo_jacobi, demo_gauss, demo_x.
  cbn [sing demo_self existsb andb length Nat.add N_start N_step].
  replace (1 + k * 1 + 1)%nat with (S (S k)) by lia.
  cbn [repeat affine_mapping bind modify Nat.eqb length Nat.ltb Nat.leb].
  cbn [length]. rewrite length_map, repeat_length.
  cbn [combine map fst snd np_sum fold_right weight].
  f_equal. cbn [weight demo_self].
  replace (Z.of_nat (S (k * 1 + 1)) - 1 + 1)%Z with (Z.of_nat (k + 2)) by lia.
  rewrite <- INR_IZR_INZ. lra.
Qed.

(** With [tol = 1/10]: |1/2 - 1/3| is above it, |1/3 - 1/4| is not. *)
Lemma adaptive_integration_refines_witness :
  eval_integral demo_jacobi (fun ab _ => (ab, 1)) (fun ab _ => ab) demo_gauss (fun u _ => u)
    5 (demo_self (1/10)) 0 1 [] 1 true [] = Ret (/ 4).
Proof.
  replace (/ 4) with (demo_x (1 + 1)) by (unfold demo_x; simpl; lra).
  refine (proj1 (proj1 (adaptive_integration_refines demo_jacobi (fun ab _ => (ab, 1))
                          (fun ab _ => ab) demo_gauss (fun u _ => u) (demo_self (1/10)) 0 1
                          [] 1 true [] (fun u => Ret u) demo_x demo_x)
                  (demo_estimate (1/10))) 1%nat 5%nat _ _).
  - unfold first_agreement, demo_x. split.
    + intros i Hi. assert (i = 0%nat) by lia. subst i. simpl.
      unfold Rabs. destruct (Rcase_abs _); lra.
    + simpl. unfold Rabs. destruct (Rcase_abs _); lra.
  - lia.
Defined.

Lemma compute_subintervals_nil (a b : R) : compute_subintervals a b [] = Ret [(a, b, 0, 0)].
Proof. reflexivity. Qed.

Ltac Rmax_decide :=
  repeat match goal with
  | |- context [Rmax ?x ?y] =>
      first [ rewrite (Rmax_left x y) by lra | rewrite (Rmax_right x y) by lra ]
  end.

(** A quadrature that is exact for the weight [1] on [[4, +inf)]. *)
Definition mass_from_4 (_ : R -> R) (l r : R) (_ : nat) (_ : list subinterval)
    (_ : option bool) (_ : quad_kwargs) : R :=
  Rmax 0 (r - Rmax l 4).

Definition mass_from_4_steps (k : nat) : R :=
  Rmax 0 (10 - 2 - INR k * 2 - Rmax (10 - 2 - INR (k + 1) * 2) 4).

(** Two singularities closer than [1e-8] to each other, near [-100]: an
    interval that keeps them cannot be split, an interval to the right of 0
    discards both. *)
Definition far_pair : list singularity := [(-100, 0, 0); (-100 + 1e-10, 0, 0)].

Lemma far_pair_discarded (l r : R) :
  0 <= l -> compute_subintervals l r far_pair = Ret [(l, r, 0, 0)].
Proof.
  intros Hl. unfold compute_subintervals, far_pair, discard, tol_sing.
  cbn [filter loc fst snd]. Rdecide. reflexivity.
Qed.

Lemma far_pair_raises :
  compute_subintervals (-102) (-100) far_pair = Raise (ValueError overlapping_msg).
Proof. unfold far_pair. run_subintervals. reflexivity. Qed.

(** On [(-inf, 10]] with step 2 the walk integrates [[8, 10]], [[6, 8]],
    [[4, 6]] and [[2, 4]], and stops on the last increment, 0.  The
    interval [[-102, -100]], which the walk does not reach, could not be
    integrated. *)
Lemma unbounded_extension_walks_witness :
  gq_modification_unbounded_composite mass_from_4 5 (fun _ => 1) MInf (Fin 10) 10 far_pair
    (Some true) 1e-8 2 no_kwargs = Ret 6
  /\ gq_on mass_from_4 (fun _ => 1) 10 far_pair (Some true) no_kwargs (-102) (-100)
     = Raise (ValueError overlapping_msg).
Proof.
  assert (Hq0 : mass_from_4_steps 0 = 2).
  { unfold mass_from_4_steps. simpl INR. Rmax_decide. lra. }
  assert (Hq1 : mass_from_4_steps 1 = 2).
  { unfold mass_from_4_steps. simpl INR. Rmax_decide. lra. }
  assert (Hq2 : mass_from_4_steps 2 = 0).
  { unfold mass_from_4_steps. simpl INR. Rmax_decide. lra. }
  split; [|unfold gq_on; rewrite far_pair_raises; reflexivity].
  replace 6 with (2 + psum mass_from_4_steps (2 + 1))
    by (simpl; rewrite Hq0, Hq1, Hq2; lra).
  refine (proj1 (proj1 (proj2 (proj2
            (unbounded_extension_walks (fun _ _ N => repeat (0, 1) (N + 1))
               (fun ab _ => (ab, 1)) (fun ab _ => ab) (fun _ _ => ([], []))
               (fun u _ => u) mass_from_4 5 (walker 1e-8 2) [] 1 true []
               (fun _ => 1) 10 far_pair (Some true) 1e-8 2 no_kwargs))) _)
            10 2 mass_from_4_steps 2%nat _ _ _ _).
  - lra.
  - unfold gq_on. rewrite far_pair_discarded by lra. cbn [bind]. unfold mass_from_4.
    Rmax_decide. f_equal. lra.
  - intros i Hi. unfold gq_on. rewrite far_pair_discarded.
    + reflexivity.
    + assert (Hi' : INR (i + 1) <= 3).
      { replace 3 with (INR 3) by (simpl; lra). apply le_INR. lia. }
      lra.
  - split.
    + intros i Hi. destruct i as [|[|i]]; [rewrite Hq0 | rewrite Hq1 | lia];
        rewrite Rabs_right; lra.
    + rewrite Hq2, Rabs_R0. lra.
  - lia.
Defined.

(** C5, counterexample.  With [tol = 1] on the whole line the loops are
    primed with [integral_new = 1.], whose magnitude is not above [tol]: the
    routine returns the integral over [[-1, 1]] and walks no step, although
    the increment of the first step to the left, over [[-3, -1]], is 2. *)
Lemma unbounded_extension_counterexample :
  gq_modification_unbounded_composite (fun _ l r _ _ _ _ => r - l) 100 (fun _ => 1)
    MInf PInf 10 [] (Some true) 1 2 no_kwargs = Ret 2
  /\ gq_on (fun _ l r _ _ _ _ => r - l) (fun _ => 1) 10 [] (Some true) no_kwargs
       (-1 - 2) (-1) = Ret 2
  /\ 1 < Rabs 2.
Proof.
  split; [|split].
  - rewrite gq_unbounded_extend by (left; reflexivity).
    rewrite extend_not_started by (cbn; lra).
    unfold gq_on. rewrite compute_subintervals_nil. cbn [bind]. f_equal. lra.
  - unfold gq_on. rewrite compute_subintervals_nil. cbn [bind]. f_equal. lra.
  - rewrite Rabs_right; lra.
Qed.

(** ** Recurrence tables: what every variant stores *)

Lemma set_row_length (ab : table) (n : nat) (r : R * R) :
  length (set_row ab n r) = length ab.
Proof.
  revert n. induction ab as [|h t IH]; intros n; [reflexivity|].
  destruct n; simpl; [reflexivity|]. rewrite IH. reflexivity.
Qed.

Lemma set_row_Forall (P : R * R -> Prop) (ab : table) (n : nat) (r : R * R) :
  Forall P ab -> P r -> Forall P (set_row ab n r).
Proof.
  revert n. induction ab as [|h t IH]; intros n Hab Hr; [constructor|].
  inversion Hab; subst. destruct n; simpl; constructor; auto.
Qed.

Lemma alpha_set_row_later (ab : table) (n : nat) (r : R * R) :
  n <> 0%nat -> alpha (set_row ab n r) 0 = alpha ab 0.
Proof. intros Hn. destruct ab as [|h t], n; try reflexivity. contradiction. Qed.

(** Row 0 holds [alpha_0 = 0] and no [beta] is negative. *)
Definition table_inv (ab : table) : Prop :=
  alpha ab 0 = 0 /\ Forall (fun r => 0 <= snd r) ab.

Lemma table_inv_beta (ab : table) (n : nat) : table_inv ab -> 0 <= beta ab n.
Proof.
  intros [_ H]. unfold beta.
  destruct (nth_in_or_default n ab (0, 0)) as [Hin | ->]; [|simpl; lra].
  rewrite Forall_forall in H. apply H. exact Hin.
Qed.

Lemma table_inv_set_row (ab : table) (n : nat) (r : R * R) :
  table_inv ab -> n <> 0%nat -> 0 <= snd r -> table_inv (set_row ab n r).
Proof.
  intros [Ha Hb] Hn Hr. split.
  - rewrite alpha_set_row_later by exact Hn. exact Ha.
  - apply set_row_Forall; assumption.
Qed.

Lemma table_inv_zeros2 (N : nat) : table_inv (zeros2 N).
Proof.
  split.
  - destruct N; reflexivity.
  - unfold zeros2. apply Forall_forall. intros r Hr. apply repeat_spec in Hr. subst r.
    simpl. lra.
Qed.

Lemma table_inv_first (ab : table) (b0 : R) :
  table_inv ab -> 0 <= b0 -> table_inv (set_row ab 0 (0, b0)).
Proof.
  intros [Ha Hb] H0. split.
  - destruct ab; [exact Ha | reflexivity].
  - apply set_row_Forall; assumption.
Qed.

Lemma np_sqrt_nonneg (v root : R) : np_sqrt v = Ret root -> 0 <= root.
Proof.
  unfold np_sqrt. destruct (Rltb v 0); [discriminate|].
  intros H. injection H as <-. apply sqrt_pos.
Qed.

Lemma for_each_invariant {I S : Type} (P : S -> Prop) (l : list I)
    (body : I -> S -> outcome S) :
  (forall i s s', In i l -> P s -> body i s = Ret s' -> P s') ->
  forall s s', P s -> for_each l body s = Ret s' -> P s'.
Proof.
  induction l as [|i l IH]; intros Hb s s' Hs H; simpl in H.
  - injection H as <-. exact Hs.
  - destruct (body i s) as [s1| | |] eqn:E; simpl in H; try discriminate.
    apply (IH (fun j t t' Hj => Hb j t t' (or_intror Hj)) s1 s').
    + apply (Hb i s s1); [left; reflexivity | exact Hs | exact E].
    + exact H.
Qed.

(** What a returned table of [rows] rows satisfies. *)
Definition stored (rows : nat) (ab : table) : Prop :=
  length ab = rows /\ alpha ab 0 = 0 /\ forall n, (n < rows)%nat -> 0 <= beta ab n.

Definition table_ok (rows : nat) (ab : table) : Prop :=
  length ab = rows /\ table_inv ab.

Lemma table_ok_stored (rows : nat) (ab : table) : table_ok rows ab -> stored rows ab.
Proof.
  intros [Hl Hi]. split; [exact Hl|]. split; [apply Hi|].
  intros n _. apply table_inv_beta. exact Hi.
Qed.

Lemma table_ok_set_row (rows : nat) (ab : table) (n : nat) (r : R * R) :
  table_ok rows ab -> n <> 0%nat -> 0 <= snd r -> table_ok rows (set_row ab n r).
Proof.
  intros [Hl Hi] Hn Hr. split.
  - rewrite set_row_length. exact Hl.
  - apply table_inv_set_row; assumption.
Qed.

(** Splits a hypothesis [(let* x := m in k) = Ret v] along the result of [m]. *)
Ltac bind_inv H :=
  match type of H with
  | bind ?m _ = Ret _ =>
      let E := fresh "E" in
      destruct m eqn:E; cbn [bind] in H; try discriminate H
  end.

Ltac ok_rows :=
  repeat first
    [ assumption
    | apply table_ok_set_row
    | apply table_inv_beta
    | apply Rmult_le_pos
    | match goal with H : table_ok _ ?ab |- table_inv ?ab => exact (proj2 H) end
    | match goal with H : np_sqrt _ = Ret ?r |- 0 <= ?r => exact (np_sqrt_nonneg _ _ H) end
    | match goal with |- table_inv (set_row _ _ _) => apply table_inv_set_row end
    | match goal with |- (_ + 1)%nat <> 0%nat => lia end
    | match goal with |- 0 <= snd (_, _) => cbn [snd] end ].

Ltac step_ok H :=
  cbv zeta in H; repeat bind_inv H;
  match type of H with Ret _ = Ret _ => injection H as <- end; ok_rows.

Section ModuleLevelTables.

Variable gq : (R -> R) -> R -> R -> nat -> list subinterval -> option bool -> quad_kwargs -> R.
Variable eval_driver : R -> nat -> table -> R.
Variable leading_coefficient_driver : nat -> table -> list R.
Variable gauss_quadrature_driver : table -> Z -> list R * list R.

Lemma init_table_ok (N : nat) (v : R) (ab : table) :
  init_table N v = Ret ab -> table_ok N ab.
Proof.
  unfold init_table. destruct N as [|N]; [discriminate|].
  intros H. bind_inv H.
  assert (Hab : ab = set_row (zeros2 (S N)) 0 (0, a)) by congruence.
  rewrite Hab. split.
  - rewrite set_row_length. apply repeat_length.
  - apply table_inv_first; [apply table_inv_zeros2 | exact (np_sqrt_nonneg _ _ E)].
Qed.

Lemma ttr_bounded_step_ok (rows : nat) (a b : R) (weight : R -> R) (Nquad : nat)
    (subintervals : list subinterval) (n : nat) (ab ab' : table) :
  table_ok rows ab ->
  ttr_bounded_step gq eval_driver a b weight Nquad subintervals n ab = Ret ab' ->
  table_ok rows ab'.
Proof.
  intros Hab H. unfold ttr_bounded_step in H. cbv zeta in H.
  bind_inv H. injection H as <-. ok_rows.
Qed.

Lemma ttr_unbounded_step_ok (rows fuel : nat) (a b : ext) (weight : R -> R) (Nquad : nat)
    (singularity_list : list singularity) (n : nat) (ab ab' : table) :
  table_ok rows ab ->
  ttr_unbounded_step gq eval_driver fuel a b weight Nquad singularity_list n ab = Ret ab' ->
  table_ok rows ab'.
Proof. intros Hab H. unfold ttr_unbounded_step in H. step_ok H. Qed.

Lemma ttr_bounded_composite_step_ok (rows : nat) (a b : R) (weight : R -> R) (Nquad : nat)
    (singularity_list : list singularity) (global_subintervals : list subinterval)
    (n : nat) (ab ab' : table) :
  table_ok rows ab ->
  ttr_bounded_composite_step gq leading_coefficient_driver gauss_quadrature_driver a b weight
    Nquad singularity_list global_subintervals n ab = Ret ab' ->
  table_ok rows ab'.
Proof. intros Hab H. unfold ttr_bounded_composite_step in H. step_ok H. Qed.

Lemma ttr_unbounded_composite_step_ok (rows fuel : nat) (a b : ext) (weight : R -> R)
    (Nquad : nat) (singularity_list : list singularity) (n : nat) (ab ab' : table) :
  table_ok rows ab ->
  ttr_unbounded_composite_step gq leading_coefficient_driver gauss_quadrature_driver fuel a b
    weight Nquad singularity_list n ab = Ret ab' ->
  table_ok rows ab'.
Proof. intros Hab H. unfold ttr_unbounded_composite_step in H. step_ok H. Qed.

Lemma compute_ttr_bounded_ok (a b : R) (weight : R -> R) (N : nat)
    (singularity_list : list singularity) (Nquad : nat) (ab : table) :
  compute_ttr_bounded gq eval_driver a b weight N singularity_list Nquad = Ret ab ->
  table_ok N ab.
Proof.
  unfold compute_ttr_bounded. destruct (negb (Rltb a b)); [discriminate|].
  intros H. repeat bind_inv H.
  refine (for_each_invariant (table_ok N) _ _ _ _ _ (init_table_ok _ _ _ E0) H).
  intros i s s' _. apply ttr_bounded_step_ok.
Qed.

Lemma compute_ttr_unbounded_ok (fuel : nat) (a b : ext) (weight : R -> R) (N : nat)
    (singularity_list : list singularity) (Nquad : nat) (ab : table) :
  compute_ttr_unbounded gq eval_driver fuel a b weight N singularity_list Nquad = Ret ab ->
  table_ok N ab.
Proof.
  unfold compute_ttr_unbounded. destruct (negb (ext_ltb a b)); [discriminate|].
  intros H. repeat bind_inv H.
  refine (for_each_invariant (table_ok N) _ _ _ _ _ (init_table_ok _ _ _ E0) H).
  intros i s s' _. apply ttr_unbounded_step_ok.
Qed.

Lemma compute_ttr_bounded_composite_ok (a b : R) (weight : R -> R) (N : nat)
    (singularity_list : list singularity) (Nquad : nat) (ab : table) :
  compute_ttr_bounded_composite gq leading_coefficient_driver gauss_quadrature_driver a b
    weight N singularity_list Nquad = Ret ab ->
  table_ok N ab.
Proof.
  unfold compute_ttr_bounded_composite. destruct (negb (Rltb a b)); [discriminate|].
  intros H. repeat bind_inv H.
  refine (for_each_invariant (table_ok N) _ _ _ _ _ (init_table_ok _ _ _ E0) H).
  intros i s s' _. apply ttr_bounded_composite_step_ok.
Qed.

Lemma compute_ttr_unbounded_composite_ok (fuel : nat) (a b : ext) (weight : R -> R) (N : nat)
    (singularity_list : list singularity) (Nquad : nat) (ab : table) :
  compute_ttr_unbounded_composite gq leading_coefficient_driver gauss_quadrature_driver fuel
    a b weight N singularity_list Nquad = Ret ab ->
  table_ok N ab.
Proof.
  unfold compute_ttr_unbounded_composite. destruct (negb (ext_ltb a b)); [discriminate|].
  intros H. repeat bind_inv H.
  refine (for_each_invariant (table_ok N) _ _ _ _ _ (init_table_ok _ _ _ E0) H).
  intros i s s' _. apply ttr_unbounded_composite_step_ok.
Qed.

End ModuleLevelTables.

Section ClassTables.

Variable jacobi_recurrence : R -> R -> nat -> table.
Variable linear_modification : table -> R -> table * R.
Variable quadratic_modification : table -> R -> table.
Variable gauss_quadrature_driver : table -> Z -> list R * list R.
Variable array_unique : list ext -> R -> list ext.
Variable fpow : R -> R -> R.
Variable linalg_solve : list (list R) -> list R -> outcome (list R).

Lemma first_row_ok (N : nat) (b0 : R) :
  0 <= b0 ->
  table_ok (N + 1)
    (set_row (set_row (zeros2 (N + 1)) 0 (0, beta (zeros2 (N + 1)) 0)) 0
       (alpha (set_row (zeros2 (N + 1)) 0 (0, beta (zeros2 (N + 1)) 0)) 0, b0)).
Proof.
  intros H0. rewrite Nat.add_1_r. cbn. split.
  - cbn. rewrite repeat_length. reflexivity.
  - split; [reflexivity|]. constructor; [exact H0|].
    apply Forall_forall. intros r Hr. apply repeat_spec in Hr. subst r. simpl. lra.
Qed.

Lemma recurrence_step_ok (rows fuel : nat) (self : Composite.t) (i : nat) (ab ab' : table) :
  i <> 0%nat -> table_ok rows ab ->
  recurrence_step jacobi_recurrence linear_modification quadratic_modification
    gauss_quadrature_driver array_unique fpow fuel self i ab = Ret ab' ->
  table_ok rows ab'.
Proof. intros Hi Hab H. unfold recurrence_step in H. step_ok H. Qed.

Lemma stieltjes_step_ok (rows fuel : nat) (self : Composite.t) (i : nat) (ab ab' : table) :
  i <> 0%nat -> table_ok rows ab ->
  stieltjes_step jacobi_recurrence linear_modification quadratic_modification
    gauss_quadrature_driver array_unique fpow fuel self i ab = Ret ab' ->
  table_ok rows ab'.
Proof. intros Hi Hab H. unfold stieltjes_step in H. step_ok H. Qed.

Lemma aPC_step_ok (rows fuel : nat) (self : Composite.t) (nc : list R) (demar : list ext)
    (i : nat) (ab ab' : table) :
  i <> 0%nat -> table_ok rows ab ->
  aPC_step jacobi_recurrence linear_modification quadratic_modification
    gauss_quadrature_driver fpow linalg_solve fuel self nc demar i ab = Ret ab' ->
  table_ok rows ab'.
Proof. intros Hi Hab H. unfold aPC_step in H. step_ok H. Qed.

Lemma seq_from_1 (N i : nat) : In i (seq 1 N) -> i <> 0%nat.
Proof. intros H. apply in_seq in H. lia. Qed.

Lemma recurrence_ok (fuel : nat) (self : Composite.t) (N : nat) (ab : table) :
  recurrence jacobi_recurrence linear_modification quadratic_modification
    gauss_quadrature_driver array_unique fpow fuel self N = Ret ab ->
  table_ok (N + 1) ab.
Proof.
  unfold recurrence. cbv zeta. intros H. repeat bind_inv H.
  pose proof (first_row_ok N _ (np_sqrt_nonneg _ _ E0)) as H0.
  destruct (N =? 0)%nat.
  - injection H as <-. exact H0.
  - refine (for_each_invariant (table_ok (N + 1)) _ _ _ _ _ H0 H).
    intros i s s' Hi. apply recurrence_step_ok. exact (seq_from_1 _ _ Hi).
Qed.

Lemma stieltjes_ok (fuel : nat) (self : Composite.t) (N : nat) (ab : table) :
  stieltjes jacobi_recurrence linear_modification quadratic_modification
    gauss_quadrature_driver array_unique fpow fuel self N = Ret ab ->
  table_ok (N + 1) ab.
Proof.
  unfold stieltjes. cbv zeta. intros H. repeat bind_inv H.
  pose proof (first_row_ok N _ (np_sqrt_nonneg _ _ E0)) as H0.
  destruct (N =? 0)%nat.
  - injection H as <-. exact H0.
  - refine (for_each_invariant (table_ok (N + 1)) _ _ _ _ _ H0 H).
    intros i s s' Hi. apply stieltjes_step_ok. exact (seq_from_1 _ _ Hi).
Qed.

Lemma eval_nc_nonneg (fuel : nat) (self : Composite.t) (k : nat) (nc : list R) :
  eval_nc jacobi_recurrence linear_modification quadratic_modification
    gauss_quadrature_driver fpow linalg_solve fuel self k = Ret nc ->
  Forall (fun v => 0 <= v) nc.
Proof.
  unfold eval_nc. cbv zeta. intros H. bind_inv H. injection H as <-.
  apply Forall_forall. intros v Hv. apply in_map_iff in Hv. destruct Hv as (u & <- & _).
  apply sqrt_pos.
Qed.

Lemma aPC_ok (fuel : nat) (self : Composite.t) (N : nat) (ab : table) :
  aPC jacobi_recurrence linear_modification quadratic_modification
    gauss_quadrature_driver fpow linalg_solve fuel self N = Ret ab ->
  table_ok (N + 1) ab.
Proof.
  unfold aPC. cbv zeta. intros H. bind_inv H.
  pose proof (eval_nc_nonneg _ _ _ _ E) as Hnc.
  destruct a as [|nc0 nc]; [discriminate|].
  inversion Hnc as [|? ? Hnc0 _]; subst.
  pose proof (first_row_ok N _ Hnc0) as H0.
  destruct (N =? 0)%nat.
  - injection H as <-. exact H0.
  - refine (for_each_invariant (table_ok (N + 1)) _ _ _ _ _ H0 H).
    intros i s s' Hi. apply aPC_step_ok. exact (seq_from_1 _ _ Hi).
Qed.

End ClassTables.

(** ** Recurrence tables: the quantities under the square roots *)

Lemma beta_set_row (ab : table) (n j : nat) (r : R * R) :
  beta (set_row ab n r) j
  = if ((j =? n)%nat && (n <? length ab)%nat)%bool then snd r else beta ab j.
Proof.
  unfold beta. revert n j. induction ab as [|h t IH]; intros [|n] [|j]; simpl; try reflexivity.
  - destruct (j =? n)%nat; reflexivity.
  - rewrite IH. reflexivity.
Qed.

Lemma beta_set_row_other (ab : table) (n j : nat) (r : R * R) :
  j <> n -> beta (set_row ab n r) j = beta ab j.
Proof.
  intros H. rewrite beta_set_row. destruct (Nat.eqb_spec j n); [contradiction|reflexivity].
Qed.

Lemma beta_set_row_same (ab : table) (n : nat) (r : R * R) :
  (n < length ab)%nat -> beta (set_row ab n r) n = snd r.
Proof.
  intros H. rewrite beta_set_row, Nat.eqb_refl.
  destruct (Nat.ltb_spec n (length ab)); [reflexivity|lia].
Qed.

(** The rows below [k] hold a positive [beta]. *)
Definition positive_below (k : nat) (ab : table) : Prop :=
  forall j, (j < k)%nat -> 0 < beta ab j.

Lemma np_sqrt_positive (v root : R) : 0 < v -> np_sqrt v = Ret root -> 0 < root.
Proof.
  intros Hv. unfold np_sqrt. destruct (Rltb v 0); [discriminate|].
  intros H. injection H as <-. apply sqrt_lt_R0. exact Hv.
Qed.

Lemma first_row_positive (rows : nat) (b0 : R) :
  (0 < rows)%nat -> 0 < b0 ->
  length (set_row (zeros2 rows) 0 (0, b0)) = rows
  /\ positive_below 1 (set_row (zeros2 rows) 0 (0, b0)).
Proof.
  intros Hr Hb. split.
  - rewrite set_row_length. apply repeat_length.
  - intros j Hj. assert (j = 0%nat) as -> by lia.
    rewrite beta_set_row_same; [exact Hb|]. unfold zeros2. rewrite repeat_length. exact Hr.
Qed.

Section ModuleLevelRadicands.

Variable gq : (R -> R) -> R -> R -> nat -> list subinterval -> option bool -> quad_kwargs -> R.
Variable eval_driver : R -> nat -> table -> R.
Variable leading_coefficient_driver : nat -> table -> list R.
Variable gauss_quadrature_driver : table -> Z -> list R * list R.

(** One pass of the loop of [compute_ttr_bounded] up to its last line: the
    table as that line finds it, and the quantity it passes to [np.sqrt]. *)
Definition ttr_bounded_radicand (a b : R) (weight : R -> R) (Nquad : nat)
    (subintervals : list subinterval) (n : nat) (ab : table) : outcome (table * R) :=
  let ab := set_row ab (n + 1) (alpha ab n, beta ab n) in
  let integrand := fun x => weight x * eval_driver x n ab * eval_driver x (n + 1) ab in
  let ab := set_row ab (n + 1)
              (alpha ab (n + 1)
               + beta ab n * gq integrand a b (n + 1 + Nquad) subintervals None no_kwargs,
               beta ab (n + 1)) in
  let integrand := fun x => weight x * (eval_driver x (n + 1) ab) ^ 2 in
  Ret (ab, gq integrand a b (n + 1 + Nquad) subintervals None no_kwargs).

Lemma ttr_bounded_step_radicand (a b : R) (weight : R -> R) (Nquad : nat)
    (subintervals : list subinterval) (n : nat) (ab : table) :
  ttr_bounded_step gq eval_driver a b weight Nquad subintervals n ab
  = let* p := ttr_bounded_radicand a b weight Nquad subintervals n ab in
    let* root := np_sqrt (snd p) in
    Ret (set_row (fst p) (n + 1) (alpha (fst p) (n + 1), beta (fst p) (n + 1) * root)).
Proof. reflexivity. Qed.

Definition ttr_unbounded_radicand (fuel : nat) (a b : ext) (weight : R -> R) (Nquad : nat)
    (singularity_list : list singularity) (n : nat) (ab : table) : outcome (table * R) :=
  let ab := set_row ab (n + 1) (alpha ab n, beta ab n) in
  let integrand := fun x => weight x * eval_driver x n ab * eval_driver x (n + 1) ab in
  let* v := gq_unbounded_default gq fuel integrand a b (n + 1 + Nquad) singularity_list
              no_kwargs in
  let ab := set_row ab (n + 1) (alpha ab (n + 1) + beta ab n * v, beta ab (n + 1)) in
  let integrand := fun x => weight x * (eval_driver x (n + 1) ab) ^ 2 in
  let* v := gq_unbounded_default gq fuel integrand a b (n + 1 + Nquad) singularity_list
              no_kwargs in
  Ret (ab, v).

Lemma ttr_unbounded_step_radicand (fuel : nat) (a b : ext) (weight : R -> R) (Nquad : nat)
    (singularity_list : list singularity) (n : nat) (ab : table) :
  ttr_unbounded_step gq eval_driver fuel a b weight Nquad singularity_list n ab
  = let* p := ttr_unbounded_radicand fuel a b weight Nquad singularity_list n ab in
    let* root := np_sqrt (snd p) in
    Ret (set_row (fst p) (n + 1) (alpha (fst p) (n + 1), beta (fst p) (n + 1) * root)).
Proof.
  unfold ttr_unbounded_step, ttr_unbounded_radicand. cbv zeta.
  destruct (gq_unbounded_default gq fuel _ a b (n + 1 + Nquad) singularity_list no_kwargs);
    cbn [bind]; try reflexivity.
  destruct (gq_unbounded_default gq fuel _ a b (n + 1 + Nquad) singularity_list no_kwargs);
    cbn [bind]; reflexivity.
Qed.

Definition ttr_bounded_composite_radicand (a b : R) (weight : R -> R) (Nquad : nat)
    (singularity_list : list singularity) (global_subintervals : list subinterval)
    (n : nat) (ab : table) : outcome (table * R) :=
  let integrand := weight in
  let ab := set_row ab (n + 1) (alpha ab n, beta ab n) in
  let pn_zeros := fst (gauss_quadrature_driver ab (Z.of_nat n)) in
  let pn1_zeros := fst (gauss_quadrature_driver ab (Z.of_nat (n + 1))) in
  let roots := pn_zeros ++ pn1_zeros in
  let breaks := add_breaks singularity_list roots in
  let* subintervals := compute_subintervals a b breaks in
  let qlc := last_two_prod (leading_coefficient_driver (n + 2) ab) in
  let ab := set_row ab (n + 1)
              (alpha ab (n + 1)
               + beta ab n * gq integrand a b (n + 1 + Nquad) subintervals None
                               {| kw_roots := Some roots; kw_quadroots := None;
                                  kw_leading_coefficient := Some qlc |},
               beta ab (n + 1)) in
  let pn1_zeros := fst (gauss_quadrature_driver ab (Z.of_nat (n + 1))) in
  let* qlc := last_squared (leading_coefficient_driver (n + 2) ab) in
  Ret (ab, gq integrand a b (n + 1 + Nquad) global_subintervals None
             {| kw_roots := None; kw_quadroots := Some pn1_zeros;
                kw_leading_coefficient := Some qlc |}).

Lemma ttr_bounded_composite_step_radicand (a b : R) (weight : R -> R) (Nquad : nat)
    (singularity_list : list singularity) (global_subintervals : list subinterval)
    (n : nat) (ab : table) :
  ttr_bounded_composite_step gq leading_coefficient_driver gauss_quadrature_driver a b weight
    Nquad singularity_list global_subintervals n ab
  = let* p := ttr_bounded_composite_radicand a b weight Nquad singularity_list
                global_subintervals n ab in
    let* root := np_sqrt (snd p) in
    Ret (set_row (fst p) (n + 1) (alpha (fst p) (n + 1), beta (fst p) (n + 1) * root)).
Proof.
  unfold ttr_bounded_composite_step, ttr_bounded_composite_radicand. cbv zeta.
  destruct (compute_subintervals a b _); cbn [bind]; try reflexivity.
  destruct (last_squared _); cbn [bind]; reflexivity.
Qed.

Definition ttr_unbounded_composite_radicand (fuel : nat) (a b : ext) (weight : R -> R)
    (Nquad : nat) (singularity_list : list singularity) (n : nat) (ab : table)
  : outcome (table * R) :=
  let integrand := weight in
  let ab := set_row ab (n + 1) (alpha ab n, beta ab n) in
  let pn_zeros := fst (gauss_quadrature_driver ab (Z.of_nat n)) in
  let pn1_zeros := fst (gauss_quadrature_driver ab (Z.of_nat (n + 1))) in
  let roots := pn_zeros ++ pn1_zeros in
  let breaks := add_breaks singularity_list roots in
  let qlc := last_two_prod (leading_coefficient_driver (n + 2) ab) in
  let* v := gq_unbounded_default gq fuel integrand a b (n + 1 + Nquad) breaks
              {| kw_roots := Some roots; kw_quadroots := None;
                 kw_leading_coefficient := Some qlc |} in
  let ab := set_row ab (n + 1) (alpha ab (n + 1) + beta ab n * v, beta ab (n + 1)) in
  let pn1_zeros := fst (gauss_quadrature_driver ab (Z.of_nat (n + 1))) in
  let* qlc := last_squared (leading_coefficient_driver (n + 2) ab) in
  let* v := gq_unbounded_default gq fuel integrand a b (n + 1 + Nquad) singularity_list
              {| kw_roots := None; kw_quadroots := Some pn1_zeros;
                 kw_leading_coefficient := Some qlc |} in
  Ret (ab, v).

Lemma ttr_unbounded_composite_step_radicand (fuel : nat) (a b : ext) (weight : R -> R)
    (Nquad : nat) (singularity_list : list singularity) (n : nat) (ab : table) :
  ttr_unbounded_composite_step gq leading_coefficient_driver gauss_quadrature_driver fuel a b
    weight Nquad singularity_list n ab
  = let* p := ttr_unbounded_composite_radicand fuel a b weight Nquad singularity_list n ab in
    let* root := np_sqrt (snd p) in
    Ret (set_row (fst p) (n + 1) (alpha (fst p) (n + 1), beta (fst p) (n + 1) * root)).
Proof.
  unfold ttr_unbounded_composite_step, ttr_unbounded_composite_radicand. cbv zeta.
  destruct (gq_unbounded_default gq fuel weight a b (n + 1 + Nquad) _ _);
    cbn [bind]; try reflexivity.
  destruct (last_squared _); cbn [bind]; try reflexivity.
  destruct (gq_unbounded_default gq fuel weight a b (n + 1 + Nquad) _ _);
    cbn [bind]; reflexivity.
Qed.

End ModuleLevelRadicands.


(** ** Loops that fill the rows of a table in order *)

Lemma nth_set_row_other (ab : table) (n j : nat) (r : R * R) :
  j <> n -> nth j (set_row ab n r) (0, 0) = nth j ab (0, 0).
Proof.
  revert n j. induction ab as [|h t IH]; intros [|n] [|j] H; simpl; try reflexivity.
  - contradiction.
  - apply IH. lia.
Qed.

(** The table such a loop holds when it enters the pass that writes row [k],
    read off the table [ab] it returns in the end: the rows below [k] are
    those of [ab], the other rows are still [np.zeros]. *)
Definition entering (rows k : nat) (ab : table) : table :=
  firstn k ab ++ zeros2 (rows - k).

(** What a pass that writes row [k] leaves alone. *)
Definition writes_row (k : nat) (t t' : table) : Prop :=
  length t' = length t /\ forall j, j <> k -> nth j t' (0, 0) = nth j t (0, 0).

Lemma writes_row_beta (k : nat) (t t' : table) (j : nat) :
  writes_row k t t' -> j <> k -> beta t' j = beta t j.
Proof. intros [_ H] Hj. unfold beta. rewrite H by exact Hj. reflexivity. Qed.

Section FillLoop.

Variable rows off lo : nat.
Variable body : nat -> table -> outcome table.

(** [Q i t]: the quantity that pass [i], entered with the table [t], passes
    to [np.sqrt] is positive. *)
Variable Q : nat -> table -> Prop.

Hypothesis body_writes : forall i t t',
  body i t = Ret t' -> length t = rows -> (lo <= i)%nat -> (i + off < rows)%nat ->
  writes_row (i + off) t t'
  /\ (positive_below (i + off) t -> Q i t -> 0 < beta t' (i + off)).

Lemma fill_loop_frame : forall (len start : nat) (t ab : table),
  for_each (seq start len) body t = Ret ab ->
  length t = rows -> (lo <= start)%nat -> (start + off + len <= rows)%nat ->
  length ab = rows /\ forall j, (j < start + off)%nat -> nth j ab (0, 0) = nth j t (0, 0).
Proof.
  induction len as [|len IH]; intros start t ab H Hl Hlo Hle; cbn [seq for_each] in H.
  - injection H as <-. split; [exact Hl|reflexivity].
  - destruct (body start t) as [t1| | |] eqn:E; cbn [bind] in H; try discriminate.
    destruct (body_writes start t t1 E Hl Hlo ltac:(lia)) as [[Hl1 Hfr] _].
    destruct (IH (S start) t1 ab H ltac:(lia) ltac:(lia) ltac:(lia)) as [Hlab Hrows].
    split; [exact Hlab|]. intros j Hj. rewrite Hrows by lia. apply Hfr. lia.
Qed.

Lemma entering_eq (k : nat) (t ab : table) :
  length t = rows -> length ab = rows -> (k <= rows)%nat ->
  (forall j, (j < k)%nat -> nth j ab (0, 0) = nth j t (0, 0)) ->
  (forall j, (k <= j)%nat -> nth j t (0, 0) = (0, 0)) ->
  t = entering rows k ab.
Proof.
  intros Hl Hlab Hk Hlow Hhigh. unfold entering, zeros2.
  apply (nth_ext _ _ (0, 0) (0, 0)).
  - rewrite length_app, firstn_length_le, repeat_length by lia. lia.
  - intros j Hj. destruct (Nat.lt_ge_cases j k) as [Hlt|Hge].
    + rewrite app_nth1 by (rewrite firstn_length_le; lia).
      rewrite nth_firstn. destruct (Nat.ltb_spec j k); [|lia]. symmetry. apply Hlow. exact Hlt.
    + rewrite app_nth2 by (rewrite firstn_length_le; lia).
      rewrite firstn_length_le by lia. rewrite nth_repeat. apply Hhigh. exact Hge.
Qed.

Lemma fill_loop_positive : forall (len start : nat) (t ab : table),
  for_each (seq start len) body t = Ret ab ->
  length t = rows -> (lo <= start)%nat -> (start + off + len <= rows)%nat ->
  (forall j, (start + off <= j)%nat -> nth j t (0, 0) = (0, 0)) ->
  positive_below (start + off) t ->
  (forall i, (start <= i < start + len)%nat -> Q i (entering rows (i + off) ab)) ->
  positive_below (start + off + len) ab.
Proof.
  induction len as [|len IH]; intros start t ab H Hl Hlo Hle Hzero Hpos HQ.
  - cbn [seq for_each] in H. injection H as <-. rewrite Nat.add_0_r. exact Hpos.
  - pose proof H as Hrun. cbn [seq for_each] in H.
    destruct (body start t) as [t1| | |] eqn:E; cbn [bind] in H; try discriminate.
    destruct (body_writes start t t1 E Hl Hlo ltac:(lia)) as [Hw Hb].
    destruct (fill_loop_frame _ _ _ _ Hrun Hl Hlo Hle) as [Hlab Hrows].
    assert (Ht : t = entering rows (start + off) ab).
    { apply entering_eq; try assumption; try lia. }
    assert (Hnew : 0 < beta t1 (start + off)).
    { apply Hb; [exact Hpos|]. rewrite Ht. apply HQ. lia. }
    replace (start + off + S len)%nat with (S start + off + len)%nat by lia.
    apply (IH (S start) t1 ab H).
    + destruct Hw as [Hl1 _]. lia.
    + lia.
    + lia.
    + intros j Hj. destruct Hw as [_ Hfr]. rewrite Hfr by lia. apply Hzero. lia.
    + intros j Hj. destruct (Nat.eq_dec j (start + off)) as [->|Hne]; [exact Hnew|].
      rewrite (writes_row_beta _ _ _ _ Hw Hne). apply Hpos. lia.
    + intros i Hi. apply HQ. lia.
Qed.

End FillLoop.

Lemma first_row_zeros (rows : nat) (r : R * R) (j : nat) :
  (1 <= j)%nat -> nth j (set_row (zeros2 rows) 0 r) (0, 0) = (0, 0).
Proof.
  intros Hj. rewrite nth_set_row_other by lia. unfold zeros2. apply nth_repeat.
Qed.

(** The last line of a pass: [ab[k,1] = m * np.sqrt(v)] on the table [t1]
    that the pass has made of [t], with other rows as in [t]. *)
Lemma sqrt_line_writes (k : nat) (t t1 t' : table) (a m v : R) :
  writes_row k t t1 -> (k < length t)%nat ->
  (let* root := np_sqrt v in Ret (set_row t1 k (a, m * root))) = Ret t' ->
  writes_row k t t' /\ (0 < m -> 0 < v -> 0 < beta t' k).
Proof.
  intros [Hl Hfr] Hk H.
  destruct (np_sqrt v) as [root| | |] eqn:E; cbn [bind] in H; try discriminate.
  injection H as <-. split; [split|].
  - rewrite set_row_length. exact Hl.
  - intros j Hj. rewrite nth_set_row_other by exact Hj. apply Hfr. exact Hj.
  - intros Hm Hv. rewrite beta_set_row_same by lia. cbn [snd].
    apply Rmult_lt_0_compat; [exact Hm|exact (np_sqrt_positive _ _ Hv E)].
Qed.

(** The first two statements of a pass of the module-level loops,
    [ab[n+1,0], ab[n+1,1] = ab[n,0], ab[n,1]] and [ab[n+1,0] += ...], write
    row [n+1] and leave [ab[n,1]] in it. *)
Lemma guess_writes (t : table) (n : nat) (x : R) :
  let t2 := set_row (set_row t (n + 1) (alpha t n, beta t n)) (n + 1)
              (x, beta (set_row t (n + 1) (alpha t n, beta t n)) (n + 1)) in
  writes_row (n + 1) t t2 /\ ((n + 1 < length t)%nat -> beta t2 (n + 1) = beta t n).
Proof.
  cbv zeta. split; [split|].
  - rewrite !set_row_length. reflexivity.
  - intros j Hj. rewrite !nth_set_row_other by exact Hj. reflexivity.
  - intros Hn. rewrite beta_set_row_same by (rewrite set_row_length; exact Hn).
    cbn [snd]. rewrite beta_set_row_same by exact Hn. reflexivity.
Qed.

Lemma module_pass_writes (N n : nat) (t t' : table) (p : table * R) :
  length t = N -> (n + 1 < N)%nat ->
  writes_row (n + 1) t (fst p) ->
  ((n + 1 < length t)%nat -> beta (fst p) (n + 1) = beta t n) ->
  (let* root := np_sqrt (snd p) in
   Ret (set_row (fst p) (n + 1) (alpha (fst p) (n + 1), beta (fst p) (n + 1) * root)))
  = Ret t' ->
  writes_row (n + 1) t t'
  /\ (positive_below (n + 1) t -> 0 < snd p -> 0 < beta t' (n + 1)).
Proof.
  intros Hl Hn Hw Hsame H.
  destruct (sqrt_line_writes (n + 1) t (fst p) t' _ _ _ Hw ltac:(lia) H) as [Hw' Hb].
  split; [exact Hw'|]. intros Hpos Hv. apply Hb; [|exact Hv].
  rewrite Hsame by lia. apply Hpos. lia.
Qed.

Lemma init_table_first (N : nat) (v : R) (ab : table) :
  init_table N v = Ret ab ->
  (0 < N)%nat /\ length ab = N
  /\ (forall j, (1 <= j)%nat -> nth j ab (0, 0) = (0, 0))
  /\ (0 < v -> positive_below 1 ab).
Proof.
  unfold init_table. destruct N as [|N]; [discriminate|].
  intros H. destruct (np_sqrt v) as [b0| | |] eqn:E; cbn [bind] in H; try discriminate.
  injection H as <-. split; [lia|]. split; [|split].
  - cbn [length]. rewrite repeat_length. reflexivity.
  - intros j Hj. apply (first_row_zeros (S N)). exact Hj.
  - intros Hv. exact (proj2 (first_row_positive (S N) b0 ltac:(lia)
                               (np_sqrt_positive _ _ Hv E))).
Qed.

Section ModuleLevelPositive.

Variable gq : (R -> R) -> R -> R -> nat -> list subinterval -> option bool -> quad_kwargs -> R.
Variable eval_driver : R -> nat -> table -> R.
Variable leading_coefficient_driver : nat -> table -> list R.
Variable gauss_quadrature_driver : table -> Z -> list R * list R.

(** Every quantity that the run of [compute_ttr_bounded] which returned [ab]
    passed to [np.sqrt] is positive: the estimate for [beta_0], and in each
    pass [n] the estimate for [beta_(n+1)]. *)
Definition ttr_bounded_positive (a b : R) (weight : R -> R) (N : nat)
    (singularity_list : list singularity) (Nquad : nat) (ab : table) : Prop :=
  forall subintervals, compute_subintervals a b singularity_list = Ret subintervals ->
    0 < gq weight a b Nquad subintervals None no_kwargs
    /\ forall n p, (n + 1 < N)%nat ->
         ttr_bounded_radicand gq eval_driver a b weight Nquad subintervals n
           (entering N (n + 1) ab) = Ret p ->
         0 < snd p.

Definition ttr_unbounded_positive (fuel : nat) (a b : ext) (weight : R -> R) (N : nat)
    (singularity_list : list singularity) (Nquad : nat) (ab : table) : Prop :=
  (forall v, gq_unbounded_default gq fuel weight a b Nquad singularity_list no_kwargs = Ret v ->
             0 < v)
  /\ forall n p, (n + 1 < N)%nat ->
       ttr_unbounded_radicand gq eval_driver fuel a b weight Nquad singularity_list n
         (entering N (n + 1) ab) = Ret p ->
       0 < snd p.

Definition ttr_bounded_composite_positive (a b : R) (weight : R -> R) (N : nat)
    (singularity_list : list singularity) (Nquad : nat) (ab : table) : Prop :=
  forall global_subintervals,
    compute_subintervals a b singularity_list = Ret global_subintervals ->
    0 < gq weight a b Nquad global_subintervals None no_kwargs
    /\ forall n p, (n + 1 < N)%nat ->
         ttr_bounded_composite_radicand gq leading_coefficient_driver gauss_quadrature_driver
           a b weight Nquad singularity_list global_subintervals n (entering N (n + 1) ab)
         = Ret p ->
         0 < snd p.

Definition ttr_unbounded_composite_positive (fuel : nat) (a b : ext) (weight : R -> R)
    (N : nat) (singularity_list : list singularity) (Nquad : nat) (ab : table) : Prop :=
  (forall v, gq_unbounded_default gq fuel weight a b Nquad singularity_list no_kwargs = Ret v ->
             0 < v)
  /\ forall n p, (n + 1 < N)%nat ->
       ttr_unbounded_composite_radicand gq leading_coefficient_driver gauss_quadrature_driver
         fuel a b weight Nquad singularity_list n (entering N (n + 1) ab) = Ret p ->
       0 < snd p.

(** The loop [for n in range(0, N-1)] from the table of [init_table]. *)
Lemma module_loop_positive (N : nat) (v0 : R) (step : nat -> table -> outcome table)
    (rad : nat -> table -> outcome (table * R)) (t0 ab : table) :
  (forall n t, step n t
               = let* p := rad n t in
                 let* root := np_sqrt (snd p) in
                 Ret (set_row (fst p) (n + 1)
                        (alpha (fst p) (n + 1), beta (fst p) (n + 1) * root))) ->
  (forall n t p, rad n t = Ret p ->
                 writes_row (n + 1) t (fst p)
                 /\ ((n + 1 < length t)%nat -> beta (fst p) (n + 1) = beta t n)) ->
  init_table N v0 = Ret t0 -> 0 < v0 ->
  (forall n p, (n + 1 < N)%nat -> rad n (entering N (n + 1) ab) = Ret p -> 0 < snd p) ->
  for_each (seq 0 (N - 1)) step t0 = Ret ab ->
  positive_below N ab.
Proof.
  intros Hlink Hrad Hinit Hv0 Hpos H.
  destruct (init_table_first _ _ _ Hinit) as (HN & Hl0 & Hz0 & Hp0).
  pose proof (fill_loop_positive N 1 0 step
                (fun n t => forall p, rad n t = Ret p -> 0 < snd p)) as Hfill.
  cbn beta in Hfill.
  replace N with (0 + 1 + (N - 1))%nat at 1 by lia.
  refine (Hfill _ (N - 1)%nat 0%nat t0 ab H Hl0 ltac:(lia) ltac:(lia) _ _ _).
  - intros n t t' Hs Hl _ Hn. rewrite Hlink in Hs.
    destruct (rad n t) as [p| | |] eqn:Er; cbn [bind] in Hs; try discriminate.
    destruct (Hrad n t p Er) as [Hw Hsame].
    destruct (module_pass_writes N n t t' p Hl Hn Hw Hsame Hs) as [Hw' Hb].
    split; [exact Hw'|]. intros Hp HQ. apply Hb; [exact Hp|]. apply HQ. reflexivity.
  - intros j Hj. apply Hz0. lia.
  - exact (Hp0 Hv0).
  - intros i Hi p. apply Hpos. lia.
Qed.

Lemma compute_ttr_bounded_positive (a b : R) (weight : R -> R) (N : nat)
    (singularity_list : list singularity) (Nquad : nat) (ab : table) :
  ttr_bounded_positive a b weight N singularity_list Nquad ab ->
  compute_ttr_bounded gq eval_driver a b weight N singularity_list Nquad = Ret ab ->
  positive_below N ab.
Proof.
  intros Hpos. unfold compute_ttr_bounded. destruct (negb (Rltb a b)); [discriminate|].
  intros H. repeat bind_inv H. destruct (Hpos _ E) as [H0 Hn].
  refine (module_loop_positive N _ _
            (ttr_bounded_radicand gq eval_driver a b weight Nquad a0) _ _ _ _ E0 H0 Hn H).
  - intros n t. apply ttr_bounded_step_radicand.
  - intros n t p Er. unfold ttr_bounded_radicand in Er. cbv zeta in Er.
    injection Er as <-. cbn [fst]. apply guess_writes.
Qed.

Lemma compute_ttr_unbounded_positive (fuel : nat) (a b : ext) (weight : R -> R) (N : nat)
    (singularity_list : list singularity) (Nquad : nat) (ab : table) :
  ttr_unbounded_positive fuel a b weight N singularity_list Nquad ab ->
  compute_ttr_unbounded gq eval_driver fuel a b weight N singularity_list Nquad = Ret ab ->
  positive_below N ab.
Proof.
  intros [H0 Hn]. unfold compute_ttr_unbounded. destruct (negb (ext_ltb a b)); [discriminate|].
  intros H. repeat bind_inv H.
  refine (module_loop_positive N _ _
            (ttr_unbounded_radicand gq eval_driver fuel a b weight Nquad singularity_list)
            _ _ _ _ E0 (H0 _ eq_refl) Hn H).
  - intros n t. apply ttr_unbounded_step_radicand.
  - intros n t p Er. unfold ttr_unbounded_radicand in Er. cbv zeta in Er.
    repeat bind_inv Er. injection Er as <-. cbn [fst]. apply guess_writes.
Qed.

Lemma compute_ttr_bounded_composite_positive (a b : R) (weight : R -> R) (N : nat)
    (singularity_list : list singularity) (Nquad : nat) (ab : table) :
  ttr_bounded_composite_positive a b weight N singularity_list Nquad ab ->
  compute_ttr_bounded_composite gq leading_coefficient_driver gauss_quadrature_driver a b
    weight N singularity_list Nquad = Ret ab ->
  positive_below N ab.
Proof.
  intros Hpos. unfold compute_ttr_bounded_composite.
  destruct (negb (Rltb a b)); [discriminate|].
  intros H. repeat bind_inv H. destruct (Hpos _ E) as [H0 Hn].
  refine (module_loop_positive N _ _
            (ttr_bounded_composite_radicand gq leading_coefficient_driver
               gauss_quadrature_driver a b weight Nquad singularity_list a0)
            _ _ _ _ E0 H0 Hn H).
  - intros n t. apply ttr_bounded_composite_step_radicand.
  - intros n t p Er. unfold ttr_bounded_composite_radicand in Er. cbv zeta in Er.
    repeat bind_inv Er. injection Er as <-. cbn [fst]. apply guess_writes.
Qed.

Lemma compute_ttr_unbounded_composite_positive (fuel : nat) (a b : ext) (weight : R -> R)
    (N : nat) (singularity_list : list singularity) (Nquad : nat) (ab : table) :
  ttr_unbounded_composite_positive fuel a b weight N singularity_list Nquad ab ->
  compute_ttr_unbounded_composite gq leading_coefficient_driver gauss_quadrature_driver fuel
    a b weight N singularity_list Nquad = Ret ab ->
  positive_below N ab.
Proof.
  intros [H0 Hn]. unfold compute_ttr_unbounded_composite.
  destruct (negb (ext_ltb a b)); [discriminate|].
  intros H. repeat bind_inv H.
  refine (module_loop_positive N _ _
            (ttr_unbounded_composite_radicand gq leading_coefficient_driver
               gauss_quadrature_driver fuel a b weight Nquad singularity_list)
            _ _ _ _ E0 (H0 _ eq_refl) Hn H).
  - intros n t. apply ttr_unbounded_composite_step_radicand.
  - intros n t p Er. unfold ttr_unbounded_composite_radicand in Er. cbv zeta in Er.
    repeat bind_inv Er. injection Er as <-. cbn [fst]. apply guess_writes.
Qed.

End ModuleLevelPositive.
Section ClassRadicands.

Variable jacobi_recurrence : R -> R -> nat -> table.
Variable linear_modification : table -> R -> table * R.
Variable quadratic_modification : table -> R -> table.
Variable gauss_quadrature_driver : table -> Z -> list R * list R.
Variable array_unique : list ext -> R -> list ext.
Variable fpow : R -> R -> R.
Variable linalg_solve : list (list R) -> list R -> outcome (list R).

Local Notation sum_extend' :=
  (sum_extend jacobi_recurrence linear_modification quadratic_modification
     gauss_quadrature_driver fpow).
Local Notation sum_disc_extend' :=
  (sum_disc_extend jacobi_recurrence gauss_quadrature_driver fpow).
Local Notation eval_disc_p' :=
  (eval_disc_p jacobi_recurrence linear_modification quadratic_modification
     gauss_quadrature_driver fpow linalg_solve).

(** One pass of the loop of [recurrence] up to its last line: the table as
    that line finds it, and the sum [s] it passes to [np.sqrt]. *)
Definition recurrence_radicand (fuel : nat) (self : Composite.t) (i : nat) (ab : table)
  : outcome (table * R) :=
  let ab := set_row ab i (alpha ab (i - 1), beta ab (i - 1)) in
  let r_p :=
    if (i =? 1)%nat then [] else fst (gauss_quadrature_driver (firstn i ab) (Z.of_nat i - 1)) in
  let r_ptilde :=
    if (i =? 1)%nat then [alpha ab 0]
    else fst (gauss_quadrature_driver (firstn (i + 1) ab) (Z.of_nat i)) in
  let r_pptilde := r_p ++ r_ptilde in
  let demar := find_demar self r_pptilde in
  let demar := array_unique demar 1e-12 in
  let leadingcoeff_p := 1 / np_prod (betas ab i) in
  let leadingcoeff_ptilde := 1 / (beta ab (i - 1) * np_prod (betas ab i)) in
  let c := leadingcoeff_p * leadingcoeff_ptilde in
  let* s := sum_extend' fuel self demar r_pptilde c true [] in
  let ab := set_row ab i (alpha ab (i - 1) + beta ab (i - 1) * s, beta ab i) in
  let r_phat :=
    if (i =? 1)%nat then [alpha ab 1]
    else fst (gauss_quadrature_driver (firstn (i + 1) ab) (Z.of_nat i)) in
  let leadingcoeff_phat := 1 / (beta ab (i - 1) * np_prod (betas ab i)) in
  let c := leadingcoeff_phat ^ 2 in
  let* s := sum_extend' fuel self demar r_phat c false [] in
  Ret (ab, s).

Lemma recurrence_step_radicand (fuel : nat) (self : Composite.t) (i : nat) (ab : table) :
  recurrence_step jacobi_recurrence linear_modification quadratic_modification
    gauss_quadrature_driver array_unique fpow fuel self i ab
  = let* p := recurrence_radicand fuel self i ab in
    let* root := np_sqrt (snd p) in
    Ret (set_row (fst p) i (alpha (fst p) i, beta (fst p) (i - 1) * root)).
Proof.
  unfold recurrence_step, recurrence_radicand. cbv zeta.
  destruct (sum_extend' fuel self _ _ _ true []); cbn [bind]; try reflexivity.
  destruct (sum_extend' fuel self _ _ _ false []); cbn [bind]; reflexivity.
Qed.

(** One pass of the loop of [stieltjes] up to its last line: the table as
    that line finds it, and the difference [s_1 - s_2] it passes to
    [np.sqrt]. *)
Definition stieltjes_radicand (fuel : nat) (self : Composite.t) (i : nat) (ab : table)
  : outcome (table * R) :=
  let r_p :=
    if (i =? 1)%nat then [] else fst (gauss_quadrature_driver (firstn i ab) (Z.of_nat i - 1)) in
  let addzeros := [0] in
  let demar := find_demar self (r_p ++ addzeros) in
  let demar := array_unique demar 1e-12 in
  let leadingcoeff_p := 1 / np_prod (betas ab i) in
  let c := leadingcoeff_p in
  let* s := sum_extend' fuel self demar r_p (c ^ 2) false addzeros in
  let ab := set_row ab i (s, beta ab i) in
  let addzeros := [0; alpha ab i] in
  let demar := find_demar self (r_p ++ addzeros) in
  let demar := array_unique demar 1e-12 in
  let* s_1 := sum_extend' fuel self demar r_p (c ^ 2) false addzeros in
  let* s_2 :=
    if (i =? 1)%nat then Ret 0
    else
      let r_pminus :=
        if (i =? 2)%nat then []
        else fst (gauss_quadrature_driver (firstn i ab) (Z.of_nat i - 2)) in
      let r_ppminus := r_p ++ r_pminus in
      let addzeros := [0] in
      let demar := find_demar self (r_ppminus ++ addzeros) in
      let demar := array_unique demar 1e-12 in
      let leadingcoeff_pminus := 1 / np_prod (betas ab (i - 1)) in
      let c := beta ab (i - 1) * leadingcoeff_p * leadingcoeff_pminus in
      sum_extend' fuel self demar r_ppminus c true addzeros in
  Ret (ab, s_1 - s_2).

Lemma stieltjes_step_radicand (fuel : nat) (self : Composite.t) (i : nat) (ab : table) :
  stieltjes_step jacobi_recurrence linear_modification quadratic_modification
    gauss_quadrature_driver array_unique fpow fuel self i ab
  = let* p := stieltjes_radicand fuel self i ab in
    let* root := np_sqrt (snd p) in
    Ret (set_row (fst p) i (alpha (fst p) i, root)).
Proof.
  unfold stieltjes_step, stieltjes_radicand. cbv zeta.
  destruct (sum_extend' fuel self _ _ _ false [0]); cbn [bind]; try reflexivity.
  destruct (sum_extend' fuel self _ _ _ false [0; _]); cbn [bind]; try reflexivity.
  destruct (i =? 1)%nat; cbn [bind]; [reflexivity|].
  destruct (sum_extend' fuel self _ _ _ true [0]); cbn [bind]; reflexivity.
Qed.

(** One pass of the loop of [aPC] up to its last line: the table as that
    line finds it, and the difference [s_1 - s_2] it passes to [np.sqrt]. *)
Definition aPC_radicand (fuel : nat) (self : Composite.t) (nc : list R) (demar : list ext)
    (i : nat) (ab : table) : outcome (table * R) :=
  let nc_at := fun j => nth j nc 0 in
  let f := fun x =>
    let* p := eval_disc_p' fuel self x (i - 1) in
    Ret (map (fun q => fst q * (snd q / nc_at (i - 1)%nat) ^ 2) (combine x p)) in
  let* s := sum_disc_extend' fuel self demar f in
  let ab := set_row ab i (s, beta ab i) in
  let f := fun x =>
    let* p := eval_disc_p' fuel self x (i - 1) in
    Ret (map (fun q => fst q * (fst q - alpha ab i) * (snd q / nc_at (i - 1)%nat) ^ 2)
           (combine x p)) in
  let* s_1 := sum_disc_extend' fuel self demar f in
  let* s_2 :=
    if (i =? 1)%nat then Ret 0
    else
      let f := fun x =>
        let* p := eval_disc_p' fuel self x (i - 1) in
        let* pm := eval_disc_p' fuel self x (i - 2) in
        Ret (map (fun q => beta ab (i - 1) * fst q * (fst (snd q) / nc_at (i - 1)%nat)
                           * (snd (snd q) / nc_at (i - 2)%nat))
               (combine x (combine p pm))) in
      sum_disc_extend' fuel self demar f in
  Ret (ab, s_1 - s_2).

Lemma aPC_step_radicand (fuel : nat) (self : Composite.t) (nc : list R) (demar : list ext)
    (i : nat) (ab : table) :
  aPC_step jacobi_recurrence linear_modification quadratic_modification
    gauss_quadrature_driver fpow linalg_solve fuel self nc demar i ab
  = let* p := aPC_radicand fuel self nc demar i ab in
    let* root := np_sqrt (snd p) in
    Ret (set_row (fst p) i (alpha (fst p) i, root)).
Proof.
  unfold aPC_step, aPC_radicand. cbv zeta.
  destruct (sum_disc_extend' fuel self demar _); cbn [bind]; try reflexivity.
  destruct (sum_disc_extend' fuel self demar _); cbn [bind]; try reflexivity.
  destruct (i =? 1)%nat; cbn [bind]; [reflexivity|].
  destruct (sum_disc_extend' fuel self demar _); cbn [bind]; reflexivity.
Qed.

(** Every quantity that the run of [recurrence] which returned [ab] passed
    to [np.sqrt] is positive: the sum for [beta_0], and in each pass [i] the
    sum for [beta_i]. *)
Definition recurrence_positive (fuel : nat) (self : Composite.t) (N : nat) (ab : table)
  : Prop :=
  (forall v, sum_extend' fuel self (find_demar self []) [] 1 true [] = Ret v -> 0 < v)
  /\ forall i p, (1 <= i <= N)%nat ->
       recurrence_radicand fuel self i (entering (N + 1) i ab) = Ret p -> 0 < snd p.

Definition stieltjes_positive (fuel : nat) (self : Composite.t) (N : nat) (ab : table)
  : Prop :=
  (forall v, sum_extend' fuel self (array_unique (find_demar self []) 1e-12) [] 1 true []
             = Ret v -> 0 < v)
  /\ forall i p, (1 <= i <= N)%nat ->
       stieltjes_radicand fuel self i (entering (N + 1) i ab) = Ret p -> 0 < snd p.

(** For [aPC] the first square roots are those of [eval_nc], which returns
    [np.sqrt(nc)] for sums [nc[j]] it asserts not to be negative: they are
    positive when the constants returned are.  [beta_0] is the first of
    them. *)
Definition aPC_positive (fuel : nat) (self : Composite.t) (N : nat) (ab : table) : Prop :=
  forall nc,
    eval_nc jacobi_recurrence linear_modification quadratic_modification
      gauss_quadrature_driver fpow linalg_solve fuel self N = Ret nc ->
    (forall j, (j <= N)%nat -> 0 < nth j nc 0)
    /\ forall i p, (1 <= i <= N)%nat ->
         aPC_radicand fuel self nc (disc_demar self) i (entering (N + 1) i ab) = Ret p ->
         0 < snd p.

Lemma first_row_class (N : nat) (b0 : R) :
  0 < b0 ->
  let t0 := set_row (set_row (zeros2 (N + 1)) 0 (0, beta (zeros2 (N + 1)) 0)) 0
              (alpha (set_row (zeros2 (N + 1)) 0 (0, beta (zeros2 (N + 1)) 0)) 0, b0) in
  length t0 = (N + 1)%nat /\ positive_below 1 t0.
Proof.
  intros Hb t0. unfold t0. split.
  - rewrite !set_row_length. apply repeat_length.
  - intros j Hj. assert (j = 0%nat) as -> by lia.
    rewrite beta_set_row_same; [exact Hb|].
    rewrite set_row_length. unfold zeros2. rewrite repeat_length. lia.
Qed.

(** The loop [for i in range(1, N+1)] from a table whose first row is set. *)
Lemma class_loop_positive (N : nat) (b0 : R) (step : nat -> table -> outcome table)
    (rad : nat -> table -> outcome (table * R)) (m : table -> nat -> R) (ab : table) :
  let t0 := set_row (set_row (zeros2 (N + 1)) 0 (0, beta (zeros2 (N + 1)) 0)) 0
              (alpha (set_row (zeros2 (N + 1)) 0 (0, beta (zeros2 (N + 1)) 0)) 0, b0) in
  (forall i t, step i t
               = let* p := rad i t in
                 let* root := np_sqrt (snd p) in
                 Ret (set_row (fst p) i (alpha (fst p) i, m (fst p) i * root))) ->
  (forall i t p, (1 <= i)%nat -> rad i t = Ret p ->
                 writes_row i t (fst p) /\ (positive_below i t -> 0 < m (fst p) i)) ->
  0 < b0 ->
  (forall i p, (1 <= i <= N)%nat -> rad i (entering (N + 1) i ab) = Ret p -> 0 < snd p) ->
  (if (N =? 0)%nat then Ret t0 else for_each (seq 1 N) step t0) = Ret ab ->
  positive_below (N + 1) ab.
Proof.
  intros t0 Hlink Hrad Hb0 Hpos H.
  destruct (first_row_class N b0 Hb0) as [Hl0 Hp0]. fold t0 in Hl0, Hp0.
  assert (Hz0 : forall j, (1 <= j)%nat -> nth j t0 (0, 0) = (0, 0)).
  { intros j Hj. unfold t0. rewrite nth_set_row_other by lia.
    apply first_row_zeros. exact Hj. }
  destruct (Nat.eqb_spec N 0) as [->|HN].
  - injection H as <-. exact Hp0.
  - pose proof (fill_loop_positive (N + 1) 0 1 step
                  (fun i t => forall p, rad i t = Ret p -> 0 < snd p)) as Hfill.
    cbn beta in Hfill.
    replace (N + 1)%nat with (1 + 0 + N)%nat at 1 by lia.
    refine (Hfill _ N 1%nat t0 ab H Hl0 ltac:(lia) ltac:(lia) _ _ _).
    + intros i t t' Hs Hl Hi1 Hi. rewrite Nat.add_0_r in *. rewrite Hlink in Hs.
      destruct (rad i t) as [p| | |] eqn:Er; cbn [bind] in Hs; try discriminate.
      destruct (Hrad i t p Hi1 Er) as [Hw Hm].
      destruct (sqrt_line_writes i t (fst p) t' _ _ _ Hw ltac:(lia) Hs) as [Hw' Hb].
      split; [exact Hw'|]. intros Hp HQ. apply Hb; [exact (Hm Hp)|]. apply HQ. reflexivity.
    + intros j Hj. apply Hz0. lia.
    + rewrite Nat.add_0_r. exact Hp0.
    + intros i Hi p. rewrite Nat.add_0_r. apply Hpos. lia.
Qed.

Lemma recurrence_positive_run (fuel : nat) (self : Composite.t) (N : nat) (ab : table) :
  recurrence_positive fuel self N ab ->
  recurrence jacobi_recurrence linear_modification quadratic_modification
    gauss_quadrature_driver array_unique fpow fuel self N = Ret ab ->
  positive_below (N + 1) ab.
Proof.
  intros [H0 Hn]. unfold recurrence. cbv zeta. intros H. repeat bind_inv H.
  refine (class_loop_positive N a0 _ (recurrence_radicand fuel self)
            (fun t i => beta t (i - 1)) ab _ _
            (np_sqrt_positive _ _ (H0 _ eq_refl) E0) Hn H).
  - intros i t. apply recurrence_step_radicand.
  - intros i t p Hi Er. unfold recurrence_radicand in Er. cbv zeta in Er.
    repeat bind_inv Er. injection Er as <-. cbn [fst]. split; [split|].
    + rewrite !set_row_length. reflexivity.
    + intros j Hj. rewrite !nth_set_row_other by exact Hj. reflexivity.
    + intros Hp. rewrite !beta_set_row_other by lia. apply Hp. lia.
Qed.

Lemma stieltjes_positive_run (fuel : nat) (self : Composite.t) (N : nat) (ab : table) :
  stieltjes_positive fuel self N ab ->
  stieltjes jacobi_recurrence linear_modification quadratic_modification
    gauss_quadrature_driver array_unique fpow fuel self N = Ret ab ->
  positive_below (N + 1) ab.
Proof.
  intros [H0 Hn]. unfold stieltjes. cbv zeta. intros H. repeat bind_inv H.
  refine (class_loop_positive N a0 _ (stieltjes_radicand fuel self) (fun _ _ => 1) ab _ _
            (np_sqrt_positive _ _ (H0 _ eq_refl) E0) Hn H).
  - intros i t. rewrite stieltjes_step_radicand.
    destruct (stieltjes_radicand fuel self i t) as [p| | |]; cbn [bind]; try reflexivity.
    destruct (np_sqrt (snd p)); cbn [bind]; try reflexivity. rewrite Rmult_1_l. reflexivity.
  - intros i t p Hi Er. unfold stieltjes_radicand in Er. cbv zeta in Er.
    repeat bind_inv Er. injection Er as <-. cbn [fst]. split; [split|].
    + rewrite !set_row_length. reflexivity.
    + intros j Hj. rewrite !nth_set_row_other by exact Hj. reflexivity.
    + intros _. lra.
Qed.

Lemma aPC_positive_run (fuel : nat) (self : Composite.t) (N : nat) (ab : table) :
  aPC_positive fuel self N ab ->
  aPC jacobi_recurrence linear_modification quadratic_modification
    gauss_quadrature_driver fpow linalg_solve fuel self N = Ret ab ->
  positive_below (N + 1) ab.
Proof.
  intros Hpos. unfold aPC. cbv zeta. intros H.
  destruct (eval_nc _ _ _ _ _ _ fuel self N) as [nc| | |] eqn:E; cbn [bind] in H;
    try discriminate.
  destruct (Hpos nc E) as [Hnc Hn]. pose proof (Hnc 0%nat ltac:(lia)) as H0.
  destruct nc as [|nc0 nc]; [discriminate|]. cbn [nth] in H0.
  refine (class_loop_positive N nc0 _ (aPC_radicand fuel self (nc0 :: nc) (disc_demar self))
            (fun _ _ => 1) ab _ _ H0 Hn H).
  - intros i t. rewrite aPC_step_radicand.
    destruct (aPC_radicand fuel self (nc0 :: nc) (disc_demar self) i t) as [p| | |];
      cbn [bind]; try reflexivity.
    destruct (np_sqrt (snd p)); cbn [bind]; try reflexivity. rewrite Rmult_1_l. reflexivity.
  - intros i t p Hi Er. unfold aPC_radicand in Er. cbv zeta in Er.
    repeat bind_inv Er. injection Er as <-. cbn [fst]. split; [split|].
    + rewrite !set_row_length. reflexivity.
    + intros j Hj. rewrite !nth_set_row_other by exact Hj. reflexivity.
    + intros _. lra.
Qed.

End ClassRadicands.

(** C2, as amended.  In a run that returns, which the embedding follows as
    long as the floats stay real numbers (no quantity passed to [np.sqrt] is
    negative, nothing is divided by zero), the table has the announced
    number of rows, [alpha_0 = 0] and no negative [beta_n]: each [beta_n] is
    a square root of an integral estimate, or the previous [beta] times
    one.  Every [beta_n] is positive when every quantity that the run passed
    to [np.sqrt] is positive (the [..._positive] conditions: the first
    estimate, and for each pass the quantity of that pass on the table the
    pass was entered with).  The code checks neither sign: an estimate equal
    to 0 gives [beta = 0] (the counterexample), and with a negative one
    [np.sqrt] returns NaN, which the code stores and returns; such a run is
    outside the embedding ([Unmodelled]), as the last part says of the first
    estimate of [compute_ttr_bounded]. *)
Theorem recurrence_tables_stored
    (gq : (R -> R) -> R -> R -> nat -> list subinterval -> option bool -> quad_kwargs -> R)
    (eval_driver : R -> nat -> table -> R)
    (leading_coefficient_driver : nat -> table -> list R)
    (gauss_quadrature_driver : table -> Z -> list R * list R)
    (jacobi_recurrence : R -> R -> nat -> table)
    (linear_modification : table -> R -> table * R)
    (quadratic_modification : table -> R -> table)
    (array_unique : list ext -> R -> list ext)
    (fpow : R -> R -> R)
    (linalg_solve : list (list R) -> list R -> outcome (list R))
    (fuel : nat) (a b : R) (a' b' : ext) (weight : R -> R) (N : nat)
    (singularity_list : list singularity) (Nquad : nat) (self : Composite.t) (ab : table) :
  (compute_ttr_bounded gq eval_driver a b weight N singularity_list Nquad = Ret ab ->
   stored N ab
   /\ (ttr_bounded_positive gq eval_driver a b weight N singularity_list Nquad ab ->
       positive_below N ab))
  /\ (compute_ttr_unbounded gq eval_driver fuel a' b' weight N singularity_list Nquad = Ret ab ->
      stored N ab
      /\ (ttr_unbounded_positive gq eval_driver fuel a' b' weight N singularity_list Nquad ab ->
          positive_below N ab))
  /\ (compute_ttr_bounded_composite gq leading_coefficient_driver gauss_quadrature_driver
        a b weight N singularity_list Nquad = Ret ab ->
      stored N ab
      /\ (ttr_bounded_composite_positive gq leading_coefficient_driver gauss_quadrature_driver
            a b weight N singularity_list Nquad ab ->
          positive_below N ab))
  /\ (compute_ttr_unbounded_composite gq leading_coefficient_driver gauss_quadrature_driver
        fuel a' b' weight N singularity_list Nquad = Ret ab ->
      stored N ab
      /\ (ttr_unbounded_composite_positive gq leading_coefficient_driver
            gauss_quadrature_driver fuel a' b' weight N singularity_list Nquad ab ->
          positive_below N ab))
  /\ (recurrence jacobi_recurrence linear_modification quadratic_modification
        gauss_quadrature_driver array_unique fpow fuel self N = Ret ab ->
      stored (N + 1) ab
      /\ (recurrence_positive jacobi_recurrence linear_modification quadratic_modification
            gauss_quadrature_driver array_unique fpow fuel self N ab ->
          positive_below (N + 1) ab))
  /\ (stieltjes jacobi_recurrence linear_modification quadratic_modification
        gauss_quadrature_driver array_unique fpow fuel self N = Ret ab ->
      stored (N + 1) ab
      /\ (stieltjes_positive jacobi_recurrence linear_modification quadratic_modification
            gauss_quadrature_driver array_unique fpow fuel self N ab ->
          positive_below (N + 1) ab))
  /\ (aPC jacobi_recurrence linear_modification quadratic_modification
        gauss_quadrature_driver fpow linalg_solve fuel self N = Ret ab ->
      stored (N + 1) ab
      /\ (aPC_positive jacobi_recurrence linear_modification quadratic_modification
            gauss_quadrature_driver fpow linalg_solve fuel self N ab ->
          positive_below (N + 1) ab))
  /\ (forall subintervals,
        a < b -> (0 < N)%nat ->
        compute_subintervals a b singularity_list = Ret subintervals ->
        gq weight a b Nquad subintervals None no_kwargs < 0 ->
        compute_ttr_bounded gq eval_driver a b weight N singularity_list Nquad = Unmodelled).
Proof.
  split; [|split; [|split; [|split; [|split; [|split; [|split]]]]]].
  - intros H. split; [apply table_ok_stored; exact (compute_ttr_bounded_ok _ _ _ _ _ _ _ _ _ H)|].
    intros Hpos. exact (compute_ttr_bounded_positive _ _ _ _ _ _ _ _ _ Hpos H).
  - intros H.
    split; [apply table_ok_stored; exact (compute_ttr_unbounded_ok _ _ _ _ _ _ _ _ _ _ H)|].
    intros Hpos. exact (compute_ttr_unbounded_positive _ _ _ _ _ _ _ _ _ _ Hpos H).
  - intros H.
    split; [apply table_ok_stored;
            exact (compute_ttr_bounded_composite_ok _ _ _ _ _ _ _ _ _ _ H)|].
    intros Hpos. exact (compute_ttr_bounded_composite_positive _ _ _ _ _ _ _ _ _ _ Hpos H).
  - intros H.
    split; [apply table_ok_stored;
            exact (compute_ttr_unbounded_composite_ok _ _ _ _ _ _ _ _ _ _ _ H)|].
    intros Hpos.
    exact (compute_ttr_unbounded_composite_positive _ _ _ _ _ _ _ _ _ _ _ Hpos H).
  - intros H. split; [apply table_ok_stored; exact (recurrence_ok _ _ _ _ _ _ _ _ _ _ H)|].
    intros Hpos. exact (recurrence_positive_run _ _ _ _ _ _ _ _ _ _ Hpos H).
  - intros H. split; [apply table_ok_stored; exact (stieltjes_ok _ _ _ _ _ _ _ _ _ _ H)|].
    intros Hpos. exact (stieltjes_positive_run _ _ _ _ _ _ _ _ _ _ Hpos H).
  - intros H. split; [apply table_ok_stored; exact (aPC_ok _ _ _ _ _ _ _ _ _ _ H)|].
    intros Hpos. exact (aPC_positive_run _ _ _ _ _ _ _ _ _ _ Hpos H).
  - intros subintervals Hab HN Hsub Hneg. unfold compute_ttr_bounded.
    rewrite Rltb_true by exact Hab. cbn [negb]. rewrite Hsub. cbn [bind].
    unfold init_table. destruct N as [|N']; [lia|].
    unfold np_sqrt. rewrite Rltb_true by exact Hneg. reflexivity.
Qed.

(** The midpoint rule, a quadrature [gq_modification_composite] may stand
    for. *)
Definition midpoint_rule (f : R -> R) (a b : R) (_ : nat) (_ : list subinterval)
    (_ : option bool) (_ : quad_kwargs) : R :=
  (b - a) * f ((a + b) / 2).

Lemma np_sqrt_0 : np_sqrt 0 = Ret 0.
Proof. unfold np_sqrt. rewrite Rltb_false by lra. rewrite sqrt_0. reflexivity. Qed.

Lemma np_sqrt_1 : np_sqrt 1 = Ret 1.
Proof. unfold np_sqrt. rewrite Rltb_false by lra. rewrite sqrt_1. reflexivity. Qed.

(** Two rows for the weight 1 on [[0, 1]], with polynomials that evaluate
    to 1. *)
Lemma ttr_bounded_run :
  compute_ttr_bounded midpoint_rule (fun _ _ _ => 1) 0 1 (fun _ => 1) 2 [] 10
  = Ret [(0, 1); (1, 1)].
Proof.
  unfold compute_ttr_bounded. rewrite Rltb_true by lra. cbn [negb].
  rewrite compute_subintervals_nil. cbn [bind]. unfold init_table, midpoint_rule.
  replace ((1 - 0) * 1) with 1 by lra. rewrite np_sqrt_1. cbn [bind].
  cbn [Nat.sub seq for_each]. unfold ttr_bounded_step. cbv zeta.
  cbn [zeros2 repeat set_row Nat.add alpha beta nth fst snd].
  replace ((1 - 0) * (1 * 1 ^ 2)) with 1 by lra. rewrite np_sqrt_1. cbn [bind].
  cbn [set_row alpha beta nth fst snd]. f_equal. f_equal. f_equal. f_equal; lra.
Qed.

(** The class on the stand-in family of the refinement run: the weight 1 on
    [[0, 1]], whose estimates 1/2, 1/3, 1/4 agree within 1/10 at 1/4. *)
Lemma demo_integral :
  eval_integral demo_jacobi (fun ab _ => (ab, 1)) (fun ab _ => ab) demo_gauss (fun u _ => u)
    5 (demo_self (1/10)) 0 1 [] 1 true [] = Ret (/ 4).
Proof.
  replace (/ 4) with (demo_x (1 + 1)) by (unfold demo_x; simpl; lra).
  refine (proj1 (adaptive_loop_refine (tol (demo_self (1/10))) (N_step (demo_self (1/10)))
                   (length (@nil R) + N_start (demo_self (1/10))) _ demo_x
                   (demo_estimate (1/10))) 1%nat 5%nat _ _).
  - unfold first_agreement, demo_x. split.
    + intros i Hi. assert (i = 0%nat) by lia. subst i. simpl.
      unfold Rabs. destruct (Rcase_abs _); lra.
    + simpl. unfold Rabs. destruct (Rcase_abs _); lra.
  - lia.
Qed.

Lemma demo_sum :
  sum_extend demo_jacobi (fun ab _ => (ab, 1)) (fun ab _ => ab) demo_gauss (fun u _ => u)
    5 (demo_self (1/10)) (find_demar (demo_self (1/10)) []) [] 1 true [] = Ret (0 + / 4).
Proof.
  unfold find_demar, np_unique. cbn [demo_self domain sing fst snd map app fold_right].
  cbn [insert_unique ext_eqb ext_ltb].
  unfold Reqb. destruct (Req_dec_T 0 1) as [H|_]; [lra|].
  rewrite Rltb_true by lra.
  unfold sum_extend. cbn [pairs for_each fst snd]. unfold eval_extend, extend.
  rewrite demo_integral. reflexivity.
Qed.

Lemma demo_recurrence :
  recurrence demo_jacobi (fun ab _ => (ab, 1)) (fun ab _ => ab) demo_gauss (fun l _ => l)
    (fun u _ => u) 5 (demo_self (1/10)) 0 = Ret [(0, sqrt (0 + / 4))].
Proof.
  unfold recurrence. cbv zeta. rewrite demo_sum. cbn [bind].
  unfold np_sqrt. rewrite Rltb_false by lra. reflexivity.
Qed.

(** Two runs: [compute_ttr_bounded] for two rows, and the method
    [recurrence] for [N = 0]. *)
Lemma recurrence_tables_stored_witness :
  (compute_ttr_bounded midpoint_rule (fun _ _ _ => 1) 0 1 (fun _ => 1) 2 [] 10
   = Ret [(0, 1); (1, 1)]
   /\ stored 2 [(0, 1); (1, 1)]
   /\ positive_below 2 [(0, 1); (1, 1)])
  /\ (recurrence demo_jacobi (fun ab _ => (ab, 1)) (fun ab _ => ab) demo_gauss (fun l _ => l)
        (fun u _ => u) 5 (demo_self (1/10)) 0 = Ret [(0, sqrt (0 + / 4))]
      /\ stored (0 + 1) [(0, sqrt (0 + / 4))]
      /\ positive_below (0 + 1) [(0, sqrt (0 + / 4))]).
Proof.
  split.
  - split; [exact ttr_bounded_run|].
    destruct (proj1 (recurrence_tables_stored midpoint_rule (fun _ _ _ => 1) (fun _ _ => [])
                       (fun _ _ => ([], [])) (fun _ _ N => repeat (0, 1) (N + 1))
                       (fun ab _ => (ab, 1)) (fun ab _ => ab) (fun l _ => l) (fun u _ => u)
                       (fun _ b => Ret b) 0 0 1 (Fin 0) (Fin 1) (fun _ => 1) 2 [] 10
                       (walker 1e-8 2) [(0, 1); (1, 1)])
               ttr_bounded_run) as [Hstored Hpositive].
    split; [exact Hstored|]. apply Hpositive.
    intros subintervals _. unfold midpoint_rule. split; [lra|].
    intros n p _ Hp. unfold ttr_bounded_radicand in Hp. injection Hp as <-.
    cbn [snd]. lra.
  - split; [exact demo_recurrence|].
    destruct (proj1 (proj2 (proj2 (proj2 (proj2
               (recurrence_tables_stored midpoint_rule (fun _ _ _ => 1) (fun _ _ => [])
                  demo_gauss demo_jacobi (fun ab _ => (ab, 1)) (fun ab _ => ab)
                  (fun l _ => l) (fun u _ => u) (fun _ b => Ret b) 5 0 1 (Fin 0) (Fin 1)
                  (fun _ => 1) 0 [] 10 (demo_self (1/10)) [(0, sqrt (0 + / 4))])))))
               demo_recurrence) as [Hstored Hpositive].
    split; [exact Hstored|]. apply Hpositive. split.
    + intros v Hv. rewrite demo_sum in Hv. injection Hv as <-. lra.
    + intros i p Hi. lia.
Defined.

(** C2, counterexample.  For the weight 0 on [[0, 1]] every quadrature sum
    is 0: [compute_ttr_bounded] with one row returns [beta_0 = sqrt 0 = 0],
    which is not positive. *)
Lemma recurrence_tables_counterexample :
  compute_ttr_bounded midpoint_rule (fun _ _ _ => 1) 0 1 (fun _ => 0) 1 [] 10
  = Ret [(0, 0)]
  /\ ~ 0 < beta [(0, 0)] 0.
Proof.
  split.
  - unfold compute_ttr_bounded. rewrite Rltb_true by lra. cbn [negb].
    rewrite compute_subintervals_nil. cbn [bind]. unfold init_table, midpoint_rule.
    replace ((1 - 0) * 0) with 0 by lra. rewrite np_sqrt_0. reflexivity.
  - unfold beta. simpl. lra.
Qed.

(** ** [compute_subintervals]: the order of the list does not matter *)

Lemma sorted_reals_unique (m1 : list R) :
  forall m2, StronglySorted Rle m1 -> StronglySorted Rle m2 -> Permutation m1 m2 -> m1 = m2.
Proof.
  induction m1 as [|x t IH]; intros m2 H1 H2 HP.
  - apply Permutation_nil in HP. subst. reflexivity.
  - destruct m2 as [|y u]; [apply Permutation_sym, Permutation_nil in HP; discriminate|].
    inversion H1 as [|? ? Ht Hxt]; subst. inversion H2 as [|? ? Hu Hyu]; subst.
    rewrite Forall_forall in Hxt, Hyu.
    assert (Hxy : x = y).
    { assert (Hx : In x (y :: u)) by (apply (Permutation_in _ HP); left; reflexivity).
      assert (Hy : In y (x :: t))
        by (apply (Permutation_in _ (Permutation_sym HP)); left; reflexivity).
      assert (y <= x) by (destruct Hx as [->|Hx]; [lra|apply Hyu; exact Hx]).
      assert (x <= y) by (destruct Hy as [->|Hy]; [lra|apply Hxt; exact Hy]).
      lra. }
    subst y. f_equal. apply IH; [exact Ht|exact Hu|].
    apply (Permutation_cons_inv HP).
Qed.

Lemma sorted_locs (l : list singularity) :
  StronglySorted le_loc l -> StronglySorted Rle (map loc l).
Proof.
  induction 1 as [|x t Ht IH Hall]; simpl; constructor; [exact IH|].
  apply Forall_map. exact Hall.
Qed.

Lemma sorted_perm_same_locs (l1 l2 : list singularity) :
  StronglySorted le_loc l1 -> StronglySorted le_loc l2 -> Permutation l1 l2 ->
  map loc l1 = map loc l2.
Proof.
  intros H1 H2 HP. apply sorted_reals_unique.
  - apply sorted_locs. exact H1.
  - apply sorted_locs. exact H2.
  - apply Permutation_map. exact HP.
Qed.

Lemma any_diff_lt_locs (l1 : list singularity) :
  forall l2, map loc l1 = map loc l2 -> any_diff_lt l1 = any_diff_lt l2.
Proof.
  induction l1 as [|x [|y t] IH]; intros [|x' [|y' t']] H; simpl in H; try discriminate;
    try reflexivity.
  injection H as Hx Hy Ht.
  change (Rltb (loc y - loc x) tol_sing || any_diff_lt (y :: t)
          = Rltb (loc y' - loc x') tol_sing || any_diff_lt (y' :: t')).
  rewrite Hx, Hy. f_equal.
  apply IH. simpl. rewrite Hy, Ht. reflexivity.
Qed.

(** Adjacent entries at least [tol] apart. *)
Fixpoint spaced (l : list singularity) : Prop :=
  match l with
  | x :: ((y :: _) as t) => loc x + tol_sing <= loc y /\ spaced t
  | _ => True
  end.

Lemma any_diff_lt_spaced (l : list singularity) : any_diff_lt l = false <-> spaced l.
Proof.
  induction l as [|x [|y t] IH]; cbn [any_diff_lt spaced]; try tauto.
  rewrite orb_false_iff, IH. unfold Rltb.
  destruct (Rlt_dec (loc y - loc x) tol_sing); split; intros [H1 H2];
    try discriminate; try (split; [lra|exact H2]); try (split; [reflexivity|exact H2]);
    try lra.
Qed.

Lemma tol_sing_pos : 0 < tol_sing.
Proof. unfold tol_sing. lra. Qed.

Lemma spaced_increasing (l : list singularity) :
  StronglySorted le_loc l -> spaced l -> NoDup (map loc l).
Proof.
  intros Hs. induction Hs as [|x t Ht IH Hall]; intros Hsp; simpl; constructor.
  - destruct t as [|y t]; [intros []|].
    destruct Hsp as [Hxy Hsp]. intros Hin. apply in_map_iff in Hin.
    destruct Hin as [z [Ez Hz]]. rewrite Forall_forall in Hall.
    inversion Ht as [|? ? _ Hyt]; subst. rewrite Forall_forall in Hyt.
    assert (Hyz : loc y <= loc z).
    { destruct Hz as [->|Hz]; [lra|]. apply Hyt. exact Hz. }
    assert (Hpos := tol_sing_pos). lra.
  - apply IH. destruct t as [|y t]; [exact I|]. apply Hsp.
Qed.

Lemma perm_same_locs_eq (l1 : list singularity) :
  forall l2, Permutation l1 l2 -> map loc l1 = map loc l2 -> NoDup (map loc l1) -> l1 = l2.
Proof.
  induction l1 as [|x t IH]; intros l2 HP Hl Hnd.
  - apply Permutation_nil in HP. subst. reflexivity.
  - destruct l2 as [|y u]; [discriminate|]. simpl in Hl. injection Hl as Hxy Htu.
    inversion Hnd as [|? ? Hnin Hnd']; subst.
    assert (Hx : x = y).
    { assert (Hy : In y (x :: t))
        by (apply (Permutation_in _ (Permutation_sym HP)); left; reflexivity).
      destruct Hy as [E|Hy]; [exact E|]. exfalso. apply Hnin.
      rewrite Hxy. apply in_map. exact Hy. }
    subst y. f_equal. apply IH; [apply (Permutation_cons_inv HP)|exact Htu|exact Hnd'].
Qed.

(** The result depends on the singularities kept, not on their order in
    [singularity_list] nor on the entries outside [[a - tol, b + tol]]: two
    lists whose kept entries are permutations of each other give the same
    rows, or the same exception. *)
Theorem compute_subintervals_order_independent (a b : R) (l l' : list singularity) :
  Permutation (filter (fun e => negb (discard a b e)) l)
              (filter (fun e => negb (discard a b e)) l') ->
  compute_subintervals a b l = compute_subintervals a b l'.
Proof.
  intros HP. unfold compute_subintervals.
  set (k := filter (fun e => negb (discard a b e)) l) in *.
  set (k' := filter (fun e => negb (discard a b e)) l') in *.
  assert (HPs : Permutation (argsort k) (argsort k')).
  { apply perm_trans with k; [apply argsort_perm|].
    apply perm_trans with k'; [exact HP|apply Permutation_sym, argsort_perm]. }
  assert (Hlocs : map loc (argsort k) = map loc (argsort k'))
    by (apply sorted_perm_same_locs; [apply argsort_sorted|apply argsort_sorted|exact HPs]).
  rewrite <- (any_diff_lt_locs _ _ Hlocs).
  destruct (any_diff_lt (argsort k)) eqn:E; [reflexivity|].
  assert (Heq : argsort k = argsort k').
  { apply perm_same_locs_eq; [exact HPs|exact Hlocs|].
    apply spaced_increasing; [apply argsort_sorted|apply any_diff_lt_spaced; exact E]. }
  rewrite <- Heq. reflexivity.
Qed.

Lemma compute_subintervals_order_independent_witness :
  compute_subintervals 0 5 [(1, 2, 3); (3, 4, 5); (7, 0, 0)]
  = compute_subintervals 0 5 [(3, 4, 5); (1, 2, 3)].
Proof.
  apply compute_subintervals_order_independent.
  unfold discard, tol_sing. cbn [filter loc fst snd].
  repeat (first [rewrite Rltb_true by lra | rewrite Rltb_false by lra]; cbn [orb negb]).
  apply perm_swap.
Defined.

(** ** [compute_subintervals]: the rows returned *)

Definition row_left (r : subinterval) : R := fst (fst (fst r)).
Definition row_right (r : subinterval) : R := snd (fst (fst r)).
Definition zero_row : subinterval := (0, 0, 0, 0).

Lemma rows_of_cons (x y : singularity) (t : list singularity) :
  rows_of (x :: y :: t) = (loc x, loc y, strength_right x, strength_left y) :: rows_of (y :: t).
Proof. reflexivity. Qed.

Lemma rows_of_chain (l : list singularity) (d : subinterval) :
  forall q, (S q < length (rows_of l))%nat ->
    row_right (nth q (rows_of l) d) = row_left (nth (S q) (rows_of l) d).
Proof.
  induction l as [|x [|y t] IH]; intros q Hq; try (simpl in Hq; lia).
  rewrite rows_of_cons in *. destruct q as [|q].
  - destruct t as [|z t]; [simpl in Hq; lia|]. rewrite rows_of_cons. reflexivity.
  - cbn [nth]. apply IH. cbn [length] in Hq. lia.
Qed.

Lemma rows_of_wide (l : list singularity) :
  spaced l -> Forall (fun r => row_left r + tol_sing <= row_right r) (rows_of l).
Proof.
  induction l as [|x [|y t] IH]; intros Hs; try constructor.
  - exact (proj1 Hs).
  - apply IH. exact (proj2 Hs).
Qed.

Lemma last_default {A : Type} (l : list A) (x y : A) : l <> [] -> last l x = last l y.
Proof.
  induction l as [|z [|w t] IH]; intros H; [contradiction|reflexivity|].
  change (last (w :: t) x = last (w :: t) y). apply IH. discriminate.
Qed.

Lemma rows_of_ends (x y : singularity) (t : list singularity) (d : subinterval) :
  row_left (hd d (rows_of (x :: y :: t))) = loc x
  /\ row_right (last (rows_of (x :: y :: t)) d) = loc (last (y :: t) x).
Proof.
  split; [reflexivity|].
  revert x y. induction t as [|z t IH]; intros x y; [reflexivity|].
  rewrite rows_of_cons.
  change (last ((loc x, loc y, strength_right x, strength_left y) :: rows_of (y :: z :: t)) d)
    with (last (rows_of (y :: z :: t)) d).
  rewrite (IH y z). f_equal.
  change (last (z :: t) y = last (z :: t) x). apply last_default. discriminate.
Qed.

Lemma spaced_app (l : list singularity) (x e : singularity) :
  spaced l -> (l <> [] -> loc (last l x) + tol_sing <= loc e) -> spaced (l ++ [e]).
Proof.
  induction l as [|y [|z t] IH]; intros Hs Hl.
  - exact I.
  - simpl. split; [apply Hl; discriminate|exact I].
  - destruct Hs as [Hyz Hs]. change (spaced (y :: (z :: t) ++ [e])).
    cbn [app spaced]. split; [exact Hyz|].
    apply IH; [exact Hs|]. intros _. apply Hl. discriminate.
Qed.

Lemma kept_in_range (a b : R) (l : list singularity) (z : singularity) :
  In z (argsort (filter (fun e => negb (discard a b e)) l)) ->
  a - tol_sing <= loc z <= b + tol_sing.
Proof.
  intros H. apply (Permutation_in _ (argsort_perm _)) in H.
  apply filter_In in H. destruct H as [_ H]. unfold discard in H.
  apply negb_true_iff, orb_false_iff in H. destruct H as [H1 H2].
  unfold Rltb in H1, H2.
  destruct (Rlt_dec (loc z) (a - tol_sing)); [discriminate|].
  destruct (Rlt_dec (b + tol_sing) (loc z)); [discriminate|]. lra.
Qed.

Lemma last_in {A : Type} (l : list A) (x : A) : l <> [] -> In (last l x) l.
Proof.
  induction l as [|y [|z t] IH]; intros H; [contradiction|left; reflexivity|].
  right. apply IH. discriminate.
Qed.

Lemma last_app_one {A : Type} (l : list A) (e x : A) : last (l ++ [e]) x = e.
Proof. apply last_last. Qed.

(** What [compute_subintervals] returns: consecutive rows share an
    endpoint; without a singularity in [[a - tol, b + tol]] the only row is
    [(a, b, 0, 0)]; with one, every row is at least [tol] wide; the first
    row starts within [tol] of [a] and the last ends within [tol] of [b]. *)
Theorem compute_subintervals_rows (a b : R) (l : list singularity) (rows : list subinterval) :
  compute_subintervals a b l = Ret rows ->
  (forall q, (S q < length rows)%nat ->
     row_right (nth q rows zero_row) = row_left (nth (S q) rows zero_row))
  /\ (filter (fun e => negb (discard a b e)) l = [] -> rows = [(a, b, 0, 0)])
  /\ (filter (fun e => negb (discard a b e)) l <> [] ->
      Forall (fun r => row_left r + tol_sing <= row_right r) rows)
  /\ (rows <> [] ->
      Rabs (row_left (hd zero_row rows) - a) <= tol_sing
      /\ Rabs (row_right (last rows zero_row) - b) <= tol_sing).
Proof.
  unfold compute_subintervals.
  set (k := filter (fun e => negb (discard a b e)) l).
  assert (Hrange := kept_in_range a b l). fold k in Hrange.
  destruct (any_diff_lt (argsort k)) eqn:E; [discriminate|].
  apply any_diff_lt_spaced in E.
  assert (Hk : k = [] <-> argsort k = []).
  { split; intros H.
    - rewrite H. reflexivity.
    - apply Permutation_nil. rewrite <- H. apply argsort_perm. }
  destruct (argsort k) as [|first rest] eqn:Es.
  - intros H. injection H as <-. split; [intros q Hq; simpl in Hq; lia|].
    split; [reflexivity|]. split; [intros Hne; exfalso; apply Hne, Hk; reflexivity|].
    intros _. cbn [hd last row_left row_right fst snd].
    assert (Hpos := tol_sing_pos).
    split; rewrite Rminus_diag, Rabs_R0; lra.
  - set (s := first :: rest) in *.
    set (a_sing := Rleb (Rabs (loc first - a)) tol_sing).
    set (b_sing := Rleb (Rabs (loc (last s first) - b)) tol_sing).
    set (ext1 := if b_sing then s else s ++ [(b, 0, 0)]).
    set (ext2 := if a_sing then ext1 else (a, 0, 0) :: ext1).
    intros H. injection H as <-.
    assert (Hlast_in : In (last s first) s) by (apply last_in; discriminate).
    assert (Hb : b_sing = false -> loc (last s first) + tol_sing <= b).
    { unfold b_sing, Rleb. destruct (Rle_dec _ _) as [|Hn]; [discriminate|]. intros _.
      assert (Hr := Hrange _ Hlast_in).
      unfold Rabs in Hn. destruct (Rcase_abs _); lra. }
    assert (Ha : a_sing = false -> a + tol_sing <= loc first).
    { unfold a_sing, Rleb. destruct (Rle_dec _ _) as [|Hn]; [discriminate|]. intros _.
      assert (Hr := Hrange first ltac:(left; reflexivity)).
      unfold Rabs in Hn. destruct (Rcase_abs _); lra. }
    assert (Hext1 : exists t1, ext1 = first :: t1).
    { unfold ext1. destruct b_sing; [exists rest; reflexivity|].
      exists (rest ++ [(b, 0, 0)]). reflexivity. }
    destruct Hext1 as [t1 Hext1].
    assert (Hsp1 : spaced ext1).
    { unfold ext1. destruct b_sing eqn:Eb; [exact E|].
      apply (spaced_app s first); [exact E|]. intros _. apply Hb. reflexivity. }
    assert (Hsp2 : spaced ext2).
    { unfold ext2. destruct a_sing eqn:Ea; [exact Hsp1|].
      rewrite Hext1 in *.
      change (loc (a, 0, 0) + tol_sing <= loc first /\ spaced (first :: t1)).
      split; [apply Ha; reflexivity|exact Hsp1]. }
    split; [apply rows_of_chain|].
    split; [intros Hnil; apply Hk in Hnil; discriminate|].
    split; [intros _; apply rows_of_wide; exact Hsp2|].
    intros Hne.
    assert (Hlast1 : Rabs (loc (last ext1 first) - b) <= tol_sing).
    { unfold ext1. destruct b_sing eqn:Eb.
      - unfold b_sing, Rleb in Eb. destruct (Rle_dec _ _); [assumption|discriminate].
      - rewrite last_app_one. cbn [loc fst]. rewrite Rminus_diag, Rabs_R0.
        apply Rlt_le, tol_sing_pos. }
    unfold ext2 in *. destruct a_sing eqn:Ea.
    + rewrite Hext1 in Hlast1, Hne. rewrite Hext1.
      destruct t1 as [|y t1]; [contradiction Hne; reflexivity|].
      destruct (rows_of_ends first y t1 zero_row) as [-> ->]. split.
      * unfold a_sing, Rleb in Ea. destruct (Rle_dec _ _); [assumption|discriminate].
      * exact Hlast1.
    + rewrite Hext1 in Hlast1. rewrite Hext1.
      destruct (rows_of_ends (a, 0, 0) first t1 zero_row) as [H1 H2].
      unfold singularity, subinterval in *. rewrite H1, H2. split.
      * cbn [loc fst]. rewrite Rminus_diag, Rabs_R0. apply Rlt_le, tol_sing_pos.
      * rewrite (last_default (first :: t1) (a, 0, 0) first) by discriminate.
        exact Hlast1.
Qed.

Definition demo_rows : list subinterval := [(0, 1, 0, 2); (1, 3, 3, 4); (3, 5, 5, 0)].

Lemma compute_subintervals_rows_witness :
  compute_subintervals 0 5 [(1, 2, 3); (3, 4, 5)] = Ret demo_rows
  /\ (forall q, (S q < length demo_rows)%nat ->
       row_right (nth q demo_rows zero_row) = row_left (nth (S q) demo_rows zero_row))
  /\ Forall (fun r => row_left r + tol_sing <= row_right r) demo_rows.
Proof.
  assert (Hrun : compute_subintervals 0 5 [(1, 2, 3); (3, 4, 5)] = Ret demo_rows)
    by (run_subintervals; reflexivity).
  destruct (compute_subintervals_rows 0 5 [(1, 2, 3); (3, 4, 5)] demo_rows Hrun)
    as [Hchain [_ [Hwide _]]].
  split; [exact Hrun|]. split; [exact Hchain|]. apply Hwide.
  unfold discard, tol_sing. cbn [filter loc fst snd].
  repeat (first [rewrite Rltb_true by lra | rewrite Rltb_false by lra]; cbn [orb negb]).
  discriminate.
Defined.

(** ** [find_demar]: the demarcation points *)

Definition ext_lt (x y : ext) : Prop := ext_ltb x y = true.

Lemma ext_eqb_eq (x y : ext) : ext_eqb x y = true <-> x = y.
Proof.
  destruct x, y; cbn; split; intros H; try discriminate; try reflexivity.
  - apply Reqb_spec in H. subst. reflexivity.
  - inversion H. apply Reqb_spec. reflexivity.
Qed.

Lemma ext_lt_trans (x y z : ext) : ext_lt x y -> ext_lt y z -> ext_lt x z.
Proof.
  unfold ext_lt. destruct x, y, z; cbn; intros H1 H2; try discriminate; try reflexivity.
  apply Rltb_spec in H1, H2. apply Rltb_true. lra.
Qed.

Lemma ext_lt_total (x y : ext) :
  ext_eqb x y = false -> ext_ltb x y = false -> ext_lt y x.
Proof.
  unfold ext_lt. destruct x, y; cbn; intros H1 H2; try discriminate; try reflexivity.
  apply Rltb_true. destruct (Rtotal_order x x0) as [H|[H|H]].
  - rewrite Rltb_true in H2 by lra. discriminate.
  - apply Reqb_spec in H. rewrite H in H1. discriminate.
  - lra.
Qed.

Lemma insert_unique_in (x y : ext) (l : list ext) :
  In y (insert_unique x l) <-> y = x \/ In y l.
Proof.
  induction l as [|h t IH]; cbn.
  - intuition.
  - destruct (ext_eqb x h) eqn:E.
    + apply ext_eqb_eq in E. subst h. cbn. intuition.
    + destruct (ext_ltb x h); cbn; [intuition|]. rewrite IH. intuition.
Qed.

Lemma insert_unique_sorted (x : ext) (l : list ext) :
  StronglySorted ext_lt l -> StronglySorted ext_lt (insert_unique x l).
Proof.
  induction l as [|h t IH]; cbn; intros HS.
  - constructor; constructor.
  - destruct (ext_eqb x h) eqn:E; [exact HS|].
    inversion HS as [|? ? HSt Hall]; subst.
    destruct (ext_ltb x h) eqn:L.
    + constructor; [exact HS|]. constructor; [exact L|].
      rewrite Forall_forall in *. intros y Hy. apply ext_lt_trans with h; [exact L|auto].
    + constructor; [apply IH; exact HSt|].
      rewrite Forall_forall in *. intros y Hy. apply insert_unique_in in Hy.
      destruct Hy as [->|Hy]; [apply ext_lt_total; assumption|auto].
Qed.

Lemma np_unique_in (y : ext) (l : list ext) : In y (np_unique l) <-> In y l.
Proof.
  induction l as [|h t IH]; cbn; [reflexivity|].
  rewrite insert_unique_in, IH. intuition.
Qed.

Lemma np_unique_sorted (l : list ext) : StronglySorted ext_lt (np_unique l).
Proof.
  induction l as [|h t IH]; cbn; [constructor|]. apply insert_unique_sorted, IH.
Qed.

(** The demarcation points are strictly increasing (so no point is listed
    twice), and they are the two ends of the domain, the singularities and
    the zeros passed in, nothing else. *)
Theorem find_demar_increasing (self : t) (zeros : list R) :
  StronglySorted ext_lt (find_demar self zeros)
  /\ forall x, In x (find_demar self zeros) <->
       x = fst (domain self) \/ x = snd (domain self)
       \/ (exists s, In s (sing self) /\ x = Fin s)
       \/ (exists z, In z zeros /\ x = Fin z).
Proof.
  unfold find_demar. split; [apply np_unique_sorted|].
  intros x. rewrite np_unique_in. cbn [app In]. rewrite in_app_iff, !in_map_iff.
  split.
  - intros [H|[H|[[s [E H]]|[z [E H]]]]]; auto.
    + right; right; left. exists s. auto.
    + right; right; right. exists z. auto.
  - intros [H|[H|[[s [H E]]|[z [H E]]]]]; auto.
    + right; right; left. exists s. auto.
    + right; right; right. exists z. auto.
Qed.

(** ** [affine_mapping] *)

(** Mapping by [(a1, b1)] and then by [(a2, b2)] is mapping by the composed
    affine map [(a1 + b1 * a2, b1 * b2)]. *)
Theorem affine_mapping_composes (ab m : table) (a1 b1 a2 b2 : R) :
  b1 <> 0 -> b2 <> 0 ->
  affine_mapping ab a1 b1 = Ret m ->
  affine_mapping m a2 b2 = affine_mapping ab (a1 + b1 * a2) (b1 * b2).
Proof.
  intros Hb1 Hb2. destruct ab as [|r0 rest]; [discriminate|].
  cbn [affine_mapping]. intros H. inversion H; subst m; clear H.
  cbn [affine_mapping snd fst]. apply f_equal. apply f_equal2.
  - apply f_equal2; [reflexivity|]. rewrite Rabs_mult, sqrt_mult by apply Rabs_pos.
    assert (0 < sqrt (Rabs b1)) by (apply sqrt_lt_R0, Rabs_pos_lt; exact Hb1).
    assert (0 < sqrt (Rabs b2)) by (apply sqrt_lt_R0, Rabs_pos_lt; exact Hb2).
    field. split; lra.
  - rewrite map_map. apply map_ext. intros r. cbn [fst snd]. apply f_equal2.
    + field. split; assumption.
    + rewrite Rabs_mult.
      assert (0 < Rabs b1) by (apply Rabs_pos_lt; exact Hb1).
      assert (0 < Rabs b2) by (apply Rabs_pos_lt; exact Hb2).
      field. split; lra.
Qed.

Lemma affine_mapping_composes_witness :
  affine_mapping [(0, 1); (3, 8)] 1 2 = Ret [(0, 1 / sqrt (Rabs 2)); ((3 - 1) / 2, 8 / Rabs 2)]
  /\ affine_mapping [(0, 1 / sqrt (Rabs 2)); ((3 - 1) / 2, 8 / Rabs 2)] 5 2
     = affine_mapping [(0, 1); (3, 8)] (1 + 2 * 5) (2 * 2).
Proof.
  split; [reflexivity|].
  apply (affine_mapping_composes [(0, 1); (3, 8)] _ 1 2 5 2); [lra|lra|reflexivity].
Defined.

(** Mapping back by the inverse affine map restores a table whose first
    row stores [alpha_0 = 0]. *)
Theorem affine_mapping_round_trip (ab m : table) (a b : R) :
  b <> 0 -> alpha ab 0 = 0 ->
  affine_mapping ab a b = Ret m ->
  affine_mapping m (- a / b) (1 / b) = Ret ab.
Proof.
  intros Hb Ha. destruct ab as [|[a0 b0] rest]; [discriminate|].
  unfold alpha in Ha. cbn in Ha. subst a0.
  cbn [affine_mapping]. intros H. inversion H; subst m; clear H.
  cbn [affine_mapping snd fst]. apply f_equal. apply f_equal2.
  - apply f_equal2; [reflexivity|]. replace (1 / b) with (/ b) by (field; exact Hb).
    rewrite Rabs_inv, sqrt_inv.
    assert (0 < sqrt (Rabs b)) by (apply sqrt_lt_R0, Rabs_pos_lt; exact Hb).
    field. lra.
  - rewrite map_map. rewrite <- (map_id rest) at 2. apply map_ext. intros [x y].
    cbn [fst snd]. apply f_equal2.
    + field. exact Hb.
    + replace (1 / b) with (/ b) by (field; exact Hb). rewrite Rabs_inv.
      assert (0 < Rabs b) by (apply Rabs_pos_lt; exact Hb).
      field. lra.
Qed.

Lemma affine_mapping_round_trip_witness :
  affine_mapping [(0, 1); (3, 8)] 1 2 = Ret [(0, 1 / sqrt (Rabs 2)); ((3 - 1) / 2, 8 / Rabs 2)]
  /\ affine_mapping [(0, 1 / sqrt (Rabs 2)); ((3 - 1) / 2, 8 / Rabs 2)] (- 1 / 2) (1 / 2)
     = Ret [(0, 1); (3, 8)].
Proof.
  split; [reflexivity|].
  apply (affine_mapping_round_trip [(0, 1); (3, 8)] _ 1 2); [lra|reflexivity|reflexivity].
Defined.

(** ** The module-level variants asked for no row *)

Lemma bind_never {A B : Type} (m : outcome A) (k : A -> outcome B) :
  (forall x y, k x <> Ret y) -> forall y, bind m k <> Ret y.
Proof. intros Hk y. destruct m; cbn; [apply Hk|discriminate|discriminate|discriminate]. Qed.

Lemma init_table_0 (v : R) (k : table -> outcome table) :
  forall y, bind (init_table 0 v) k <> Ret y.
Proof. intros y. cbn. discriminate. Qed.

(** With [N = 0] the array [np.zeros([0, 2])] has no row 0 to store
    [beta_0] in: none of the four module-level variants returns a table
    (an empty one included), whatever the other arguments are. *)
Theorem compute_ttr_needs_a_row
    (gq : (R -> R) -> R -> R -> nat -> list subinterval -> option bool -> quad_kwargs -> R)
    (eval_driver : R -> nat -> table -> R)
    (leading_coefficient_driver : nat -> table -> list R)
    (gauss_quadrature_driver : table -> Z -> list R * list R)
    (fuel : nat) (a b : R) (a' b' : ext) (weight : R -> R)
    (singularity_list : list singularity) (Nquad : nat) (ab : table) :
  compute_ttr_bounded gq eval_driver a b weight 0 singularity_list Nquad <> Ret ab
  /\ compute_ttr_unbounded gq eval_driver fuel a' b' weight 0 singularity_list Nquad <> Ret ab
  /\ compute_ttr_bounded_composite gq leading_coefficient_driver gauss_quadrature_driver
       a b weight 0 singularity_list Nquad <> Ret ab
  /\ compute_ttr_unbounded_composite gq leading_coefficient_driver gauss_quadrature_driver
       fuel a' b' weight 0 singularity_list Nquad <> Ret ab.
Proof.
  unfold compute_ttr_bounded, compute_ttr_unbounded, compute_ttr_bounded_composite,
    compute_ttr_unbounded_composite.
  repeat split.
  - destruct (negb (Rltb a b)); [discriminate|].
    apply bind_never. intros x y. apply init_table_0.
  - destruct (negb (ext_ltb a' b')); [discriminate|].
    apply bind_never. intros x y. apply init_table_0.
  - destruct (negb (Rltb a b)); [discriminate|].
    apply bind_never. intros x y. apply init_table_0.
  - destruct (negb (ext_ltb a' b')); [discriminate|].
    apply bind_never. intros x y. apply init_table_0.
Qed.

End CompositeFacts.

(** * Facts about opoly1d.py *)

Module OpolyFacts.

Import Opoly1d.

(** ** The memoized table *)

(** The rows a sequence of driver calls computes: [recurrence_driver(N)]
    returns the whole (N+1) x 2 table, rows 0 to N. *)
Definition rows_computed (calls : list nat) : list nat :=
  flat_map (fun N => seq 0 (N + 1)) calls.

Lemma recurrence_stored (drv : nat -> outcome table) (N : nat) (self : basis) :
  (N + 1 <= length (ab self))%nat ->
  recurrence drv N self = (Ret (firstn (N + 1) (ab self)), self).
Proof.
  intros H. unfold recurrence.
  destruct (Nat.ltb_spec (length (ab self)) (N + 1)) as [Hlt|_]; [lia|reflexivity].
Qed.

Lemma recurrence_extends (drv : nat -> outcome table) (N : nat) (self : basis) (computed : table) :
  (length (ab self) < N + 1)%nat ->
  drv N = Ret computed ->
  recurrence drv N self
  = (Ret computed, {| ab := computed; driver_calls := driver_calls self ++ [N] |}).
Proof.
  intros H Hd. unfold recurrence.
  destruct (Nat.ltb_spec (length (ab self)) (N + 1)) as [_|Hge]; [|lia].
  rewrite Hd. reflexivity.
Qed.

(** C8 (amended).  When the stored table holds at least [N+1] rows,
    [recurrence(N)] returns its first [N+1] rows, leaves [self.ab] as it is
    and does not call [recurrence_driver].  When it holds fewer, the table
    returned and stored is the one [recurrence_driver(N)] computes, rows 0 to
    [N], in place of the stored rows.  With a driver that returns [N+1] rows
    for [N], the stored table never gets shorter. *)
Theorem recurrence_memoized (recurrence_driver : nat -> outcome table) (N : nat) (self : basis) :
  ((N + 1 <= length (ab self))%nat ->
     recurrence recurrence_driver N self = (Ret (firstn (N + 1) (ab self)), self))
  /\ ((length (ab self) < N + 1)%nat ->
      forall computed : table,
        recurrence_driver N = Ret computed ->
        recurrence recurrence_driver N self
        = (Ret computed, {| ab := computed; driver_calls := driver_calls self ++ [N] |})
        /\ rows_computed (driver_calls self ++ [N])
           = rows_computed (driver_calls self) ++ seq 0 (N + 1))
  /\ ((forall (K : nat) (t : table), recurrence_driver K = Ret t -> length t = (K + 1)%nat) ->
      (length (ab self) <= length (ab (snd (recurrence recurrence_driver N self))))%nat).
Proof.
  split; [apply recurrence_stored|]. split.
  - intros H computed Hd. split; [apply recurrence_extends; assumption|].
    unfold rows_computed. rewrite flat_map_app. simpl. rewrite app_nil_r. reflexivity.
  - intros Hsize. unfold recurrence.
    destruct (Nat.ltb_spec (length (ab self)) (N + 1)) as [Hlt|Hge]; [|simpl; lia].
    destruct (recurrence_driver N) as [t| | |] eqn:Hd; simpl; try lia.
    rewrite (Hsize N t Hd). lia.
Qed.

(** A family whose rows are all (0, 1). *)
Definition constant_driver (N : nat) : outcome table := Ret (repeat (0, 1) (N + 1)).

Definition after_first : basis := snd (recurrence constant_driver 0 init).
Definition after_second : basis := snd (recurrence constant_driver 1 after_first).

(** After [recurrence(1)], [recurrence(0)] is answered from the stored
    table; [recurrence(2)] calls the driver. *)
Lemma recurrence_memoized_witness :
  recurrence constant_driver 0 after_second = (Ret [(0, 1)], after_second)
  /\ recurrence constant_driver 2 after_second
     = (Ret [(0, 1); (0, 1); (0, 1)],
        {| ab := [(0, 1); (0, 1); (0, 1)]; driver_calls := [0; 1; 2]%nat |})
  /\ (length (ab after_second)
      <= length (ab (snd (recurrence constant_driver 2 after_second))))%nat.
Proof.
  destruct (recurrence_memoized constant_driver 0 after_second) as [Hstored _].
  destruct (recurrence_memoized constant_driver 2 after_second) as [_ [Hext Hgrow]].
  split; [apply Hstored; simpl; lia|].
  split.
  - apply (Hext ltac:(simpl; lia) [(0, 1); (0, 1); (0, 1)] eq_refl).
  - apply Hgrow. intros K t Ht. injection Ht as <-. apply repeat_length.
Defined.

(** A driver whose rows depend on the number of rows asked for: the mass
    [ab[0,1]] it returns for [N] is [N + 1]. *)
Definition rescaled_driver (N : nat) : outcome table := Ret (repeat (0, INR (N + 1)) (N + 1)).

(** C8, the last part: on a new instance, [recurrence(0)] then
    [recurrence(1)] call the driver for 0 and for 1, so row 0, stored by the
    first call, is computed a second time; the stored row 0 is then the one
    the second call computed, as [rescaled_driver] shows. *)
Lemma recurrence_counterexample :
  ab after_first = [(0, 1)]
  /\ driver_calls after_second = [0; 1]%nat
  /\ rows_computed (driver_calls after_second) = [0; 0; 1]%nat
  /\ ~ NoDup (rows_computed (driver_calls after_second))
  /\ ab (snd (recurrence rescaled_driver 0 init)) = [(0, 1)]
  /\ ab (snd (recurrence rescaled_driver 1 (snd (recurrence rescaled_driver 0 init))))
     = [(0, 1 + 1); (0, 1 + 1)].
Proof.
  split; [reflexivity|]. split; [reflexivity|]. split; [reflexivity|].
  split; [|split; reflexivity].
  intros H. simpl in H. inversion H as [|x l Hin _]. apply Hin. left. reflexivity.
Qed.

(** ** The margin required by the modifications *)

(** A method that never returns the error message. *)
Definition no_message (m : M modification) : Prop :=
  forall (self : basis) (msg : string), fst (m self) <> Ret (ErrorMessage msg).

Lemma no_message_bind {A : Type} (m : M A) (k : A -> M modification) :
  (forall a, no_message (k a)) -> no_message (mbind m k).
Proof.
  intros Hk self msg. unfold mbind.
  destruct (m self) as [[a| | |] self']; simpl; try discriminate.
  apply Hk.
Qed.

Lemma no_message_finish (ab : table) (lo : nat) (AB0 AB1 : list R) :
  no_message (finish_modification ab lo AB0 AB1).
Proof.
  unfold finish_modification. apply no_message_bind.
  intros col1 self msg. simpl. discriminate.
Qed.

Ltac no_message_steps :=
  repeat first [apply no_message_finish | apply no_message_bind; intros ?].

(** C6.  With fewer than [N+2] rows [recurrence_lin_mod_jacobi], and with
    fewer than [N+3] rows [recurrence_quad_mod_jacobi], returns the message
    'Error, requires more recurrence pairs' at once: nothing is evaluated and
    the instance is left as it is.  With that many rows or more neither
    returns the message. *)
Theorem modification_requires_margin
  (recurrence_driver : nat -> outcome table) (ab : table) (N : nat) (x0 : R) (self : basis) :
  ((length ab < N + 2)%nat ->
     recurrence_lin_mod_jacobi recurrence_driver ab N x0 self
     = (Ret (ErrorMessage more_pairs_msg), self))
  /\ ((length ab < N + 3)%nat ->
      recurrence_quad_mod_jacobi recurrence_driver ab N x0 self
      = (Ret (ErrorMessage more_pairs_msg), self))
  /\ ((N + 2 <= length ab)%nat ->
      forall msg : string,
        fst (recurrence_lin_mod_jacobi recurrence_driver ab N x0 self)
        <> Ret (ErrorMessage msg))
  /\ ((N + 3 <= length ab)%nat ->
      forall msg : string,
        fst (recurrence_quad_mod_jacobi recurrence_driver ab N x0 self)
        <> Ret (ErrorMessage msg)).
Proof.
  split; [|split; [|split]].
  - intros H. unfold recurrence_lin_mod_jacobi.
    destruct (Nat.ltb_spec (length ab) (N + 2)) as [_|Hge]; [reflexivity|lia].
  - intros H. unfold recurrence_quad_mod_jacobi.
    destruct (Nat.ltb_spec (length ab) (N + 3)) as [_|Hge]; [reflexivity|lia].
  - intros H msg. revert self msg.
    change (no_message (recurrence_lin_mod_jacobi recurrence_driver ab N x0)).
    unfold recurrence_lin_mod_jacobi.
    destruct (Nat.ltb_spec (length ab) (N + 2)) as [Hlt|_]; [lia|].
    no_message_steps.
  - intros H msg. revert self msg.
    change (no_message (recurrence_quad_mod_jacobi recurrence_driver ab N x0)).
    unfold recurrence_quad_mod_jacobi.
    destruct (Nat.ltb_spec (length ab) (N + 3)) as [Hlt|_]; [lia|].
    no_message_steps.
Qed.

(** A table of two rows: one short of the margin of a linear modification
    to degree 1, two short of that of a quadratic one; three rows are
    enough for the linear modification. *)
Lemma modification_requires_margin_witness :
  recurrence_lin_mod_jacobi constant_driver [(0, 1); (0, 1)] 1 2 init
  = (Ret (ErrorMessage more_pairs_msg), init)
  /\ recurrence_quad_mod_jacobi constant_driver [(0, 1); (0, 1)] 1 2 init
     = (Ret (ErrorMessage more_pairs_msg), init)
  /\ fst (recurrence_lin_mod_jacobi constant_driver [(0, 1); (0, 1); (0, 1)] 1 2 init)
     <> Ret (ErrorMessage more_pairs_msg).
Proof.
  destruct (modification_requires_margin constant_driver [(0, 1); (0, 1)] 1 2 init)
    as [Hlin [Hquad _]].
  destruct (modification_requires_margin constant_driver [(0, 1); (0, 1); (0, 1)] 1 2 init)
    as [_ [_ [Henough _]]].
  split; [apply Hlin; simpl; lia|].
  split; [apply Hquad; simpl; lia|].
  apply Henough. simpl. lia.
Defined.

(** ** Arrays passed to [markov_stiltjies] *)

Lemma load_app (h : store) (v : list R) (p : ref) :
  (p < length h)%nat -> load (h ++ [v]) p = load h p.
Proof. intros H. unfold load. apply app_nth1. assumption. Qed.

Lemma store_at_length (h : store) (p : ref) (v : list R) :
  length (store_at h p v) = length h.
Proof.
  revert p. induction h as [|x h IH]; intros [|p]; simpl; try reflexivity.
  rewrite IH. reflexivity.
Qed.

Lemma load_store_at_same (h : store) (p : ref) (v : list R) :
  (p < length h)%nat -> load (store_at h p v) p = v.
Proof.
  revert p. induction h as [|x h IH]; intros [|p] H; simpl in *; try lia.
  - reflexivity.
  - apply IH. lia.
Qed.

Lemma load_store_at_other (h : store) (p q : ref) (v : list R) :
  p <> q -> load (store_at h p v) q = load h q.
Proof.
  revert p q. induction h as [|x h IH]; intros [|p] [|q] H; simpl; try reflexivity.
  - contradiction.
  - apply IH. congruence.
Qed.

Lemma set_first_written (h h' : store) (p : ref) (r : outcome unit) :
  (p < length h)%nat -> load h p <> [] ->
  set_first h p = (r, h') ->
  r = Ret tt /\ h' = store_at h p (1 :: tl (load h p)).
Proof.
  intros Hp Hne. unfold set_first.
  destruct (load h p) as [|x rest]; [contradiction|].
  intros H. injection H as <- <-. split; reflexivity.
Qed.

Lemma set_first_frame (h h' : store) (p q : ref) (r : outcome unit) :
  p <> q -> set_first h p = (r, h') ->
  load h' q = load h q /\ length h' = length h.
Proof.
  intros Hpq. unfold set_first.
  destruct (load h p) as [|x rest]; intros H; injection H as <- <-.
  - split; reflexivity.
  - split; [apply load_store_at_other; assumption|apply store_at_length].
Qed.

Section MarkovStiltjiesFacts.

Variable jacobi_eigh : list R -> list R -> Z -> outcome (list R * list (list R)).
Variable quad_mod : list R -> list R -> R -> outcome (list R * list R).
Variable brackets : list R -> Z -> R * R -> list R -> list (list R) -> outcome (list (R * R)).

(** The loop writes only to the arrays [quad_mod] returned. *)
Lemma modify_nodes_frame (js : list nat) (x : list R) :
  forall (a b : ref) (h h' : store) (r : outcome (ref * ref)),
    modify_nodes quad_mod js x a b h = (r, h') ->
    (length h <= length h')%nat
    /\ forall q : ref, (q < length h)%nat -> load h' q = load h q.
Proof.
  induction js as [|j rest IH]; intros a b h h' r H; simpl in H.
  - injection H as <- <-. split; [lia|reflexivity].
  - destruct (nth_error x j) as [xj|]; [|injection H as <- <-; split; [lia|reflexivity]].
    destruct (quad_mod (load h a) (load h b) xj) as [[a_new b_new]| | |];
      try (injection H as <- <-; split; [lia|reflexivity]).
    unfold alloc in H.
    remember ((h ++ [a_new]) ++ [b_new]) as h2 eqn:Hh2.
    assert (Hlen : length h2 = (length h + 2)%nat)
      by (subst h2; rewrite !length_app; simpl; lia).
    assert (Hload : forall q, (q < length h)%nat -> load h2 q = load h q).
    { intros q Hq. subst h2. rewrite load_app by (rewrite length_app; simpl; lia).
      apply load_app. assumption. }
    destruct (set_first h2 (length (h ++ [a_new]))) as [r1 h3] eqn:Hset.
    assert (Hframe : length h3 = length h2
                     /\ forall q, (q < length h)%nat -> load h3 q = load h2 q).
    { split.
      - apply (set_first_frame h2 h3 (length (h ++ [a_new])) 0%nat r1); [|assumption].
        rewrite length_app. simpl. lia.
      - intros q Hq.
        apply (set_first_frame h2 h3 (length (h ++ [a_new])) q r1); [|assumption].
        rewrite length_app. simpl. lia. }
    destruct Hframe as [Hlen3 Hload3].
    destruct r1 as [[]| | |].
    + apply IH in H. destruct H as [Hle Hq]. split; [lia|].
      intros q Hlt. rewrite Hq by lia. rewrite Hload3 by assumption. apply Hload. assumption.
    + injection H as <- <-. split; [lia|].
      intros q Hlt. rewrite Hload3 by assumption. apply Hload. assumption.
    + injection H as <- <-. split; [lia|].
      intros q Hlt. rewrite Hload3 by assumption. apply Hload. assumption.
    + injection H as <- <-. split; [lia|].
      intros q Hlt. rewrite Hload3 by assumption. apply Hload. assumption.
Qed.

(** The store a call leaves is the one the loop leaves. *)
Lemma markov_stiltjies_store (u : list R) (n : nat) (a b : ref) (supp : R * R) (h : store)
  (x : list R) (v : list (list R)) :
  jacobi_eigh (load h a) (load h b) (Z.of_nat n) = Ret (x, v) ->
  (b < length h)%nat -> load h b <> [] ->
  snd (markov_stiltjies jacobi_eigh quad_mod brackets u n a b supp h)
  = snd (modify_nodes quad_mod (seq 0 n) x a b (store_at h b (1 :: tl (load h b)))).
Proof.
  intros He Hb Hne. unfold markov_stiltjies. rewrite He.
  destruct (set_first h b) as [r1 h1] eqn:Hset.
  destruct (set_first_written h h1 b r1 Hb Hne Hset) as [-> ->].
  destruct (modify_nodes quad_mod (seq 0 n) x a b _) as [[[a' b']| | |] h2]; simpl;
    try reflexivity.
  destruct (jacobi_eigh (load h2 a') (load h2 b') _) as [[y w]| | |]; reflexivity.
Qed.

(** C9.  When the first [eigh] returns and the caller's array [b] is not
    empty, the array at the address [b] holds 1 followed by its former
    entries from index 1 on when the call ends, however it ends: the caller's
    [b] is changed whenever [b[0]] was not 1.  No other array of the caller
    is written.  [quad_mod] receives the array so written: an exception it
    raises on it at the first node ends the call. *)
Theorem markov_stiltjies_writes_b (u : list R) (n : nat) (a b : ref) (supp : R * R)
  (h : store) (x : list R) (v : list (list R)) :
  jacobi_eigh (load h a) (load h b) (Z.of_nat n) = Ret (x, v) ->
  (b < length h)%nat -> load h b <> [] ->
  let written := store_at h b (1 :: tl (load h b)) in
  let h' := snd (markov_stiltjies jacobi_eigh quad_mod brackets u n a b supp h) in
  load h' b = 1 :: tl (load h b)
  /\ (hd 0 (load h b) <> 1 -> load h' b <> load h b)
  /\ (forall q : ref, q <> b -> (q < length h)%nat -> load h' q = load h q)
  /\ (forall (x0 : R) (e : exn),
        (0 < n)%nat -> nth_error x 0 = Some x0 ->
        quad_mod (load written a) (load written b) x0 = Raise e ->
        markov_stiltjies jacobi_eigh quad_mod brackets u n a b supp h = (Raise e, written)).
Proof.
  intros He Hb Hne written h'.
  assert (Hh' : h' = snd (modify_nodes quad_mod (seq 0 n) x a b written))
    by (apply markov_stiltjies_store with (v := v); assumption).
  destruct (modify_nodes quad_mod (seq 0 n) x a b written) as [r2 h2] eqn:Hm.
  simpl in Hh'.
  destruct (modify_nodes_frame (seq 0 n) x a b written h2 r2 Hm) as [_ Hframe].
  assert (Hlen : length written = length h) by apply store_at_length.
  assert (Hwb : load h' b = 1 :: tl (load h b)).
  { rewrite Hh', Hframe by lia. apply load_store_at_same. assumption. }
  split; [assumption|]. split; [|split].
  - intros Hhd Heq. rewrite Hwb in Heq.
    destruct (load h b) as [|b0 rest]; [contradiction|].
    simpl in *. congruence.
  - intros q Hq Hlt. rewrite Hh', Hframe by lia.
    apply load_store_at_other. congruence.
  - intros x0 e Hn Hx Hq. unfold markov_stiltjies. rewrite He.
    destruct (set_first h b) as [r1 h1] eqn:Hset.
    destruct (set_first_written h h1 b r1 Hb Hne Hset) as [-> ->].
    fold written.
    destruct n as [|n]; [lia|].
    destruct x as [|x1 xs]; [discriminate|]. injection Hx as ->.
    simpl. rewrite Hq. reflexivity.
Qed.

End MarkovStiltjiesFacts.

(** A call with [a = [0, 0]] and [b = [2, 3]], one node, [eigh] returning
    the node 5 and [quad_mod] returning its arguments: the caller's [b] is
    [[1, 3]] afterwards, and [a] is as it was. *)
Definition demo_eigh_list (a b : list R) (n : Z) : outcome (list R * list (list R)) :=
  Ret ([5], [[1]]).
Definition demo_quad_mod (a b : list R) (x0 : R) : outcome (list R * list R) := Ret (a, b).
Definition demo_brackets (u : list R) (N : Z) (supp : R * R) (y : list R) (v : list (list R))
  : outcome (list (R * R)) := Ret [].
Definition demo_store : store := [[0; 0]; [2; 3]].

Lemma markov_stiltjies_writes_b_witness :
  load (snd (markov_stiltjies demo_eigh_list demo_quad_mod demo_brackets
               [] 1 0%nat 1%nat (0, 1) demo_store)) 1%nat = [1; 3]
  /\ load (snd (markov_stiltjies demo_eigh_list demo_quad_mod demo_brackets
                  [] 1 0%nat 1%nat (0, 1) demo_store)) 1%nat <> load demo_store 1%nat
  /\ load (snd (markov_stiltjies demo_eigh_list demo_quad_mod demo_brackets
                  [] 1 0%nat 1%nat (0, 1) demo_store)) 0%nat = [0; 0].
Proof.
  destruct (markov_stiltjies_writes_b demo_eigh_list demo_quad_mod demo_brackets
              [] 1 0%nat 1%nat (0, 1) demo_store [5] [[1]] eq_refl)
    as [Hb [Hchanged [Hframe _]]].
  - simpl. lia.
  - simpl. discriminate.
  - split; [exact Hb|]. split.
    + apply Hchanged. simpl. lra.
    + apply (Hframe 0%nat); [discriminate|simpl; lia].
Defined.

End OpolyFacts.

(** * More facts about opoly1d.py: evaluation *)

Module EvaluationFacts.

Import Opoly1d.

(** ** Tables read through a prefix *)

Lemma alpha_firstn (T : table) (k j : nat) : (j < k)%nat -> alpha (firstn k T) j = alpha T j.
Proof.
  intros H. unfold alpha. f_equal. revert k j H.
  induction T as [|r T IH]; intros [|k] [|j] H; simpl; try reflexivity; try lia.
  apply IH. lia.
Qed.

Lemma beta_firstn (T : table) (k j : nat) : (j < k)%nat -> beta (firstn k T) j = beta T j.
Proof.
  intros H. unfold beta. f_equal. revert k j H.
  induction T as [|r T IH]; intros [|k] [|j] H; simpl; try reflexivity; try lia.
  apply IH. lia.
Qed.

Lemma p_column_0 (T : table) (x : R) : p_column T x 0 = 1 / beta T 0.
Proof. reflexivity. Qed.

Lemma p_column_1 (T : table) (x : R) :
  p_column T x 1 = 1 / beta T 1 * ((x - alpha T 1) * p_column T x 0).
Proof. reflexivity. Qed.

(** The three-term recurrence, solved for the next polynomial. *)
Lemma p_column_step (T : table) (x : R) (j : nat) :
  p_column T x (S (S j))
  = 1 / beta T (S (S j))
    * ((x - alpha T (S (S j))) * p_column T x (S j) - beta T (S j) * p_column T x j).
Proof. reflexivity. Qed.

Lemma r_column_1 (T : table) (x : R) : r_column T x 1 = 1 / beta T 1 * (x - alpha T 1).
Proof. reflexivity. Qed.

Lemma r_column_step (T : table) (x : R) (j : nat) :
  r_column T x (S (S j))
  = 1 / beta T (S (S j))
    * ((x - alpha T (S (S j))) - beta T (S j) / r_column T x (S j)).
Proof. reflexivity. Qed.

(** Columns computed from two tables that agree on the rows read. *)
Lemma p_column_ext (T U : table) (x : R) (n : nat) :
  (forall j, (j <= n)%nat -> alpha T j = alpha U j /\ beta T j = beta U j) ->
  forall j, (j <= n)%nat -> p_column T x j = p_column U x j.
Proof.
  intros H j. induction j as [j IH] using lt_wf_ind. intros Hj.
  destruct j as [|[|j]].
  - simpl. rewrite (proj2 (H 0%nat ltac:(lia))). reflexivity.
  - rewrite !p_column_1. rewrite (IH 0%nat) by lia.
    destruct (H 1%nat ltac:(lia)) as [-> ->]. reflexivity.
  - rewrite !p_column_step. rewrite (IH (S j)), (IH j) by lia.
    destruct (H (S (S j)) ltac:(lia)) as [-> ->].
    rewrite (proj2 (H (S j) ltac:(lia))). reflexivity.
Qed.

Lemma r_column_ext (T U : table) (x : R) (n : nat) :
  (forall j, (j <= n)%nat -> alpha T j = alpha U j /\ beta T j = beta U j) ->
  forall j, (j <= n)%nat -> r_column T x j = r_column U x j.
Proof.
  intros H j. induction j as [j IH] using lt_wf_ind. intros Hj.
  destruct j as [|[|j]].
  - simpl. rewrite (proj2 (H 0%nat ltac:(lia))). reflexivity.
  - rewrite !r_column_1. destruct (H 1%nat ltac:(lia)) as [-> ->]. reflexivity.
  - rewrite !r_column_step. rewrite (IH (S j)) by lia.
    destruct (H (S (S j)) ltac:(lia)) as [-> ->].
    rewrite (proj2 (H (S j) ltac:(lia))). reflexivity.
Qed.

Lemma firstn_agrees (T : table) (k n : nat) :
  (n < k)%nat ->
  forall j, (j <= n)%nat -> alpha (firstn k T) j = alpha T j /\ beta (firstn k T) j = beta T j.
Proof. intros H j Hj. split; [apply alpha_firstn|apply beta_firstn]; lia. Qed.

(** ** Ratios *)

Lemma r_column_ratio (T : table) (x : R) (n : nat) :
  (forall j, (j < n)%nat -> p_column T x j <> 0) ->
  (1 <= n)%nat ->
  r_column T x n = p_column T x n / p_column T x (n - 1).
Proof.
  intros Hp. induction n as [|n IH]; [lia|]. intros _.
  replace (S n - 1)%nat with n by lia.
  destruct n as [|n].
  - rewrite r_column_1, p_column_1. assert (H0 := Hp 0%nat ltac:(lia)).
    set (c := 1 / beta T 1). field. exact H0.
  - assert (IH' : r_column T x (S n) = p_column T x (S n) / p_column T x n).
    { rewrite IH; [|intros j Hj; apply Hp; lia|lia].
      replace (S n - 1)%nat with n by lia. reflexivity. }
    rewrite r_column_step, IH', p_column_step.
    assert (H1 := Hp (S n) ltac:(lia)). assert (H2 := Hp n ltac:(lia)).
    set (c := 1 / beta T (S (S n))). field. split; assumption.
Qed.

(** ** Calls answered from the stored table *)

Section Stored.

Variable recurrence_driver : nat -> outcome table.

Lemma recurrence_from_store (N : nat) (self : basis) :
  (N + 1 <= length (ab self))%nat ->
  recurrence recurrence_driver N self = (Ret (firstn (N + 1) (ab self)), self)
  /\ length (firstn (N + 1) (ab self)) = (N + 1)%nat.
Proof.
  intros H. split; [apply OpolyFacts.recurrence_stored; exact H|].
  apply firstn_length_le. exact H.
Qed.

Lemma r_eval_stored (x : R) (n : nat) (self : basis) :
  (n + 2 <= length (ab self))%nat ->
  r_eval recurrence_driver x n self = (Ret (r_column (ab self) x n), self).
Proof.
  intros H. unfold r_eval, mbind.
  destruct (recurrence_from_store (n + 1) self ltac:(lia)) as [-> Hlen].
  rewrite Hlen. destruct (Nat.ltb_spec n (n + 1 + 1)) as [_|Hge]; [|lia].
  unfold ret. f_equal. f_equal.
  apply (r_column_ext _ _ x n); [|lia]. apply firstn_agrees. lia.
Qed.

Lemma eval_at_stored (x : R) (n : nat) (self : basis) :
  (n + 2 <= length (ab self))%nat ->
  eval_at recurrence_driver x n self = (Ret (p_column (ab self) x n), self).
Proof.
  intros H. unfold eval_at, mbind.
  destruct (recurrence_from_store (n + 1) self ltac:(lia)) as [-> Hlen].
  rewrite Hlen. destruct (Nat.ltb_spec n (n + 1 + 1)) as [_|Hge]; [|lia].
  unfold ret. f_equal. f_equal.
  apply (p_column_ext _ _ x n); [|lia]. apply firstn_agrees. lia.
Qed.

(** [r_eval] returns the ratio of two successive values of [eval]: on an
    instance whose stored table has at least [n+2] rows, none of them with
    [beta = 0], and at a point [x] where no polynomial of degree below [n]
    vanishes, [r_eval(x, n) = eval(x, n) / eval(x, n-1)] for [n >= 1]; the
    three calls leave the instance as it is. *)
Theorem r_eval_is_ratio (x : R) (n : nat) (self : basis) :
  (1 <= n)%nat ->
  (n + 2 <= length (ab self))%nat ->
  (forall j, (j <= n)%nat -> beta (ab self) j <> 0) ->
  (forall j, (j < n)%nat -> p_column (ab self) x j <> 0) ->
  exists r p q : R,
    r_eval recurrence_driver x n self = (Ret r, self)
    /\ eval_at recurrence_driver x n self = (Ret p, self)
    /\ eval_at recurrence_driver x (n - 1) self = (Ret q, self)
    /\ q <> 0
    /\ r = p / q.
Proof.
  intros Hn Hlen Hb Hp.
  exists (r_column (ab self) x n), (p_column (ab self) x n), (p_column (ab self) x (n - 1)).
  split; [apply r_eval_stored; exact Hlen|].
  split; [apply eval_at_stored; exact Hlen|].
  split; [apply eval_at_stored; lia|].
  split; [apply Hp; lia|].
  apply r_column_ratio; assumption.
Qed.

End Stored.

(** The Chebyshev-like table with rows [(0, 1)]: [p_0 = 1], [p_1 = x],
    [p_2 = x^2 - 1]. *)
Definition unit_rows (k : nat) : basis := {| ab := repeat (0, 1) k; driver_calls := [] |}.

Lemma r_eval_is_ratio_witness :
  exists r p q : R,
    r_eval OpolyFacts.constant_driver 3 2 (unit_rows 4) = (Ret r, unit_rows 4)
    /\ eval_at OpolyFacts.constant_driver 3 2 (unit_rows 4) = (Ret p, unit_rows 4)
    /\ eval_at OpolyFacts.constant_driver 3 (2 - 1) (unit_rows 4) = (Ret q, unit_rows 4)
    /\ q <> 0
    /\ r = p / q.
Proof.
  apply (r_eval_is_ratio OpolyFacts.constant_driver 3 2 (unit_rows 4)).
  - lia.
  - simpl. lia.
  - intros j Hj. destruct j as [|[|[|j]]]; try lia; unfold beta; simpl; lra.
  - intros j Hj. destruct j as [|[|j]]; try lia.
    + rewrite p_column_0. unfold beta. simpl. lra.
    + rewrite p_column_1, p_column_0. unfold alpha, beta. simpl. lra.
Defined.

(** ** Christoffel-normalised polynomials *)

Lemma q_column_0 (T : table) (x : R) : q_column T x 0 = (1, 0, 0).
Proof. reflexivity. Qed.

Lemma q_column_1 (T : table) (x : R) :
  q_column T x 1
  = let qt := 1 / beta T 1 * (x - alpha T 1) * 1 in (qt / sqrt (1 + qt ^ 2), 1, qt).
Proof. reflexivity. Qed.

Lemma q_column_step (T : table) (x : R) (j : nat) :
  q_column T x (S (S j))
  = let '(q, q_prev, qt) := q_column T x (S j) in
    let qt := 1 / beta T (S (S j))
              * ((x - alpha T (S (S j))) * q - beta T (S j) * q_prev / sqrt (1 + qt ^ 2)) in
    (qt / sqrt (1 + qt ^ 2), q, qt).
Proof. reflexivity. Qed.

Lemma sqrt_one_plus_pos (t : R) : 0 < sqrt (1 + t ^ 2).
Proof. apply sqrt_lt_R0. nra. Qed.

Lemma normalised_bounded (t : R) : -1 < t / sqrt (1 + t ^ 2) < 1.
Proof.
  assert (Hs := sqrt_one_plus_pos t).
  assert (Hsq : sqrt (1 + t ^ 2) * sqrt (1 + t ^ 2) = 1 + t ^ 2) by (apply sqrt_sqrt; nra).
  assert (Habs : -sqrt (1 + t ^ 2) < t < sqrt (1 + t ^ 2)) by (split; nra).
  split.
  - apply (Rmult_lt_reg_r (sqrt (1 + t ^ 2))); [exact Hs|].
    unfold Rdiv. rewrite Rmult_assoc, Rinv_l by lra. lra.
  - apply (Rmult_lt_reg_r (sqrt (1 + t ^ 2))); [exact Hs|].
    unfold Rdiv. rewrite Rmult_assoc, Rinv_l by lra. lra.
Qed.

Lemma q_column_bounded (T : table) (x : R) (j : nat) :
  (1 <= j)%nat -> -1 < fst (fst (q_column T x j)) < 1.
Proof.
  intros Hj. destruct j as [|[|j]]; [lia| |].
  - rewrite q_column_1. cbv zeta. cbn [fst]. apply normalised_bounded.
  - rewrite q_column_step. destruct (q_column T x (S j)) as [[q q_prev] qt].
    cbv zeta. cbn [fst]. apply normalised_bounded.
Qed.

(** [sum(p[0:j+1]**2)] *)
Definition sum_squares (T : table) (x : R) (j : nat) : R :=
  np_sum (map (fun v => v ^ 2) (map (p_column T x) (seq 0 (j + 1)))).

Lemma np_sum_app (l1 l2 : list R) : np_sum (l1 ++ l2) = np_sum l1 + np_sum l2.
Proof.
  unfold np_sum. induction l1 as [|h t IH]; simpl; [lra|]. rewrite IH. lra.
Qed.

Lemma sum_squares_0 (T : table) (x : R) : sum_squares T x 0 = p_column T x 0 ^ 2.
Proof. unfold sum_squares, np_sum. simpl. lra. Qed.

Lemma sum_squares_S (T : table) (x : R) (j : nat) :
  sum_squares T x (S j) = sum_squares T x j + p_column T x (S j) ^ 2.
Proof.
  unfold sum_squares. replace (S j + 1)%nat with (S (j + 1)) by lia.
  rewrite seq_S, !map_app, np_sum_app. simpl.
  replace (j + 1)%nat with (S j) by lia. unfold np_sum. simpl. lra.
Qed.

Lemma sum_squares_pos (T : table) (x : R) (j : nat) :
  beta T 0 <> 0 -> 0 < sum_squares T x j.
Proof.
  intros Hb. induction j as [|j IH].
  - rewrite sum_squares_0, p_column_0.
    assert (H : 1 / beta T 0 <> 0).
    { unfold Rdiv. rewrite Rmult_1_l. apply Rinv_neq_0_compat. exact Hb. }
    nra.
  - rewrite sum_squares_S. nra.
Qed.

Lemma sqrt_one_plus_ratio (a b p : R) :
  0 < a -> 0 < b -> b * b = a * a + p * p -> sqrt (1 + (p / a) ^ 2) = b / a.
Proof.
  intros Ha Hb H.
  replace (1 + (p / a) ^ 2) with ((b / a) * (b / a)).
  - apply sqrt_square. apply Rlt_le. apply Rdiv_lt_0_compat; assumption.
  - field_simplify_eq; [|lra]. nra.
Qed.

(** The loop invariant of [qpoly1d_eval]: entry [j], entry [j-1] and the
    running [qt] in terms of the orthonormal polynomials. *)
Lemma q_column_normalised (T : table) (x : R) (j : nat) :
  0 < beta T 0 ->
  q_column T x (S j)
  = (p_column T x (S j) / sqrt (sum_squares T x (S j)),
     p_column T x j / sqrt (sum_squares T x j),
     p_column T x (S j) / sqrt (sum_squares T x j)).
Proof.
  intros Hb0.
  assert (Hpos : forall k, 0 < sqrt (sum_squares T x k)).
  { intros k. apply sqrt_lt_R0. apply sum_squares_pos. lra. }
  assert (Hsq : forall k, sqrt (sum_squares T x k) * sqrt (sum_squares T x k)
                          = sum_squares T x k).
  { intros k. apply sqrt_sqrt. apply Rlt_le. apply sum_squares_pos. lra. }
  assert (Hnext : forall k, sqrt (sum_squares T x (S k)) * sqrt (sum_squares T x (S k))
                            = sqrt (sum_squares T x k) * sqrt (sum_squares T x k)
                              + p_column T x (S k) * p_column T x (S k)).
  { intros k. rewrite !Hsq, sum_squares_S. ring. }
  induction j as [|j IH].
  - assert (Hp0 : 0 < p_column T x 0).
    { rewrite p_column_0. apply Rdiv_lt_0_compat; lra. }
    assert (Hs0 : sqrt (sum_squares T x 0) = p_column T x 0).
    { rewrite sum_squares_0. replace (p_column T x 0 ^ 2) with (p_column T x 0 * p_column T x 0)
        by ring. apply sqrt_square. lra. }
    assert (Hqt : 1 / beta T 1 * (x - alpha T 1) * 1 = p_column T x 1 / sqrt (sum_squares T x 0)).
    { rewrite Hs0, p_column_1. set (c := 1 / beta T 1). field. lra. }
    rewrite q_column_1. cbv zeta. rewrite Hqt.
    rewrite (sqrt_one_plus_ratio _ (sqrt (sum_squares T x 1)) _ (Hpos 0%nat) (Hpos 1%nat)
               (Hnext 0%nat)).
    apply f_equal2; [apply f_equal2|]; try reflexivity.
    + field. split; apply Rgt_not_eq; apply Hpos.
    + rewrite Hs0. field. lra.
  - rewrite q_column_step, IH. cbv zeta.
    rewrite (sqrt_one_plus_ratio _ (sqrt (sum_squares T x (S j))) _ (Hpos j) (Hpos (S j))
               (Hnext j)).
    assert (Hqt : 1 / beta T (S (S j))
                  * ((x - alpha T (S (S j))) * (p_column T x (S j) / sqrt (sum_squares T x (S j)))
                     - beta T (S j) * (p_column T x j / sqrt (sum_squares T x j))
                       / (sqrt (sum_squares T x (S j)) / sqrt (sum_squares T x j)))
                  = p_column T x (S (S j)) / sqrt (sum_squares T x (S j))).
    { rewrite p_column_step. set (c := 1 / beta T (S (S j))). field.
      split; apply Rgt_not_eq; apply Hpos. }
    rewrite Hqt.
    rewrite (sqrt_one_plus_ratio _ (sqrt (sum_squares T x (S (S j)))) _ (Hpos (S j))
               (Hpos (S (S j))) (Hnext (S j))).
    apply f_equal2; [apply f_equal2|]; try reflexivity.
    field. split; apply Rgt_not_eq; apply Hpos.
Qed.

Section Normalised.

Variable recurrence_driver : nat -> outcome table.

Lemma qpoly1d_eval_last_run (x : R) (n : nat) (self self' : basis) (T : table) :
  (1 <= n)%nat ->
  recurrence recurrence_driver (n - 1) self = (Ret T, self') ->
  (n <= length T)%nat ->
  qpoly1d_eval_last recurrence_driver x n self = (Ret (fst (fst (q_column T x (n - 1)))), self').
Proof.
  intros Hn Hrec Hlen. unfold qpoly1d_eval_last, mbind.
  destruct (Nat.eqb_spec n 0) as [->|_]; [lia|].
  rewrite Hrec.
  destruct (Nat.ltb_spec (length T) n) as [Hlt|_]; [lia|].
  rewrite andb_false_r. reflexivity.
Qed.

(** The entries of [qpoly1d_eval] beyond the first lie strictly between -1
    and 1, and the first is 1: when [self.recurrence(n-1)] returns a table of
    at least [n] rows whose [beta_1 .. beta_(n-1)] are not 0,
    [qpoly1d_eval(x, n)[0,-1]] is 1 for [n = 1] and in (-1, 1) for
    [n >= 2]. *)
Theorem qpoly1d_eval_bounded (x : R) (n : nat) (self self' : basis) (T : table) :
  (1 <= n)%nat ->
  recurrence recurrence_driver (n - 1) self = (Ret T, self') ->
  (n <= length T)%nat ->
  (forall j, (1 <= j < n)%nat -> beta T j <> 0) ->
  exists q : R,
    qpoly1d_eval_last recurrence_driver x n self = (Ret q, self')
    /\ (n = 1%nat -> q = 1)
    /\ ((2 <= n)%nat -> -1 < q < 1).
Proof.
  intros Hn Hrec Hlen _. exists (fst (fst (q_column T x (n - 1)))).
  split; [apply qpoly1d_eval_last_run; assumption|]. split.
  - intros ->. reflexivity.
  - intros H2. apply q_column_bounded. lia.
Qed.

(** [qpoly1d_eval] normalises the orthonormal polynomials by the square root
    of the running sum of their squares: when [self.recurrence(n-1)] returns
    a table [T] of at least [n] rows with [beta_0 > 0] and
    [beta_1 .. beta_(n-1)] not 0, [qpoly1d_eval(x, n)[0,-1]] is
    [p_(n-1)(x) / sqrt(p_0(x)^2 + ... + p_(n-1)(x)^2)], with [p_j] the
    columns of [eval] on [T]. *)
Theorem qpoly1d_eval_normalised (x : R) (n : nat) (self self' : basis) (T : table) :
  (1 <= n)%nat ->
  recurrence recurrence_driver (n - 1) self = (Ret T, self') ->
  (n <= length T)%nat ->
  0 < beta T 0 ->
  (forall j, (1 <= j < n)%nat -> beta T j <> 0) ->
  qpoly1d_eval_last recurrence_driver x n self
  = (Ret (p_column T x (n - 1)
          / sqrt (np_sum (map (fun v => v ^ 2) (map (p_column T x) (seq 0 n))))), self').
Proof.
  intros Hn Hrec Hlen Hb0 _.
  rewrite (qpoly1d_eval_last_run x n self self' T Hn Hrec Hlen).
  f_equal. f_equal.
  replace n with (n - 1 + 1)%nat at 3 by lia. fold (sum_squares T x (n - 1)).
  destruct n as [|[|n]]; [lia| |].
  - cbn [Nat.sub]. rewrite q_column_0. cbn [fst].
    rewrite sum_squares_0.
    assert (Hp0 : 0 < p_column T x 0) by (rewrite p_column_0; apply Rdiv_lt_0_compat; lra).
    replace (p_column T x 0 ^ 2) with (p_column T x 0 * p_column T x 0) by ring.
    rewrite sqrt_square by lra. field. lra.
  - replace (S (S n) - 1)%nat with (S n) by lia.
    rewrite q_column_normalised by exact Hb0. reflexivity.
Qed.

(** [christoffel_function(x, k)] for [k >= 1]: when [self.recurrence(k)]
    returns a table of at least [k] rows with no [beta_j = 0], [j < k], the
    value [lam] returned is positive and [lam^2 * sum(p_j(x)^2, j < k) = k];
    the sum is never 0. *)
Theorem christoffel_function_normalises (x : R) (k : nat) (self self' : basis) (T : table) :
  (1 <= k)%nat ->
  recurrence recurrence_driver k self = (Ret T, self') ->
  (k <= length T)%nat ->
  (forall j, (j < k)%nat -> beta T j <> 0) ->
  exists lam : R,
    christoffel_function recurrence_driver x k self = (Ret lam, self')
    /\ 0 < lam
    /\ lam ^ 2 * np_sum (map (fun v => v ^ 2) (map (p_column T x) (seq 0 k))) = INR k.
Proof.
  intros Hk Hrec Hlen Hb.
  assert (Hs : 0 < np_sum (map (fun v => v ^ 2) (map (p_column T x) (seq 0 k)))).
  { replace k with (k - 1 + 1)%nat at 1 by lia. fold (sum_squares T x (k - 1)).
    apply sum_squares_pos. apply Hb. lia. }
  set (s := np_sum (map (fun v => v ^ 2) (map (p_column T x) (seq 0 k)))) in *.
  assert (Hq : 0 < INR k / s).
  { apply Rdiv_lt_0_compat; [apply lt_0_INR; lia|exact Hs]. }
  exists (sqrt (INR k / s)). split; [|split].
  - unfold christoffel_function, eval_range, mbind.
    destruct (Nat.eqb_spec k 0) as [->|_]; [lia|].
    replace (k - 1 + 1)%nat with k by lia. rewrite Hrec.
    destruct (Nat.ltb_spec (k - 1) (length T)) as [_|Hge]; [|lia].
    unfold ret. fold s.
    unfold Reqb. destruct (Req_dec_T s 0) as [E|_]; [lra|].
    unfold lift, np_sqrt. rewrite Rltb_false by lra. reflexivity.
  - apply sqrt_lt_R0. exact Hq.
  - replace (sqrt (INR k / s) ^ 2) with (sqrt (INR k / s) * sqrt (INR k / s)) by ring.
    rewrite sqrt_sqrt by lra. field. lra.
Qed.

End Normalised.

Lemma constant_driver_first (N : nat) :
  recurrence OpolyFacts.constant_driver N init
  = (Ret (repeat (0, 1) (N + 1)),
     {| ab := repeat (0, 1) (N + 1); driver_calls := [N] |}).
Proof.
  apply (OpolyFacts.recurrence_extends OpolyFacts.constant_driver N init); [simpl; lia|].
  reflexivity.
Qed.

Lemma repeat_beta (k j : nat) : (j < k)%nat -> beta (repeat (0, 1) k) j = 1.
Proof.
  unfold beta. revert j. induction k as [|k IH]; intros [|j] H; simpl; try lia; try reflexivity.
  apply IH. lia.
Qed.

Lemma qpoly1d_eval_bounded_witness :
  exists q : R,
    qpoly1d_eval_last OpolyFacts.constant_driver 3 2 init
    = (Ret q, {| ab := repeat (0, 1) 2; driver_calls := [1%nat] |})
    /\ (2%nat = 1%nat -> q = 1)
    /\ ((2 <= 2)%nat -> -1 < q < 1).
Proof.
  apply (qpoly1d_eval_bounded OpolyFacts.constant_driver 3 2 init _ (repeat (0, 1) 2)).
  - lia.
  - exact (constant_driver_first 1).
  - simpl. lia.
  - intros j Hj. rewrite repeat_beta by lia. lra.
Defined.

Lemma qpoly1d_eval_normalised_witness :
  qpoly1d_eval_last OpolyFacts.constant_driver 3 2 init
  = (Ret (p_column (repeat (0, 1) 2) 3 (2 - 1)
          / sqrt (np_sum (map (fun v => v ^ 2)
                            (map (p_column (repeat (0, 1) 2) 3) (seq 0 2))))),
     {| ab := repeat (0, 1) 2; driver_calls := [1%nat] |}).
Proof.
  apply (qpoly1d_eval_normalised OpolyFacts.constant_driver 3 2 init _ (repeat (0, 1) 2)).
  - lia.
  - exact (constant_driver_first 1).
  - simpl. lia.
  - rewrite repeat_beta by lia. lra.
  - intros j Hj. rewrite repeat_beta by lia. lra.
Defined.

Lemma christoffel_function_normalises_witness :
  exists lam : R,
    christoffel_function OpolyFacts.constant_driver 3 2 init
    = (Ret lam, {| ab := repeat (0, 1) 3; driver_calls := [2%nat] |})
    /\ 0 < lam
    /\ lam ^ 2 * np_sum (map (fun v => v ^ 2) (map (p_column (repeat (0, 1) 3) 3) (seq 0 2)))
       = INR 2.
Proof.
  apply (christoffel_function_normalises OpolyFacts.constant_driver 3 2 init _
           (repeat (0, 1) 3)).
  - lia.
  - exact (constant_driver_first 2).
  - simpl. lia.
  - intros j Hj. rewrite repeat_beta by lia. lra.
Defined.

(** ** Finite sums *)

(** [sum(f(j) for j in range(m))] *)
Definition sum_range (f : nat -> R) (m : nat) : R := np_sum (map f (seq 0 m)).

Lemma sum_range_0 (f : nat -> R) : sum_range f 0 = 0.
Proof. reflexivity. Qed.

Lemma sum_range_S (f : nat -> R) (m : nat) : sum_range f (S m) = sum_range f m + f m.
Proof.
  unfold sum_range. rewrite seq_S, map_app, np_sum_app. unfold np_sum. simpl. lra.
Qed.

Lemma sum_range_ext (f g : nat -> R) (m : nat) :
  (forall j, (j < m)%nat -> f j = g j) -> sum_range f m = sum_range g m.
Proof.
  induction m as [|m IH]; intros H; [reflexivity|].
  rewrite !sum_range_S, IH, (H m) by (try lia; intros j Hj; apply H; lia). reflexivity.
Qed.

Lemma sum_range_plus (f g : nat -> R) (m : nat) :
  sum_range (fun j => f j + g j) m = sum_range f m + sum_range g m.
Proof.
  induction m as [|m IH]; [rewrite !sum_range_0; lra|]. rewrite !sum_range_S, IH. lra.
Qed.

Lemma sum_range_scal (c : R) (f : nat -> R) (m : nat) :
  sum_range (fun j => c * f j) m = c * sum_range f m.
Proof.
  induction m as [|m IH]; [rewrite !sum_range_0; lra|]. rewrite !sum_range_S, IH. lra.
Qed.

Lemma sum_range_zero (f : nat -> R) (m : nat) :
  (forall j, (j < m)%nat -> f j = 0) -> sum_range f m = 0.
Proof.
  induction m as [|m IH]; intros H; [reflexivity|].
  rewrite sum_range_S, IH, (H m) by (try lia; intros j Hj; apply H; lia). lra.
Qed.

Lemma sum_range_tail (f : nat -> R) (m k : nat) :
  (forall j, (m <= j < m + k)%nat -> f j = 0) -> sum_range f (m + k) = sum_range f m.
Proof.
  induction k as [|k IH]; intros H; [f_equal; lia|].
  replace (m + S k)%nat with (S (m + k)) by lia.
  rewrite sum_range_S, IH, (H (m + k)%nat) by (try lia; intros j Hj; apply H; lia). lra.
Qed.

(** Reindexing: a sum over [j >= 1] of terms in [j - 1]. *)
Lemma sum_range_shift (h : nat -> R) (m : nat) :
  sum_range (fun j => if (0 <? j)%nat then h (j - 1)%nat else 0) (S m) = sum_range h m.
Proof.
  induction m as [|m IH].
  - unfold sum_range, np_sum. simpl. lra.
  - rewrite sum_range_S, IH, sum_range_S. cbn [Nat.ltb Nat.leb].
    replace (S m - 1)%nat with m by lia. reflexivity.
Qed.

(** A sum whose last term is left out. *)
Lemma sum_range_cut (h : nat -> R) (m : nat) :
  sum_range (fun i => if (i <? m)%nat then h i else 0) (S m) = sum_range h m.
Proof.
  rewrite sum_range_S. rewrite Nat.ltb_irrefl.
  rewrite (sum_range_ext _ h); [lra|].
  intros j Hj. destruct (Nat.ltb_spec j m); [reflexivity|lia].
Qed.

(** ** Arrays assigned by index *)

Lemma assign_length {A : Type} (l : list A) (i : nat) (v : A) :
  length (assign l i v) = length l.
Proof.
  revert i. induction l as [|h t IH]; intros [|i]; simpl; try reflexivity.
  rewrite IH. reflexivity.
Qed.

Lemma nth_assign_same {A : Type} (l : list A) (i : nat) (v d : A) :
  (i < length l)%nat -> nth i (assign l i v) d = v.
Proof.
  revert i. induction l as [|h t IH]; intros [|i] H; simpl in *; try lia; try reflexivity.
  apply IH. lia.
Qed.

Lemma nth_assign_other {A : Type} (l : list A) (i j : nat) (v d : A) :
  i <> j -> nth j (assign l i v) d = nth j l d.
Proof.
  revert i j. induction l as [|h t IH]; intros [|i] [|j] H; simpl; try reflexivity.
  - contradiction.
  - apply IH. congruence.
Qed.

Lemma nth_repeat_zero (m j : nat) : nth j (repeat 0 m) 0 = 0.
Proof.
  revert j. induction m as [|m IH]; intros [|j]; simpl; try reflexivity. apply IH.
Qed.

(** Entries assigned one by one from values that do not depend on the row. *)
Lemma fold_assign_length (f : nat -> R) (js : list nat) (row : list R) :
  length (fold_left (fun row j => assign row j (f j)) js row) = length row.
Proof.
  revert row. induction js as [|j js IH]; intros row; simpl; [reflexivity|].
  rewrite IH. apply assign_length.
Qed.

Lemma nth_fold_assign (f : nat -> R) (js : list nat) (row : list R) (j : nat) :
  (j < length row)%nat ->
  nth j (fold_left (fun row j => assign row j (f j)) js row) 0
  = if in_dec Nat.eq_dec j js then f j else nth j row 0.
Proof.
  revert row. induction js as [|i js IH]; intros row Hj; simpl; [reflexivity|].
  rewrite IH by (rewrite assign_length; exact Hj).
  destruct (Nat.eq_dec i j) as [->|Hne].
  - destruct (in_dec Nat.eq_dec j js); [reflexivity|].
    apply nth_assign_same. exact Hj.
  - destruct (in_dec Nat.eq_dec j js); [reflexivity|].
    apply nth_assign_other. exact Hne.
Qed.

(** ** [canonical_connection] *)

(** The coefficient of [x^j] in the polynomial [p_n] of the recurrence. *)
Fixpoint coefficient (T : table) (n j : nat) : R :=
  match n with
  | O => if (j =? 0)%nat then 1 / beta T 0 else 0
  | S n' =>
      match n' with
      | O =>
          match j with
          | O => - alpha T 1 * (1 / beta T 0) / beta T 1
          | S O => 1 / beta T 0 / beta T 1
          | S (S _) => 0
          end
      | S n'' =>
          ((if (0 <? j)%nat then coefficient T n' (j - 1) else 0)
           - alpha T n * coefficient T n' j - beta T n' * coefficient T n'' j) / beta T n
      end
  end.

Lemma coefficient_step (T : table) (n j : nat) :
  coefficient T (S (S n)) j
  = ((if (0 <? j)%nat then coefficient T (S n) (j - 1) else 0)
     - alpha T (S (S n)) * coefficient T (S n) j - beta T (S n) * coefficient T n j)
    / beta T (S (S n)).
Proof. reflexivity. Qed.

Lemma coefficient_above (T : table) (n : nat) :
  forall j, (n < j)%nat -> coefficient T n j = 0.
Proof.
  induction n as [n IH] using lt_wf_ind. intros j Hj.
  destruct n as [|[|n]].
  - simpl. destruct (Nat.eqb_spec j 0); [lia|reflexivity].
  - destruct j as [|[|j]]; try lia. reflexivity.
  - rewrite coefficient_step.
    destruct (Nat.ltb_spec 0 j) as [_|H0]; [|lia].
    rewrite (IH (S n)), (IH (S n)), (IH n) by lia.
    unfold Rdiv. ring.
Qed.

Lemma coefficient_sum (T : table) (x : R) (n : nat) :
  sum_range (fun j => coefficient T n j * x ^ j) (S n) = p_column T x n.
Proof.
  induction n as [n IH] using lt_wf_ind.
  destruct n as [|[|n]].
  - rewrite p_column_0. unfold sum_range, np_sum. simpl. lra.
  - rewrite p_column_1, p_column_0. unfold sum_range, np_sum. simpl. unfold Rdiv. ring.
  - rewrite p_column_step, <- (IH (S n)), <- (IH n) by lia.
    rewrite (sum_range_ext _
               (fun j => 1 / beta T (S (S n))
                         * ((if (0 <? j)%nat
                             then x * (coefficient T (S n) (j - 1) * x ^ (j - 1)) else 0)
                            + (- alpha T (S (S n)) * (coefficient T (S n) j * x ^ j)
                               + - beta T (S n) * (coefficient T n j * x ^ j))))).
    + assert (H1 : sum_range (fun j => coefficient T (S n) j * x ^ j) (S (S (S n)))
                   = sum_range (fun j => coefficient T (S n) j * x ^ j) (S (S n))).
      { replace (S (S (S n))) with (S (S n) + 1)%nat by lia. apply sum_range_tail.
        intros j Hj. rewrite coefficient_above by lia. ring. }
      assert (H0 : sum_range (fun j => coefficient T n j * x ^ j) (S (S (S n)))
                   = sum_range (fun j => coefficient T n j * x ^ j) (S n)).
      { replace (S (S (S n))) with (S n + 2)%nat by lia. apply sum_range_tail.
        intros j Hj. rewrite coefficient_above by lia. ring. }
      rewrite sum_range_scal, sum_range_plus, sum_range_plus, !sum_range_scal.
      rewrite (sum_range_shift (fun i => x * (coefficient T (S n) i * x ^ i))).
      rewrite sum_range_scal, H1, H0. ring.
    + intros j Hj. rewrite coefficient_step.
      destruct (Nat.ltb_spec 0 j) as [H0|H0].
      * replace (x ^ j) with (x * x ^ (j - 1)).
        -- unfold Rdiv. ring.
        -- replace j with (S (j - 1)) at 2 by lia. reflexivity.
      * unfold Rdiv. ring.
Qed.

(** The matrix [C] while it is filled: [N] rows of [N] entries, rows 0 to
    [m] holding the coefficients, the rows below still zero. *)
Definition filled (T : table) (N m : nat) (C : list (list R)) : Prop :=
  length C = N
  /\ (forall n, (n < N)%nat -> length (nth n C []) = N)
  /\ (forall n j, (n < N)%nat -> (j < N)%nat ->
        nth j (nth n C []) 0 = if (n <=? m)%nat then coefficient T n j else 0).

Lemma nth_repeat_row (N n : nat) : (n < N)%nat -> nth n (repeat (repeat 0 N) N) [] = repeat 0 N.
Proof.
  intros H. generalize (repeat 0 N) as row. intros row.
  revert n H. induction N as [|N IH]; intros [|n] H; simpl; try lia; try reflexivity.
  apply IH. lia.
Qed.

Lemma filled_first_two (T : table) (N : nat) :
  let C00 := 1 / beta T 0 in
  let C := repeat (repeat 0 (S (S N))) (S (S N)) in
  let C := assign C 0 (assign (nth 0 C []) 0 C00) in
  let C := assign C 1 (assign (nth 1 C []) 1 (C00 / beta T 1)) in
  let C := assign C 1 (assign (nth 1 C []) 0 (- alpha T 1 * C00 / beta T 1)) in
  filled T (S (S N)) 1 C.
Proof.
  cbv zeta. set (M := S (S N)). set (Z := repeat (repeat 0 M) M).
  assert (HZ : forall n, (n < M)%nat -> nth n Z [] = repeat 0 M)
    by (intros n Hn; apply nth_repeat_row; exact Hn).
  assert (HlenZ : length Z = M) by apply repeat_length.
  set (C1 := assign Z 0 (assign (nth 0 Z []) 0 (1 / beta T 0))).
  set (C2 := assign C1 1 (assign (nth 1 C1 []) 1 (1 / beta T 0 / beta T 1))).
  assert (H1n : forall n, nth n C1 [] = if (n =? 0)%nat
                                        then assign (repeat 0 M) 0 (1 / beta T 0)
                                        else nth n Z []).
  { intros n. unfold C1. destruct (Nat.eqb_spec n 0) as [->|Hn].
    - rewrite nth_assign_same by (unfold M in *; lia). rewrite HZ by (unfold M; lia).
      reflexivity.
    - apply nth_assign_other. lia. }
  assert (H2n : forall n, nth n C2 [] = if (n =? 1)%nat
                                        then assign (repeat 0 M) 1 (1 / beta T 0 / beta T 1)
                                        else nth n C1 []).
  { intros n. unfold C2. destruct (Nat.eqb_spec n 1) as [->|Hn].
    - rewrite nth_assign_same by (unfold C1; rewrite assign_length; unfold M in *; lia).
      rewrite H1n. cbn [Nat.eqb]. rewrite HZ by (unfold M; lia). reflexivity.
    - apply nth_assign_other. lia. }
  assert (Hrow : forall n, nth n (assign C2 1 (assign (nth 1 C2 []) 0
                                                (- alpha T 1 * (1 / beta T 0) / beta T 1))) []
                 = if (n =? 1)%nat
                   then assign (assign (repeat 0 M) 1 (1 / beta T 0 / beta T 1)) 0
                          (- alpha T 1 * (1 / beta T 0) / beta T 1)
                   else nth n C2 []).
  { intros n. destruct (Nat.eqb_spec n 1) as [->|Hn].
    - rewrite nth_assign_same
        by (unfold C2, C1; rewrite !assign_length; unfold M in *; lia).
      rewrite H2n. reflexivity.
    - apply nth_assign_other. lia. }
  split; [|split].
  - rewrite !assign_length. exact HlenZ.
  - intros n Hn. rewrite Hrow. destruct (Nat.eqb_spec n 1) as [->|Hn1].
    + rewrite !assign_length. apply repeat_length.
    + rewrite H2n. destruct (Nat.eqb_spec n 1); [lia|]. rewrite H1n.
      destruct (Nat.eqb_spec n 0) as [->|Hn0].
      * rewrite assign_length. apply repeat_length.
      * rewrite HZ by exact Hn. apply repeat_length.
  - intros n j Hn Hj. rewrite Hrow. destruct (Nat.eqb_spec n 1) as [->|Hn1].
    + cbn [Nat.leb]. destruct j as [|[|j]].
      * rewrite nth_assign_same by (rewrite assign_length, repeat_length; exact Hj).
        reflexivity.
      * rewrite nth_assign_other by lia.
        rewrite nth_assign_same by (rewrite repeat_length; exact Hj). reflexivity.
      * rewrite !nth_assign_other by lia. apply nth_repeat_zero.
    + rewrite H2n. destruct (Nat.eqb_spec n 1); [lia|]. rewrite H1n.
      destruct (Nat.eqb_spec n 0) as [->|Hn0].
      * cbn [Nat.leb]. destruct j as [|j].
        -- rewrite nth_assign_same by (rewrite repeat_length; exact Hj). reflexivity.
        -- rewrite nth_assign_other by lia. rewrite nth_repeat_zero. reflexivity.
      * rewrite HZ by exact Hn. rewrite nth_repeat_zero.
        destruct (Nat.leb_spec n 1); [lia|reflexivity].
Qed.

Lemma nth_map_zero (g : R -> R) (l : list R) (j : nat) :
  (j < length l)%nat -> nth j (map g l) 0 = g (nth j l 0).
Proof.
  intros H. rewrite (nth_indep _ 0 (g 0)) by (rewrite length_map; exact H).
  apply map_nth.
Qed.

Lemma filled_step (T : table) (N m : nat) (C : list (list R)) :
  filled T N m C -> (1 <= m)%nat -> (m + 1 < N)%nat ->
  filled T N (m + 1) (connection_step T m C).
Proof.
  intros [HlenC [Hrows Hent]] Hm HmN. unfold connection_step.
  set (Cn := nth m C []). set (Cp := nth (m - 1) C []). set (row := nth (m + 1) C []).
  set (e0 := - alpha T (m + 1) * nth 0 Cn 0 - beta T m * nth 0 Cp 0).
  set (en := nth (m - 1) Cn 0 - alpha T (m + 1) * nth m Cn 0).
  set (f := fun j => nth (j - 1) Cn 0 - alpha T (m + 1) * nth j Cn 0 - beta T m * nth j Cp 0).
  set (row3 := assign (assign (assign row 0 e0) m en) (m + 1) (nth m Cn 0)).
  set (row4 := fold_left (fun row j => assign row j (f j)) (seq 1 (m - 1)) row3).
  assert (Hlenrow : length row = N) by (apply Hrows; lia).
  assert (Hrow0 : forall j, (j < N)%nat -> nth j row 0 = 0).
  { intros j Hj. unfold row. rewrite Hent by lia.
    destruct (Nat.leb_spec (m + 1) m); [lia|reflexivity]. }
  assert (HCn : forall j, (j < N)%nat -> nth j Cn 0 = coefficient T m j).
  { intros j Hj. unfold Cn. rewrite Hent by lia. rewrite Nat.leb_refl. reflexivity. }
  assert (HCp : forall j, (j < N)%nat -> nth j Cp 0 = coefficient T (m - 1) j).
  { intros j Hj. unfold Cp. rewrite Hent by lia.
    destruct (Nat.leb_spec (m - 1) m); [reflexivity|lia]. }
  assert (Hlen3 : length row3 = N) by (unfold row3; rewrite !assign_length; exact Hlenrow).
  assert (Hlen4 : length row4 = N) by (unfold row4; rewrite fold_assign_length; exact Hlen3).
  assert (Hnew : forall j, (j < N)%nat ->
                   nth j (map (fun c => c / beta T (m + 1)) row4) 0
                   = coefficient T (m + 1) j).
  { intros j Hj. rewrite nth_map_zero by lia.
    unfold row4. rewrite nth_fold_assign by lia.
    replace (m + 1)%nat with (S (S (m - 1))) at 2 by lia. rewrite coefficient_step.
    replace (S (S (m - 1))) with (m + 1)%nat by lia.
    replace (S (m - 1)) with m by lia.
    destruct (in_dec Nat.eq_dec j (seq 1 (m - 1))) as [Hin|Hnin].
    - apply in_seq in Hin. unfold f. rewrite !HCn, HCp by lia.
      destruct (Nat.ltb_spec 0 j); [reflexivity|lia].
    - assert (Hout : j = 0%nat \/ (m <= j)%nat).
      { destruct (Nat.eq_dec j 0); [left; assumption|right].
        destruct (Nat.le_gt_cases m j); [assumption|].
        exfalso. apply Hnin. apply in_seq. lia. }
      unfold row3. destruct Hout as [->|Hge].
      + rewrite !nth_assign_other by lia.
        rewrite nth_assign_same by lia. unfold e0. rewrite HCn, HCp by lia.
        cbn [Nat.ltb Nat.leb]. unfold Rdiv. ring.
      + destruct (Nat.ltb_spec 0 j) as [_|H0]; [|lia].
        destruct (Nat.eq_dec j m) as [->|Hjm].
        * rewrite nth_assign_other by lia.
          rewrite nth_assign_same by (rewrite assign_length; lia).
          unfold en. rewrite !HCn by lia.
          rewrite (coefficient_above T (m - 1) m) by lia. unfold Rdiv. ring.
        * destruct (Nat.eq_dec j (m + 1)) as [->|Hjm1].
          -- rewrite nth_assign_same by (rewrite !assign_length; lia).
             rewrite HCn by lia. replace (m + 1 - 1)%nat with m by lia.
             rewrite (coefficient_above T m (m + 1)), (coefficient_above T (m - 1) (m + 1))
               by lia.
             unfold Rdiv. ring.
          -- rewrite !nth_assign_other by lia. rewrite Hrow0 by lia.
             rewrite (coefficient_above T m (j - 1)), (coefficient_above T m j),
               (coefficient_above T (m - 1) j) by lia.
             unfold Rdiv. ring. }
  split; [|split].
  - rewrite assign_length. exact HlenC.
  - intros n Hn. destruct (Nat.eq_dec n (m + 1)) as [->|Hne].
    + rewrite nth_assign_same by lia. rewrite length_map. exact Hlen4.
    + rewrite nth_assign_other by lia. apply Hrows. exact Hn.
  - intros n j Hn Hj. destruct (Nat.eq_dec n (m + 1)) as [->|Hne].
    + rewrite nth_assign_same by lia. rewrite Nat.leb_refl. apply Hnew. exact Hj.
    + rewrite nth_assign_other by lia. rewrite Hent by assumption.
      destruct (Nat.leb_spec n m), (Nat.leb_spec n (m + 1)); try reflexivity; lia.
Qed.

Lemma filled_loop (T : table) (N k : nat) (C : list (list R)) :
  filled T N 1 C -> (k + 1 < N)%nat ->
  filled T N (k + 1) (fold_left (fun C n => connection_step T n C) (seq 1 k) C).
Proof.
  intros H0. induction k as [|k IH]; intros Hk; [exact H0|].
  rewrite seq_S, fold_left_app. cbn [fold_left].
  replace (S k + 1)%nat with ((1 + k) + 1)%nat by lia.
  apply filled_step; [|lia|lia].
  replace (1 + k)%nat with (k + 1)%nat by lia. apply IH. lia.
Qed.

(** The entries of the matrix [canonical_connection] returns. *)
Lemma canonical_connection_rows_entries (T : table) (N n j : nat) :
  (n < N)%nat -> (j < N)%nat ->
  nth j (nth n (canonical_connection_rows T N) []) 0 = coefficient T n j.
Proof.
  intros Hn Hj. destruct N as [|[|N]]; [lia| |].
  - assert (n = 0%nat) by lia. assert (j = 0%nat) by lia. subst. reflexivity.
  - assert (H : filled T (S (S N)) (N + 1) (canonical_connection_rows T (S (S N)))).
    { unfold canonical_connection_rows.
      replace (S (S N) - 2)%nat with N by lia.
      apply filled_loop; [apply filled_first_two|lia]. }
    destruct H as [_ [_ Hent]]. rewrite Hent by assumption.
    destruct (Nat.leb_spec n (N + 1)); [reflexivity|lia].
Qed.

Lemma canonical_connection_rows_shape (T : table) (N n : nat) :
  length (canonical_connection_rows T N) = N
  /\ ((n < N)%nat -> length (nth n (canonical_connection_rows T N) []) = N).
Proof.
  destruct N as [|[|N]].
  - split; [reflexivity|lia].
  - split; [reflexivity|]. intros H. assert (n = 0%nat) by lia. subst. reflexivity.
  - assert (H : filled T (S (S N)) (N + 1) (canonical_connection_rows T (S (S N)))).
    { unfold canonical_connection_rows.
      replace (S (S N) - 2)%nat with N by lia.
      apply filled_loop; [apply filled_first_two|lia]. }
    destruct H as [Hlen [Hrows _]]. split; [exact Hlen|apply Hrows].
Qed.

Lemma coefficient_diagonal (T : table) (n : nat) :
  coefficient T (S n) (S n) = coefficient T n n * (1 / beta T (S n)).
Proof.
  destruct n as [|n].
  - simpl. unfold Rdiv. ring.
  - rewrite coefficient_step. cbn [Nat.ltb Nat.leb].
    replace (S (S n) - 1)%nat with (S n) by lia.
    rewrite (coefficient_above T (S n) (S (S n))), (coefficient_above T n (S (S n))) by lia.
    unfold Rdiv. ring.
Qed.

Lemma cumprod_from_length (acc : R) (l : list R) : length (cumprod_from acc l) = length l.
Proof.
  revert acc. induction l as [|h t IH]; intros acc; simpl; [reflexivity|].
  rewrite IH. reflexivity.
Qed.

Lemma cumprod_from_next (l : list R) :
  forall (acc : R) (n : nat), (S n < length l)%nat ->
    nth (S n) (cumprod_from acc l) 0 = nth n (cumprod_from acc l) 0 * nth (S n) l 0.
Proof.
  induction l as [|h t IH]; intros acc n H; simpl in H; [lia|].
  destruct n as [|n].
  - destruct t as [|h' t]; simpl in *; [lia|reflexivity].
  - cbn [cumprod_from nth]. apply IH. lia.
Qed.

Lemma leading_coefficient_entries (T : table) (n : nat) :
  (n < length T)%nat ->
  nth n (np_cumprod (map (fun r => 1 / snd r) T)) 0 = coefficient T n n.
Proof.
  induction n as [|n IH]; intros H.
  - destruct T as [|r T]; simpl in H; [lia|].
    unfold np_cumprod. simpl. unfold beta. simpl. lra.
  - unfold np_cumprod in *. rewrite cumprod_from_next by (rewrite length_map; exact H).
    rewrite IH by lia. rewrite coefficient_diagonal. f_equal.
    unfold beta. rewrite (nth_indep _ 0 (1 / snd (0, 0))) by (rewrite length_map; exact H).
    rewrite (map_nth (fun r => 1 / snd r)). reflexivity.
Qed.

Section Connection.

Variable recurrence_driver : nat -> outcome table.

(** A call repeated on the instance it left finds the table stored. *)
Lemma recurrence_again (N : nat) (self self' : basis) (T : table) :
  recurrence recurrence_driver N self = (Ret T, self') ->
  length T = (N + 1)%nat ->
  recurrence recurrence_driver N self' = (Ret T, self').
Proof.
  unfold recurrence. intros H Hlen.
  destruct (Nat.ltb_spec (length (ab self)) (N + 1)) as [Hlt|Hge].
  - destruct (recurrence_driver N) as [t| | |]; try discriminate.
    injection H as <- <-. cbn [ab].
    destruct (Nat.ltb_spec (length t) (N + 1)) as [Hlt'|_]; [lia|].
    rewrite <- Hlen, firstn_all. reflexivity.
  - injection H as <- <-.
    destruct (Nat.ltb_spec (length (ab self)) (N + 1)) as [Hlt'|_]; [lia|]. reflexivity.
Qed.

(** Row [n] of [canonical_connection(N)] holds the coefficients of [p_n] in
    the monomial basis: when [self.recurrence(N)] returns a table [T] of at
    least [N] rows with no [beta_j = 0], [j < N], the call returns an
    [N x N] matrix [C] with [sum(C[n,j] * x^j, j < N) = p_n(x)] for every
    [n < N] and every [x], [p_n] being the column [n] of [eval] on [T]. *)
Theorem canonical_connection_expands (N : nat) (self self' : basis) (T : table) :
  recurrence recurrence_driver N self = (Ret T, self') ->
  (N <= length T)%nat ->
  (forall j, (j < N)%nat -> beta T j <> 0) ->
  exists C : list (list R),
    canonical_connection recurrence_driver N self = (Ret C, self')
    /\ length C = N
    /\ forall n, (n < N)%nat ->
         length (nth n C []) = N
         /\ forall x : R,
              sum_range (fun j => nth j (nth n C []) 0 * x ^ j) N = p_column T x n.
Proof.
  intros Hrec Hlen _. exists (canonical_connection_rows T N).
  split; [|split].
  - unfold canonical_connection, mbind. rewrite Hrec.
    destruct (Nat.ltb_spec (length T) N) as [Hlt|_]; [lia|]. reflexivity.
  - apply (canonical_connection_rows_shape T N 0).
  - intros n Hn. split; [apply canonical_connection_rows_shape; exact Hn|].
    intros x. rewrite <- coefficient_sum.
    rewrite (sum_range_ext _ (fun j => coefficient T n j * x ^ j)).
    + replace N with (S n + (N - S n))%nat by lia.
      apply sum_range_tail. intros j Hj. rewrite coefficient_above by lia. ring.
    + intros j Hj. rewrite canonical_connection_rows_entries by lia. reflexivity.
Qed.

(** [canonical_connection(N)] is lower triangular and its diagonal is what
    [leading_coefficient(N)] returns: when [self.recurrence(N)] returns a
    table of [N+1] rows with no [beta_j = 0], the two calls made one after
    the other return [C] and [lc] with [C[n,j] = 0] for [n < j < N] and
    [C[n,n] = lc[n]] for [n < N]; [lc] has [N+1] entries. *)
Theorem canonical_connection_triangular (N : nat) (self self' : basis) (T : table) :
  (1 <= N)%nat ->
  recurrence recurrence_driver N self = (Ret T, self') ->
  length T = (N + 1)%nat ->
  (forall j, (j <= N)%nat -> beta T j <> 0) ->
  exists (C : list (list R)) (lc : list R),
    canonical_connection recurrence_driver N self = (Ret C, self')
    /\ leading_coefficient recurrence_driver N self' = (Ret lc, self')
    /\ length lc = (N + 1)%nat
    /\ forall n, (n < N)%nat ->
         nth n (nth n C []) 0 = nth n lc 0
         /\ forall j, (n < j < N)%nat -> nth j (nth n C []) 0 = 0.
Proof.
  intros HN Hrec Hlen _.
  exists (canonical_connection_rows T N), (np_cumprod (map (fun r => 1 / snd r) T)).
  split; [|split; [|split]].
  - unfold canonical_connection, mbind. rewrite Hrec.
    destruct (Nat.ltb_spec (length T) N) as [Hlt|_]; [lia|]. reflexivity.
  - unfold leading_coefficient, mbind.
    destruct (Nat.eqb_spec N 0) as [->|_]; [lia|].
    rewrite (recurrence_again N self self' T Hrec Hlen). reflexivity.
  - unfold np_cumprod. rewrite cumprod_from_length, length_map. exact Hlen.
  - intros n Hn. split.
    + rewrite canonical_connection_rows_entries, leading_coefficient_entries by lia.
      reflexivity.
    + intros j Hj. rewrite canonical_connection_rows_entries by lia.
      apply coefficient_above. lia.
Qed.

End Connection.

Lemma canonical_connection_expands_witness :
  exists C : list (list R),
    canonical_connection OpolyFacts.constant_driver 3 init
    = (Ret C, {| ab := repeat (0, 1) 4; driver_calls := [3%nat] |})
    /\ length C = 3%nat
    /\ forall n, (n < 3)%nat ->
         length (nth n C []) = 3%nat
         /\ forall x : R,
              sum_range (fun j => nth j (nth n C []) 0 * x ^ j) 3
              = p_column (repeat (0, 1) 4) x n.
Proof.
  apply (canonical_connection_expands OpolyFacts.constant_driver 3 init _ (repeat (0, 1) 4)).
  - exact (constant_driver_first 3).
  - simpl. lia.
  - intros j Hj. rewrite repeat_beta by lia. lra.
Defined.

Lemma canonical_connection_triangular_witness :
  exists (C : list (list R)) (lc : list R),
    canonical_connection OpolyFacts.constant_driver 3 init
    = (Ret C, {| ab := repeat (0, 1) 4; driver_calls := [3%nat] |})
    /\ leading_coefficient OpolyFacts.constant_driver 3
         {| ab := repeat (0, 1) 4; driver_calls := [3%nat] |}
       = (Ret lc, {| ab := repeat (0, 1) 4; driver_calls := [3%nat] |})
    /\ length lc = (3 + 1)%nat
    /\ forall n, (n < 3)%nat ->
         nth n (nth n C []) 0 = nth n lc 0
         /\ forall j, (n < j < 3)%nat -> nth j (nth n C []) 0 = 0.
Proof.
  apply (canonical_connection_triangular OpolyFacts.constant_driver 3 init _
           (repeat (0, 1) 4)).
  - lia.
  - exact (constant_driver_first 3).
  - reflexivity.
  - intros j Hj. rewrite repeat_beta by lia. lra.
Defined.

(** ** The Jacobi matrix applied to a vector *)

Lemma nth_map_seq (f : nat -> R) (N i : nat) :
  (i < N)%nat -> nth i (map f (seq 0 N)) 0 = f i.
Proof.
  intros H. rewrite (nth_indep _ 0 (f 0%nat)) by (rewrite length_map, length_seq; exact H).
  rewrite map_nth, seq_nth by exact H. reflexivity.
Qed.

Lemma apply_jacobi_rows_length (T : table) (v : list R) :
  length (apply_jacobi_rows T v) = length v.
Proof. unfold apply_jacobi_rows. rewrite length_map, length_seq. reflexivity. Qed.

(** Entry [i] of [J v]: the diagonal term, the term of the entry after and
    the term of the entry before. *)
Lemma apply_jacobi_rows_entry (T : table) (v : list R) (i : nat) :
  (i < length v)%nat ->
  nth i (apply_jacobi_rows T v) 0
  = nth i v 0 * alpha T (i + 1)
    + (if (i <? length v - 1)%nat then nth (i + 1) v 0 * beta T (i + 1) else 0)
    + (if (0 <? i)%nat then nth (i - 1) v 0 * beta T i else 0).
Proof.
  intros H. unfold apply_jacobi_rows. rewrite !nth_map_seq by exact H.
  destruct (i <? length v - 1)%nat, (0 <? i)%nat; ring.
Qed.

Lemma apply_jacobi_rows_ext (T U : table) (v : list R) :
  (forall j, (j <= length v)%nat -> alpha T j = alpha U j /\ beta T j = beta U j) ->
  apply_jacobi_rows T v = apply_jacobi_rows U v.
Proof.
  intros H. apply (nth_ext _ _ 0 0).
  - rewrite !apply_jacobi_rows_length. reflexivity.
  - intros i Hi. rewrite apply_jacobi_rows_length in Hi.
    rewrite !apply_jacobi_rows_entry by exact Hi.
    rewrite (proj1 (H (i + 1)%nat ltac:(lia))), (proj2 (H i ltac:(lia))).
    destruct (Nat.ltb_spec i (length v - 1)) as [Hlt|_]; [|reflexivity].
    rewrite (proj2 (H (i + 1)%nat ltac:(lia))). reflexivity.
Qed.

(** The three-term recurrence, solved for [x p_j]. *)
Lemma three_term (T : table) (x : R) (j : nat) :
  beta T (j + 1) <> 0 ->
  x * p_column T x j
  = beta T (j + 1) * p_column T x (j + 1) + alpha T (j + 1) * p_column T x j
    + (if (0 <? j)%nat then beta T j * p_column T x (j - 1) else 0).
Proof.
  intros Hb. destruct j as [|j].
  - cbn [Nat.add Nat.ltb Nat.leb]. rewrite p_column_1. field. exact Hb.
  - replace (S j + 1)%nat with (S (S j)) in * by lia. cbn [Nat.ltb Nat.leb].
    replace (S j - 1)%nat with j by lia. rewrite p_column_step. field. exact Hb.
Qed.

(** A combination [sum(c_j p_j)] whose last coefficient is 0 is multiplied
    by [x] when the Jacobi matrix is applied to the coefficients. *)
Lemma apply_jacobi_rows_moment (T : table) (x : R) (c : list R) (m : nat) :
  length c = S m ->
  nth m c 0 = 0 ->
  (forall j, (1 <= j <= m)%nat -> beta T j <> 0) ->
  sum_range (fun i => nth i (apply_jacobi_rows T c) 0 * p_column T x i) (S m)
  = x * sum_range (fun j => nth j c 0 * p_column T x j) (S m).
Proof.
  intros Hlen Hlast Hb.
  set (k := fun i => nth (i + 1) c 0 * beta T (i + 1) * p_column T x i).
  set (g := fun i => nth i c 0 * beta T (i + 1) * p_column T x (i + 1)).
  set (a := fun i => nth i c 0 * alpha T (i + 1) * p_column T x i).
  rewrite (sum_range_ext _
             (fun i => a i + ((if (i <? m)%nat then k i else 0)
                              + (if (0 <? i)%nat then g (i - 1)%nat else 0)))).
  2:{ intros i Hi. rewrite apply_jacobi_rows_entry by lia. rewrite Hlen.
      replace (S m - 1)%nat with m by lia. unfold a, k, g.
      destruct (Nat.ltb_spec i m), (Nat.ltb_spec 0 i);
        try replace (i - 1 + 1)%nat with i by lia; ring. }
  rewrite !sum_range_plus, sum_range_cut, sum_range_shift.
  rewrite <- sum_range_scal.
  rewrite (sum_range_S (fun j => x * (nth j c 0 * p_column T x j))), Hlast.
  rewrite (sum_range_S a). unfold a at 2. rewrite Hlast.
  rewrite (sum_range_ext (fun j => x * (nth j c 0 * p_column T x j))
             (fun j => g j + (a j + (if (0 <? j)%nat then k (j - 1)%nat else 0))) m).
  2:{ intros j Hj. rewrite Rmult_comm, Rmult_assoc, (Rmult_comm _ x).
      rewrite three_term by (apply Hb; lia). unfold g, a, k.
      destruct (Nat.ltb_spec 0 j); try replace (j - 1 + 1)%nat with j by lia; ring. }
  rewrite !sum_range_plus.
  assert (Hk : sum_range (fun j => if (0 <? j)%nat then k (j - 1)%nat else 0) m
               = sum_range k m).
  { rewrite <- (sum_range_shift k m), sum_range_S.
    destruct (Nat.ltb_spec 0 m) as [Hm|Hm]; [|lra].
    unfold k. replace (m - 1 + 1)%nat with m by lia. rewrite Hlast. ring. }
  rewrite Hk. ring.
Qed.

(** ** [canonical_connection_inverse] *)

(** The matrix while it is filled: rows 0 to [m] are zero beyond the
    diagonal and expand the monomials. *)
Definition expanded (T : table) (N m : nat) (C : list (list R)) : Prop :=
  length C = N
  /\ (forall n, (n < N)%nat -> length (nth n C []) = N)
  /\ (forall n, (n <= m)%nat -> (n < N)%nat ->
        (forall j, (n < j < N)%nat -> nth j (nth n C []) 0 = 0)
        /\ forall x : R,
             sum_range (fun j => nth j (nth n C []) 0 * p_column T x j) N = x ^ n).

Lemma sum_range_support (f : nat -> R) (n N : nat) :
  (n < N)%nat -> (forall j, (n < j < N)%nat -> f j = 0) ->
  sum_range f N = sum_range f (S n).
Proof.
  intros Hn H. replace N with (S n + (N - S n))%nat by lia.
  apply sum_range_tail. intros j Hj. apply H. lia.
Qed.

Lemma expanded_first_two (T : table) (N : nat) :
  beta T 0 <> 0 -> beta T 1 <> 0 ->
  let C := repeat (repeat 0 (S (S N))) (S (S N)) in
  let C := assign C 0 (assign (nth 0 C []) 0 (beta T 0)) in
  let C := assign C 1 (assign (nth 1 C []) 1 (beta T 0 * beta T 1)) in
  let C := assign C 1 (assign (nth 1 C []) 0 (alpha T 1 * beta T 0)) in
  expanded T (S (S N)) 1 C.
Proof.
  intros Hb0 Hb1. cbv zeta. set (M := S (S N)). set (Z := repeat (repeat 0 M) M).
  assert (HZ : forall n, (n < M)%nat -> nth n Z [] = repeat 0 M)
    by (intros n Hn; apply nth_repeat_row; exact Hn).
  assert (HlenZ : length Z = M) by apply repeat_length.
  set (C1 := assign Z 0 (assign (nth 0 Z []) 0 (beta T 0))).
  set (C2 := assign C1 1 (assign (nth 1 C1 []) 1 (beta T 0 * beta T 1))).
  set (C3 := assign C2 1 (assign (nth 1 C2 []) 0 (alpha T 1 * beta T 0))).
  assert (H10 : nth 0 C1 [] = assign (repeat 0 M) 0 (beta T 0)).
  { unfold C1. rewrite nth_assign_same by (unfold M in *; lia).
    rewrite HZ by (unfold M; lia). reflexivity. }
  assert (H1n : forall n, n <> 0%nat -> nth n C1 [] = nth n Z []).
  { intros n Hn. unfold C1. apply nth_assign_other. lia. }
  assert (Hlen1 : length C1 = M) by (unfold C1; rewrite assign_length; exact HlenZ).
  assert (Hlen2 : length C2 = M) by (unfold C2; rewrite assign_length; exact Hlen1).
  assert (H31 : nth 1 C3 [] = assign (assign (repeat 0 M) 1 (beta T 0 * beta T 1)) 0
                                (alpha T 1 * beta T 0)).
  { unfold C3. rewrite nth_assign_same by (unfold M in *; lia).
    unfold C2. rewrite nth_assign_same by (unfold M in *; lia).
    rewrite H1n by lia. rewrite HZ by (unfold M; lia). reflexivity. }
  assert (H3n : forall n, n <> 1%nat -> nth n C3 [] = nth n C1 []).
  { intros n Hn. unfold C3, C2. rewrite !nth_assign_other by lia. reflexivity. }
  split; [|split].
  - unfold C3. rewrite assign_length. exact Hlen2.
  - intros n Hn. destruct (Nat.eq_dec n 1) as [->|Hn1].
    + rewrite H31, !assign_length. apply repeat_length.
    + rewrite H3n by exact Hn1. destruct (Nat.eq_dec n 0) as [->|Hn0].
      * rewrite H10, assign_length. apply repeat_length.
      * rewrite H1n, HZ by assumption. apply repeat_length.
  - intros n Hnm Hn. destruct n as [|[|n]]; [| |lia].
    + rewrite H3n, H10 by lia. split.
      * intros j Hj. rewrite nth_assign_other by lia. apply nth_repeat_zero.
      * intros x. rewrite (sum_range_support _ 0 M) by
          (try (unfold M; lia); intros j Hj; rewrite nth_assign_other by lia;
           rewrite nth_repeat_zero; ring).
        rewrite sum_range_S, sum_range_0.
        rewrite nth_assign_same by (rewrite repeat_length; unfold M; lia).
        rewrite p_column_0. simpl. field. exact Hb0.
    + rewrite H31. split.
      * intros j Hj. rewrite !nth_assign_other by lia. apply nth_repeat_zero.
      * intros x. rewrite (sum_range_support _ 1 M) by
          (try (unfold M; lia); intros j Hj; rewrite !nth_assign_other by lia;
           rewrite nth_repeat_zero; ring).
        rewrite !sum_range_S, sum_range_0.
        rewrite nth_assign_same by (rewrite assign_length, repeat_length; unfold M; lia).
        rewrite nth_assign_other by lia.
        rewrite nth_assign_same by (rewrite repeat_length; unfold M; lia).
        rewrite p_column_1, p_column_0. simpl. field. split; assumption.
Qed.

Lemma expanded_next (T : table) (N m : nat) (C : list (list R)) :
  expanded T N m C -> (m + 1 < N)%nat ->
  (forall j, (1 <= j < N)%nat -> beta T j <> 0) ->
  expanded T N (m + 1) (assign C (m + 1) (apply_jacobi_rows T (nth m C []))).
Proof.
  intros [HlenC [Hrows Hinv]] HmN Hb.
  destruct (Hinv m ltac:(lia) ltac:(lia)) as [Hsupp Hsum].
  assert (Hlenm : length (nth m C []) = N) by (apply Hrows; lia).
  split; [|split].
  - rewrite assign_length. exact HlenC.
  - intros n Hn. destruct (Nat.eq_dec n (m + 1)) as [->|Hne].
    + rewrite nth_assign_same by lia. rewrite apply_jacobi_rows_length. exact Hlenm.
    + rewrite nth_assign_other by lia. apply Hrows. exact Hn.
  - intros n Hnm Hn. destruct (Nat.eq_dec n (m + 1)) as [->|Hne].
    + rewrite nth_assign_same by lia. split.
      * intros j Hj. rewrite apply_jacobi_rows_entry by lia.
        rewrite (Hsupp j) by lia.
        destruct (Nat.ltb_spec j (length (nth m C []) - 1)) as [Hlt|_];
          [rewrite (Hsupp (j + 1)%nat) by lia|];
          (destruct (Nat.ltb_spec 0 j) as [_|H0]; [rewrite (Hsupp (j - 1)%nat) by lia|]);
          ring.
      * intros x. destruct N as [|N']; [lia|].
        rewrite (apply_jacobi_rows_moment T x (nth m C []) N').
        -- rewrite Hsum. replace (m + 1)%nat with (S m) by lia. reflexivity.
        -- exact Hlenm.
        -- apply Hsupp. lia.
        -- intros j Hj. apply Hb. lia.
    + rewrite nth_assign_other by lia. apply Hinv; [lia|exact Hn].
Qed.

Section ConnectionInverse.

Variable recurrence_driver : nat -> outcome table.

Lemma apply_jacobi_matrix_stored (v : list R) (self : basis) :
  (length v + 2 <= length (ab self))%nat ->
  apply_jacobi_matrix recurrence_driver v self = (Ret (apply_jacobi_rows (ab self) v), self).
Proof.
  intros H. unfold apply_jacobi_matrix, mbind.
  destruct (recurrence_from_store recurrence_driver (length v + 1) self ltac:(lia))
    as [-> Hlen].
  rewrite Hlen. destruct (Nat.ltb_spec (length v + 1 + 1) (length v + 1)) as [Hlt|_]; [lia|].
  rewrite andb_false_r. unfold ret. f_equal. f_equal.
  apply apply_jacobi_rows_ext. intros j Hj. apply (firstn_agrees _ _ (length v)); lia.
Qed.

Lemma connection_inverse_loop_stored (T : table) (N : nat) (self : basis) (k : nat) :
  ab self = T -> (N + 2 <= length T)%nat ->
  (forall j, (1 <= j < N)%nat -> beta T j <> 0) ->
  forall (s : nat) (C : list (list R)),
    expanded T N s C -> (s + k < N)%nat ->
    exists C' : list (list R),
      connection_inverse_loop recurrence_driver (seq s k) C self = (Ret C', self)
      /\ expanded T N (s + k) C'.
Proof.
  intros HT Hlen Hb. induction k as [|k IH]; intros s C HC Hs.
  - exists C. split; [reflexivity|]. replace (s + 0)%nat with s by lia. exact HC.
  - cbn [seq connection_inverse_loop]. unfold mbind.
    assert (Hrow : length (nth s C []) = N) by (apply HC; lia).
    rewrite apply_jacobi_matrix_stored by (rewrite Hrow, HT; lia).
    rewrite HT.
    destruct (IH (S s) (assign C (s + 1) (apply_jacobi_rows T (nth s C []))))
      as [C' [Hrun HC']].
    + replace (S s) with (s + 1)%nat by lia. apply expanded_next; [exact HC|lia|exact Hb].
    + lia.
    + exists C'. split; [exact Hrun|].
      replace (s + S k)%nat with (S s + k)%nat by lia. exact HC'.
Qed.

(** Row [n] of [canonical_connection_inverse(N)] expands [x^n] in the
    orthonormal basis: on an instance whose stored table [T] has at least
    [N+2] rows with no [beta_j = 0], [j < N], the call returns an [N x N]
    matrix [C] with [sum(C[n,j] * p_j(x), j < N) = x^n] for every [n < N]
    and every [x], zero beyond the diagonal, and leaves the instance as it
    is. *)
Theorem canonical_connection_inverse_expands (N : nat) (self : basis) :
  (N + 2 <= length (ab self))%nat ->
  (forall j, (j < N)%nat -> beta (ab self) j <> 0) ->
  exists C : list (list R),
    canonical_connection_inverse recurrence_driver N self = (Ret C, self)
    /\ length C = N
    /\ forall n, (n < N)%nat ->
         length (nth n C []) = N
         /\ (forall j, (n < j < N)%nat -> nth j (nth n C []) 0 = 0)
         /\ forall x : R,
              sum_range (fun j => nth j (nth n C []) 0 * p_column (ab self) x j) N = x ^ n.
Proof.
  intros Hlen Hb. set (T := ab self) in *.
  assert (Hfinish : forall C m, expanded T N m C -> (N <= m + 1)%nat ->
            length C = N
            /\ forall n, (n < N)%nat ->
                 length (nth n C []) = N
                 /\ (forall j, (n < j < N)%nat -> nth j (nth n C []) 0 = 0)
                 /\ forall x : R,
                      sum_range (fun j => nth j (nth n C []) 0 * p_column T x j) N = x ^ n).
  { intros C m [HlenC [Hrows Hinv]] Hm. split; [exact HlenC|].
    intros n Hn. split; [apply Hrows; exact Hn|]. apply Hinv; lia. }
  unfold canonical_connection_inverse, mbind.
  destruct (recurrence_from_store recurrence_driver N self ltac:(fold T; lia)) as [-> Hlen1].
  fold T. fold T in Hlen1.
  assert (Hagree : forall j, (j <= N)%nat ->
            alpha (firstn (N + 1) T) j = alpha T j /\ beta (firstn (N + 1) T) j = beta T j).
  { apply firstn_agrees. lia. }
  destruct N as [|[|N]].
  - exists []. split; [reflexivity|]. split; [reflexivity|]. intros n Hn. lia.
  - rewrite (proj2 (Hagree 0%nat ltac:(lia))).
    rewrite Hlen1. cbn [Nat.ltb Nat.leb Nat.add].
    eexists. split; [reflexivity|].
    split; [reflexivity|]. intros n Hn. assert (n = 0%nat) by lia. subst n.
    split; [reflexivity|]. split; [intros j Hj; lia|].
    intros x. rewrite sum_range_S, sum_range_0. cbn [repeat nth assign].
    rewrite p_column_0. simpl. field. apply Hb. lia.
  - rewrite Hlen1.
    destruct (Nat.ltb_spec (S (S N) + 1) 2) as [Hlt|_]; [lia|].
    rewrite (proj2 (Hagree 0%nat ltac:(lia))), (proj2 (Hagree 1%nat ltac:(lia))),
      (proj1 (Hagree 1%nat ltac:(lia))).
    replace (S (S N) - 2)%nat with N by lia.
    destruct (connection_inverse_loop_stored T (S (S N)) self N eq_refl Hlen
                ltac:(intros j Hj; apply Hb; lia) 1%nat _
                (expanded_first_two T N (Hb 0%nat ltac:(lia)) (Hb 1%nat ltac:(lia)))
                ltac:(lia))
      as [C' [Hrun HC']].
    exists C'. split; [exact Hrun|]. apply (Hfinish C' (1 + N)%nat HC'). lia.
Qed.

End ConnectionInverse.

Lemma canonical_connection_inverse_expands_witness :
  exists C : list (list R),
    canonical_connection_inverse OpolyFacts.constant_driver 3 (unit_rows 5)
    = (Ret C, unit_rows 5)
    /\ length C = 3%nat
    /\ forall n, (n < 3)%nat ->
         length (nth n C []) = 3%nat
         /\ (forall j, (n < j < 3)%nat -> nth j (nth n C []) 0 = 0)
         /\ forall x : R,
              sum_range (fun j => nth j (nth n C []) 0 * p_column (ab (unit_rows 5)) x j) 3
              = x ^ n.
Proof.
  apply (canonical_connection_inverse_expands OpolyFacts.constant_driver 3 (unit_rows 5)).
  - simpl. lia.
  - intros j Hj. unfold unit_rows. cbn [ab]. rewrite repeat_beta by lia. lra.
Defined.


(** ** The polynomials as an eigenvector *)

Lemma apply_jacobi_rows_polys (T : table) (x : R) (N i : nat) :
  (forall j, (1 <= j <= N)%nat -> beta T j <> 0) ->
  (i < N)%nat ->
  nth i (apply_jacobi_rows T (map (p_column T x) (seq 0 N))) 0
  = x * p_column T x i - (if (i =? N - 1)%nat then beta T N * p_column T x N else 0).
Proof.
  intros Hb Hi.
  rewrite apply_jacobi_rows_entry by (rewrite length_map, length_seq; exact Hi).
  rewrite length_map, length_seq.
  rewrite three_term by (apply Hb; lia).
  rewrite nth_map_seq by exact Hi.
  destruct (Nat.ltb_spec i (N - 1)) as [Hlt|Hge].
  - rewrite nth_map_seq by lia.
    destruct (Nat.eqb_spec i (N - 1)) as [He|_]; [lia|].
    destruct (Nat.ltb_spec 0 i) as [H0|_]; [rewrite nth_map_seq by lia|]; ring.
  - destruct (Nat.eqb_spec i (N - 1)) as [He|Hne]; [|lia].
    replace (i + 1)%nat with N by lia.
    destruct (Nat.ltb_spec 0 i) as [H0|_]; [rewrite nth_map_seq by lia|]; ring.
Qed.

Section Eigenvector.

Variable recurrence_driver : nat -> outcome table.

Lemma eval_range_stored (x : R) (k : nat) (self : basis) :
  (1 <= k)%nat -> (k + 1 <= length (ab self))%nat ->
  eval_range recurrence_driver x k self = (Ret (map (p_column (ab self) x) (seq 0 k)), self).
Proof.
  intros Hk H. unfold eval_range, mbind.
  destruct (Nat.eqb_spec k 0) as [->|_]; [lia|].
  destruct (recurrence_from_store recurrence_driver (k - 1 + 1) self ltac:(lia)) as [-> Hlen].
  rewrite Hlen. destruct (Nat.ltb_spec (k - 1) (k - 1 + 1 + 1)) as [_|Hge]; [|lia].
  unfold ret. f_equal. f_equal. apply map_ext_in. intros j Hj. apply in_seq in Hj.
  apply (p_column_ext _ _ x (k - 1)); [|lia]. apply firstn_agrees. lia.
Qed.

(** The values [p_0(x), ..., p_(N-1)(x)] are an eigenvector of the Jacobi
    matrix up to the term of [p_N].  The vector is the one-dimensional array
    [p = eval(x, range(N))[0, :]], the row of values at the point [x], not
    the [(1, N)] array [eval] returns (on that array [apply_jacobi_matrix]
    works along the axis of the points and takes [N = 1]).  On an instance
    whose stored table has at least [N+2] rows with [beta_0 .. beta_N] not 0,
    [apply_jacobi_matrix(p)] gives [x * p_i(x)] at every entry but the last,
    and [x * p_(N-1)(x) - beta_N * p_N(x)] at the last; so at a zero [x] of
    [p_N] the result is [x] times the vector. *)
Theorem polynomials_are_eigenvector (x : R) (N : nat) (self : basis) :
  (1 <= N)%nat ->
  (N + 2 <= length (ab self))%nat ->
  (forall j, (j <= N)%nat -> beta (ab self) j <> 0) ->
  exists (p Jp : list R) (pN : R),
    eval_range recurrence_driver x N self = (Ret p, self)
    /\ apply_jacobi_matrix recurrence_driver p self = (Ret Jp, self)
    /\ eval_at recurrence_driver x N self = (Ret pN, self)
    /\ length p = N /\ length Jp = N
    /\ (forall i, (i < N)%nat ->
          nth i Jp 0
          = x * nth i p 0 - (if (i =? N - 1)%nat then beta (ab self) N * pN else 0))
    /\ (pN = 0 -> Jp = map (Rmult x) p).
Proof.
  intros HN Hlen Hb. set (T := ab self) in *.
  set (p := map (p_column T x) (seq 0 N)).
  assert (Hlp : length p = N) by (unfold p; rewrite length_map, length_seq; reflexivity).
  assert (Hent : forall i, (i < N)%nat ->
            nth i (apply_jacobi_rows T p) 0
            = x * nth i p 0 - (if (i =? N - 1)%nat then beta T N * p_column T x N else 0)).
  { intros i Hi. unfold p. rewrite apply_jacobi_rows_polys by (try exact Hi; intros j Hj; apply Hb; lia).
    rewrite nth_map_seq by exact Hi. reflexivity. }
  exists p, (apply_jacobi_rows T p), (p_column T x N).
  split; [apply eval_range_stored; [exact HN|fold T; lia]|].
  split; [apply apply_jacobi_matrix_stored; rewrite Hlp; exact Hlen|].
  split; [apply eval_at_stored; exact Hlen|].
  split; [exact Hlp|].
  split; [rewrite apply_jacobi_rows_length; exact Hlp|].
  split; [exact Hent|].
  intros HpN. apply (nth_ext _ _ 0 0).
  - rewrite apply_jacobi_rows_length, length_map. reflexivity.
  - intros i Hi. rewrite apply_jacobi_rows_length, Hlp in Hi.
    rewrite Hent by exact Hi. rewrite HpN.
    rewrite (nth_indep (map (Rmult x) p) 0 (x * 0)) by (rewrite length_map; lia).
    rewrite (map_nth (Rmult x)).
    destruct (i =? N - 1)%nat; ring.
Qed.

End Eigenvector.

Lemma polynomials_are_eigenvector_witness :
  exists (p Jp : list R) (pN : R),
    eval_range OpolyFacts.constant_driver 1 2 (unit_rows 4) = (Ret p, unit_rows 4)
    /\ apply_jacobi_matrix OpolyFacts.constant_driver p (unit_rows 4) = (Ret Jp, unit_rows 4)
    /\ eval_at OpolyFacts.constant_driver 1 2 (unit_rows 4) = (Ret pN, unit_rows 4)
    /\ length p = 2%nat /\ length Jp = 2%nat
    /\ (forall i, (i < 2)%nat ->
          nth i Jp 0
          = 1 * nth i p 0 - (if (i =? 2 - 1)%nat then beta (ab (unit_rows 4)) 2 * pN else 0))
    /\ (pN = 0 -> Jp = map (Rmult 1) p).
Proof.
  apply (polynomials_are_eigenvector OpolyFacts.constant_driver 1 2 (unit_rows 4)).
  - lia.
  - simpl. lia.
  - intros j Hj. unfold unit_rows. cbn [ab]. rewrite repeat_beta by lia. lra.
Defined.

(** ** Requests answered from an earlier answer *)

(** Once [recurrence(N)] has returned [N+1] rows, a request for [M <= N]
    made on the instance it left returns the first [M+1] of those rows and
    leaves the instance, and the log of driver calls, as they are. *)
Theorem recurrence_prefix_consistent (recurrence_driver : nat -> outcome table)
  (N M : nat) (self self' : basis) (T : table) :
  recurrence recurrence_driver N self = (Ret T, self') ->
  length T = (N + 1)%nat ->
  (M <= N)%nat ->
  recurrence recurrence_driver M self' = (Ret (firstn (M + 1) T), self').
Proof.
  unfold recurrence. intros H Hlen HM.
  destruct (Nat.ltb_spec (length (ab self)) (N + 1)) as [Hlt|Hge].
  - destruct (recurrence_driver N) as [t| | |]; try discriminate.
    injection H as <- <-. cbn [ab].
    destruct (Nat.ltb_spec (length t) (M + 1)) as [Hlt'|_]; [lia|]. reflexivity.
  - injection H as <- <-.
    destruct (Nat.ltb_spec (length (ab self)) (M + 1)) as [Hlt'|_]; [lia|].
    rewrite firstn_firstn. replace (Nat.min (M + 1) (N + 1)) with (M + 1)%nat by lia.
    reflexivity.
Qed.

Lemma recurrence_prefix_consistent_witness :
  recurrence OpolyFacts.constant_driver 1
    {| ab := repeat (0, 1) 4; driver_calls := [3%nat] |}
  = (Ret (firstn (1 + 1) (repeat (0, 1) 4)),
     {| ab := repeat (0, 1) 4; driver_calls := [3%nat] |}).
Proof.
  apply (recurrence_prefix_consistent OpolyFacts.constant_driver 3 1 init).
  - exact (constant_driver_first 3).
  - reflexivity.
  - lia.
Defined.

(** ** The quadratic modification keeps [beta] positive *)

Lemma collect_stored {I A : Type} (f : I -> M A) (g : I -> A) (l : list I) (self : basis) :
  (forall i, In i l -> f i self = (Ret (g i), self)) ->
  collect l f self = (Ret (map g l), self).
Proof.
  induction l as [|i l IH]; intros H; cbn [collect map]; [reflexivity|].
  unfold mbind at 1. rewrite (H i) by (left; reflexivity).
  unfold mbind at 1. rewrite IH by (intros j Hj; apply H; right; exact Hj).
  reflexivity.
Qed.

Lemma np_sqrt_all_nonneg (l : list R) :
  Forall (fun v => 0 <= v) l -> np_sqrt_all l = Ret (map sqrt l).
Proof.
  induction l as [|v l IH]; intros H; cbn [np_sqrt_all map]; [reflexivity|].
  inversion H as [|? ? Hv Hl]; subst.
  unfold np_sqrt. rewrite Rltb_false by exact Hv. cbn [bind].
  rewrite IH by exact Hl. reflexivity.
Qed.

Lemma nth_map_in {A B : Type} (f : A -> B) (l : list A) (n : nat) (d : B) (d' : A) :
  (n < length l)%nat -> nth n (map f l) d = f (nth n l d').
Proof.
  intros H. rewrite (nth_indep _ d (f d')) by (rewrite length_map; exact H).
  apply map_nth.
Qed.

Section QuadraticModification.

Variable recurrence_driver : nat -> outcome table.

(** [self.qpoly1d_eval(z0, n)[0,-1]] read from the stored table. *)
Definition q_last (self : basis) (z0 : R) (n : nat) : R :=
  fst (fst (q_column (firstn n (ab self)) z0 (n - 1))).

Lemma qpoly1d_eval_last_stored (self : basis) (z0 : R) (n : nat) :
  (1 <= n)%nat -> (n <= length (ab self))%nat ->
  qpoly1d_eval_last recurrence_driver z0 n self = (Ret (q_last self z0 n), self).
Proof.
  intros Hn Hlen.
  destruct (recurrence_from_store recurrence_driver (n - 1) self ltac:(lia)) as [Hrec Hl].
  replace (n - 1 + 1)%nat with n in Hrec, Hl by lia.
  apply (qpoly1d_eval_last_run recurrence_driver z0 n self self _ Hn Hrec). lia.
Qed.

Lemma q_last_1 (self : basis) (z0 : R) : q_last self z0 1 = 1.
Proof. reflexivity. Qed.

(** The quantity [AB[n,1]] that multiplies [ab[n+1,1]**2] under the square
    root. *)
Definition quad_ratio (self : basis) (z0 : R) (n : nat) : R :=
  match n with
  | O => (1 + q_last self z0 2 ^ 2) / q_last self z0 1 ^ 2
  | S _ => (1 + q_last self z0 (n + 2) ^ 2) / (1 + q_last self z0 (n + 1) ^ 2)
  end.

Lemma quad_ratio_pos (self : basis) (z0 : R) (n : nat) : 0 < quad_ratio self z0 n.
Proof.
  unfold quad_ratio. destruct n as [|n].
  - rewrite q_last_1. apply Rdiv_lt_0_compat; nra.
  - apply Rdiv_lt_0_compat; nra.
Qed.

(** For every [z0]: when [ab] has the [N+3] rows asked for and the rows
    [qpoly1d_eval] reads are stored on the instance, none with [beta = 0]
    (the code divides by each of them),
    [recurrence_quad_mod_jacobi] returns [N+1] pairs, leaves the instance as
    it is, and returns [beta_n = |ab[n+1,1]| * sqrt(AB[n,1])] with
    [AB[n,1] > 0]: no [beta] is negative, and [beta_n > 0] when
    [ab[n+1,1]] is not 0.  No square root is taken of a negative number,
    whatever [z0] is. *)
Theorem quad_modification_positive (ab : table) (N : nat) (z0 : R) (self : basis) :
  (N + 3 <= length ab)%nat ->
  (N + 3 <= length (Opoly1d.ab self))%nat ->
  (forall j, (1 <= j <= N + 2)%nat -> beta (Opoly1d.ab self) j <> 0) ->
  exists AB : table,
    recurrence_quad_mod_jacobi recurrence_driver ab N z0 self = (Ret (Coefficients AB), self)
    /\ length AB = (N + 1)%nat
    /\ forall n, (n <= N)%nat ->
         beta AB n = Rabs (beta ab (n + 1)) * sqrt (quad_ratio self z0 n)
         /\ 0 < quad_ratio self z0 n
         /\ 0 <= beta AB n
         /\ (beta ab (n + 1) <> 0 -> 0 < beta AB n).
Proof.
  intros Hab Hself Hbeta.
  set (Q := q_last self z0).
  set (c1 := map (fun j => (1 + Q (j + 2)%nat ^ 2) / (1 + Q (j + 1)%nat ^ 2)) (seq 1 N)).
  set (c0 := map (fun j => beta ab (j + 2) * Q (j + 3)%nat * Q (j + 2)%nat
                            / sqrt (1 + Q (j + 2)%nat ^ 2)
                            - beta ab (j + 1) * Q (j + 2)%nat * Q (j + 1)%nat
                              / sqrt (1 + Q (j + 1)%nat ^ 2)) (seq 1 N)).
  set (AB00 := beta ab 2 * Q 3%nat * Q 2%nat / sqrt (1 + Q 2%nat ^ 2)
               - beta ab 1 * Q 2%nat * Q 1%nat / sqrt (1 + Q 1%nat ^ 2)).
  set (AB01 := (1 + Q 2%nat ^ 2) / Q 1%nat ^ 2).
  set (rows := firstn (N + 1) (skipn 1 ab)).
  set (rad := map (fun p => snd (fst p) ^ 2 * snd p) (combine rows (AB01 :: c1))).
  set (col0 := map (fun p => fst (fst p) + snd p) (combine rows (AB00 :: c0))).
  assert (Hrows : length rows = (N + 1)%nat).
  { unfold rows. rewrite firstn_length_le; [reflexivity|]. rewrite length_skipn. lia. }
  assert (Hc1 : length (AB01 :: c1) = (N + 1)%nat).
  { unfold c1. cbn [length]. rewrite length_map, length_seq. lia. }
  assert (Hc0 : length (AB00 :: c0) = (N + 1)%nat).
  { unfold c0. cbn [length]. rewrite length_map, length_seq. lia. }
  assert (Hratio : forall n, (n <= N)%nat -> nth n (AB01 :: c1) 0 = quad_ratio self z0 n).
  { intros [|n] Hn; [reflexivity|]. cbn [nth]. unfold c1.
    rewrite (nth_map_in _ _ _ _ 0%nat) by (rewrite length_seq; lia).
    rewrite seq_nth by lia. unfold quad_ratio, Q.
    replace (1 + n + 2)%nat with (S n + 2)%nat by lia.
    replace (1 + n + 1)%nat with (S n + 1)%nat by lia. reflexivity. }
  assert (Hrow : forall n, (n <= N)%nat -> snd (nth n rows (0, 0)) = beta ab (n + 1)).
  { intros n Hn. unfold rows, beta. rewrite nth_firstn.
    destruct (Nat.ltb_spec n (N + 1)) as [_|Hge]; [|lia].
    rewrite nth_skipn. rewrite Nat.add_comm. reflexivity. }
  assert (Hrad : forall n, (n <= N)%nat ->
            nth n rad 0 = beta ab (n + 1) ^ 2 * quad_ratio self z0 n).
  { intros n Hn. unfold rad.
    rewrite (nth_map_in _ _ _ _ ((0, 0), 0)) by (rewrite length_combine, Hrows, Hc1; lia).
    rewrite combine_nth by lia. cbn [fst snd].
    rewrite Hrow, Hratio by exact Hn. reflexivity. }
  assert (Hlrad : length rad = (N + 1)%nat).
  { unfold rad. rewrite length_map, length_combine, Hrows, Hc1. lia. }
  assert (Hnonneg : Forall (fun v => 0 <= v) rad).
  { apply Forall_forall. intros v Hv. apply (In_nth _ _ 0) in Hv.
    destruct Hv as [n [Hn <-]]. rewrite Hrad by lia.
    assert (H := quad_ratio_pos self z0 n). nra. }
  exists (combine col0 (map sqrt rad)).
  split; [|split].
  - unfold recurrence_quad_mod_jacobi.
    destruct (Nat.ltb_spec (length ab) (N + 3)) as [Hlt|_]; [lia|].
    cbv zeta.
    assert (HQ : forall n, (1 <= n <= N + 3)%nat ->
               qpoly1d_eval_last recurrence_driver z0 n self = (Ret (Q n), self)).
    { intros n Hn. apply qpoly1d_eval_last_stored; lia. }
    repeat (unfold mbind at 1; rewrite HQ by lia).
    unfold mbind at 1.
    rewrite (collect_stored _ (fun j => (1 + Q (j + 2)%nat ^ 2) / (1 + Q (j + 1)%nat ^ 2)));
      [|intros j Hj; apply in_seq in Hj;
        repeat (unfold mbind at 1; rewrite HQ by lia); reflexivity].
    unfold mbind at 1.
    rewrite (collect_stored _
               (fun j => beta ab (j + 2) * Q (j + 3)%nat * Q (j + 2)%nat
                         / sqrt (1 + Q (j + 2)%nat ^ 2)
                         - beta ab (j + 1) * Q (j + 2)%nat * Q (j + 1)%nat
                           / sqrt (1 + Q (j + 1)%nat ^ 2)));
      [|intros j Hj; apply in_seq in Hj;
        repeat (unfold mbind at 1; rewrite HQ by lia); reflexivity].
    fold c1 c0 AB00 AB01.
    unfold finish_modification. rewrite Hc0. fold rows. fold rad. fold col0.
    unfold mbind, lift. rewrite (np_sqrt_all_nonneg rad Hnonneg). reflexivity.
  - rewrite length_combine, length_map. unfold col0.
    rewrite length_map, length_combine, Hrows, Hc0, Hlrad. lia.
  - intros n Hn.
    assert (Hb : beta (combine col0 (map sqrt rad)) n
                 = Rabs (beta ab (n + 1)) * sqrt (quad_ratio self z0 n)).
    { unfold beta at 1.
      rewrite combine_nth
        by (rewrite length_map; unfold col0;
            rewrite length_map, length_combine, Hrows, Hc0, Hlrad; lia).
      cbn [snd]. rewrite (nth_map_in _ _ _ _ 0) by lia. rewrite Hrad by exact Hn.
      rewrite sqrt_mult; [|nra|left; apply quad_ratio_pos].
      replace (beta ab (n + 1) ^ 2) with (Rsqr (beta ab (n + 1))) by (unfold Rsqr; ring).
      rewrite sqrt_Rsqr_abs. reflexivity. }
    assert (Hq := quad_ratio_pos self z0 n).
    assert (Hs : 0 < sqrt (quad_ratio self z0 n)) by (apply sqrt_lt_R0; exact Hq).
    split; [exact Hb|]. split; [exact Hq|]. rewrite Hb. split.
    + apply Rmult_le_pos; [apply Rabs_pos|lra].
    + intros Hne. apply Rmult_lt_0_compat; [apply Rabs_pos_lt; exact Hne|exact Hs].
Qed.

End QuadraticModification.

(** The table with rows [(0, 1)], modified to degree 1 at [z0 = 2]. *)
Lemma quad_modification_positive_witness :
  exists AB : table,
    recurrence_quad_mod_jacobi OpolyFacts.constant_driver (repeat (0, 1) 4) 1 2 (unit_rows 4)
    = (Ret (Coefficients AB), unit_rows 4)
    /\ length AB = (1 + 1)%nat
    /\ forall n, (n <= 1)%nat ->
         beta AB n = Rabs (beta (repeat (0, 1) 4) (n + 1)) * sqrt (quad_ratio (unit_rows 4) 2 n)
         /\ 0 < quad_ratio (unit_rows 4) 2 n
         /\ 0 <= beta AB n
         /\ (beta (repeat (0, 1) 4) (n + 1) <> 0 -> 0 < beta AB n).
Proof.
  apply (quad_modification_positive OpolyFacts.constant_driver (repeat (0, 1) 4) 1 2
           (unit_rows 4)).
  - simpl. lia.
  - simpl. lia.
  - intros j Hj. unfold unit_rows. cbn [Opoly1d.ab]. rewrite repeat_beta by lia. lra.
Defined.

(** ** Rows of the Jacobi matrix *)

(** Row [i] of the [N x N] Jacobi matrix of [T] applied to a vector with
    entries [g 0, ..., g (N-1)]. *)
Definition jacobi_row (T : table) (N : nat) (g : nat -> R) (i : nat) : R :=
  alpha T (i + 1) * g i
  + (if (i + 1 <? N)%nat then beta T (i + 1) * g (i + 1)%nat else 0)
  + (if (0 <? i)%nat then beta T i * g (i - 1)%nat else 0).

Lemma apply_jacobi_rows_row (T : table) (v : list R) (i : nat) :
  (i < length v)%nat ->
  nth i (apply_jacobi_rows T v) 0 = jacobi_row T (length v) (fun k => nth k v 0) i.
Proof.
  intros H. rewrite apply_jacobi_rows_entry by exact H. unfold jacobi_row.
  destruct (Nat.ltb_spec i (length v - 1)), (Nat.ltb_spec (i + 1) (length v)); try lia;
    destruct (0 <? i)%nat; ring.
Qed.

(** A vector that the Jacobi matrix multiplies by [lam] is a multiple of the
    values of the polynomials at [lam], and kills [p_N(lam)]. *)
Lemma eigen_rows (T : table) (N : nat) (lam : R) (g : nat -> R) :
  (1 <= N)%nat ->
  (forall j, (j <= N)%nat -> beta T j <> 0) ->
  (forall i, (i < N)%nat -> jacobi_row T N g i = lam * g i) ->
  (forall k, (k < N)%nat -> g k = g 0%nat * beta T 0 * p_column T lam k)
  /\ g 0%nat * p_column T lam N = 0.
Proof.
  intros HN Hb Hrow.
  assert (Hk : forall k, (k < N)%nat -> g k = g 0%nat * beta T 0 * p_column T lam k).
  { intros k. induction k as [k IH] using lt_wf_ind. intros Hlt.
    destruct k as [|[|k]].
    - rewrite p_column_0. field. apply Hb. lia.
    - assert (H0 := Hrow 0%nat ltac:(lia)). unfold jacobi_row in H0.
      cbn [Nat.add] in H0. rewrite (proj2 (Nat.ltb_lt 1 N)) in H0 by lia.
      rewrite Nat.ltb_irrefl in H0.
      rewrite p_column_1, p_column_0.
      assert (Hb1 := Hb 1%nat ltac:(lia)). assert (Hb0 := Hb 0%nat ltac:(lia)).
      assert (Hg1 : g 1%nat = (lam - alpha T 1) * g 0%nat / beta T 1).
      { field_simplify_eq; [|exact Hb1]. lra. }
      rewrite Hg1. field. split; assumption.
    - assert (H1 := Hrow (S k) ltac:(lia)). unfold jacobi_row in H1.
      replace (S k + 1)%nat with (S (S k)) in H1 by lia.
      replace (S k - 1)%nat with k in H1 by lia.
      rewrite (proj2 (Nat.ltb_lt (S (S k)) N)) in H1 by lia.
      rewrite (proj2 (Nat.ltb_lt 0 (S k))) in H1 by lia.
      rewrite (IH (S k)), (IH k) in H1 by lia.
      rewrite p_column_step.
      assert (Hb2 := Hb (S (S k)) ltac:(lia)).
      assert (Hg : g (S (S k))
                   = ((lam - alpha T (S (S k))) * (g 0%nat * beta T 0 * p_column T lam (S k))
                      - beta T (S k) * (g 0%nat * beta T 0 * p_column T lam k))
                     / beta T (S (S k))).
      { field_simplify_eq; [|exact Hb2]. lra. }
      rewrite Hg. field. exact Hb2. }
  split; [exact Hk|].
  assert (Hlast := Hrow (N - 1)%nat ltac:(lia)). unfold jacobi_row in Hlast.
  replace (N - 1 + 1)%nat with N in Hlast by lia.
  rewrite Nat.ltb_irrefl in Hlast.
  assert (HbN := Hb N ltac:(lia)). assert (Hb0 := Hb 0%nat ltac:(lia)).
  destruct N as [|[|N]]; [lia| |].
  - cbn [Nat.sub] in Hlast. rewrite Nat.ltb_irrefl in Hlast.
    rewrite p_column_1, p_column_0.
    apply (Rmult_eq_reg_r (beta T 1 * beta T 0)); [|apply Rmult_integral_contrapositive_currified; assumption].
    field_simplify; [|split; assumption]. lra.
  - replace (S (S N) - 1)%nat with (S N) in Hlast by lia.
    replace (S N - 1)%nat with N in Hlast by lia.
    rewrite (proj2 (Nat.ltb_lt 0 (S N))) in Hlast by lia.
    rewrite (Hk (S N)), (Hk N) in Hlast by lia.
    rewrite p_column_step.
    apply (Rmult_eq_reg_r (beta T (S (S N)) * beta T 0));
      [|apply Rmult_integral_contrapositive_currified; assumption].
    field_simplify; [|exact HbN]. lra.
Qed.

Lemma nth_set_row (T : table) (n j : nat) (r : R * R) :
  nth j (set_row T n r) (0, 0)
  = if (j =? n)%nat && (n <? length T)%nat then r else nth j T (0, 0).
Proof.
  revert n j. induction T as [|h T IH]; intros [|n] [|j]; simpl; try reflexivity.
  - destruct (j =? n)%nat; reflexivity.
  - rewrite IH. reflexivity.
Qed.

(** The matrix of [gauss_radau_quadrature]: with [ab[N,0]] replaced by
    [ab[N,0] + r_N(a) * ab[N,1]], the values of the polynomials at [a] are
    multiplied by [a]. *)
Lemma radau_rows (T : table) (N : nat) (a : R) :
  (1 <= N)%nat -> (N < length T)%nat ->
  (forall j, (j <= N)%nat -> beta T j <> 0) ->
  (forall j, (j < N)%nat -> p_column T a j <> 0) ->
  let cd := set_row T N (alpha T N + r_column T a N * beta T N, beta T N) in
  forall i, (i < N)%nat -> jacobi_row cd N (p_column T a) i = a * p_column T a i.
Proof.
  intros HN Hlen Hb Hp cd i Hi.
  assert (Hbeta : forall j, beta cd j = beta T j).
  { intros j. unfold cd, beta. rewrite nth_set_row.
    destruct (Nat.eqb_spec j N) as [->|_]; [|reflexivity].
    destruct (N <? length T)%nat; reflexivity. }
  assert (Halpha : forall j, j <> N -> alpha cd j = alpha T j).
  { intros j Hj. unfold cd, alpha. rewrite nth_set_row.
    destruct (Nat.eqb_spec j N); [contradiction|reflexivity]. }
  assert (HalphaN : alpha cd N = alpha T N + r_column T a N * beta T N).
  { unfold cd, alpha. rewrite nth_set_row, Nat.eqb_refl.
    rewrite (proj2 (Nat.ltb_lt N (length T))) by exact Hlen. reflexivity. }
  unfold jacobi_row. rewrite !Hbeta.
  rewrite (three_term T a i) by (apply Hb; lia).
  destruct (Nat.ltb_spec (i + 1) N) as [Hlt|Hge].
  - rewrite Halpha by lia. ring.
  - replace (i + 1)%nat with N by lia. rewrite HalphaN.
    rewrite r_column_ratio by assumption.
    replace (N - 1)%nat with i by lia.
    assert (Hpi := Hp i Hi). field. exact Hpi.
Qed.

End EvaluationFacts.

Module SpectralFacts.

Import mathcomp.boot.ssreflect mathcomp.boot.ssrfun mathcomp.boot.ssrbool.
Import mathcomp.boot.eqtype mathcomp.boot.choice mathcomp.boot.ssrnat.
Import mathcomp.boot.seq mathcomp.boot.fintype mathcomp.boot.bigop.
Import mathcomp.boot.nmodule.
Import mathcomp.algebra.algebraic_hierarchy.ssralg mathcomp.algebra.matrix.
Import GRing.Theory.
Import Opoly1d Spectral.

(** A table whose 2 x 2 Jacobi matrix is [[16, 12], [12, 9]], with
    [ab[0,1] = 2]; the eigenvalues of the matrix and its orthonormal
    eigenvectors, by columns. *)
Definition demo_ab : table := [(0, 2); (16, 12); (9, 1)]%list.
Definition demo_lamb : list R := [0; 25]%list.
Definition demo_v : list (list R) := [[3/5; 4/5]; [-4/5; 3/5]]%list.

(** A family with [ab[0,1] = 2]: rows [(0, 2), (0, 1), (0, 1), ...]. *)
Definition demo_driver (N : nat) : outcome table := Ret ((0, 2) :: repeat (0, 1) N).
Definition demo_table : table := [(0, 2); (0, 1); (0, 1)]%list.
Definition demo_stored : basis := {| ab := demo_table; driver_calls := [2%nat]%list |}.
Definition demo_c : R := 1 / beta demo_table 1 * (0 - alpha demo_table 1).

Local Open Scope ring_scope.

(** What [numpy.linalg.eigh] promises for a symmetric matrix [J]: the columns
    of [v] are orthonormal, and column [j] is an eigenvector of [J] for the
    eigenvalue [lamb[j]]. *)
Definition eigh_spec {n : nat} (J : 'M[R]_n) (res : 'rV[R]_n * 'M[R]_n) : Prop :=
  res.2^T *m res.2 = 1%:M /\ J *m res.2 = res.2 *m diag_mx res.1.

Lemma unit_columns (n : nat) (v : 'M[R]_n) (j : 'I_n) :
  v^T *m v = 1%:M -> \sum_i v i j ^+ 2 = 1.
Proof.
move=> /matrixP /(_ j j); rewrite !mxE eqxx mulr1n => <-.
by apply: eq_bigr => i _; rewrite !mxE expr2.
Qed.

Lemma unit_first_row (n : nat) (v : 'M[R]_n.+1) :
  v^T *m v = 1%:M -> \sum_j v ord0 j ^+ 2 = 1.
Proof.
move=> /mulmx1C /matrixP /(_ ord0 ord0); rewrite !mxE eqxx mulr1n => <-.
by apply: eq_bigr => i _; rewrite !mxE expr2.
Qed.

Lemma eigen_columns (n : nat) (J v : 'M[R]_n) (lamb : 'rV[R]_n) (j : 'I_n) :
  J *m v = v *m diag_mx lamb -> J *m col j v = lamb ord0 j *: col j v.
Proof.
move=> /matrixP H; apply/matrixP => i k; rewrite !mxE.
move: (H i j); rewrite mul_mx_diag !mxE mulrC => <-.
by apply: eq_bigr => l _; rewrite !mxE.
Qed.

Lemma first_row_index (n : nat) (H : (0 < n.+1)%N) : Ordinal H = ord0.
Proof. exact: val_inj. Qed.

(** C1 (amended to [N >= 1]).  For a table [ab] of more than [N] rows and
    [N >= 1], when [eigh] returns orthonormal eigenvectors [v] with
    eigenvalues [lamb] for the Jacobi matrix, [gauss_quadrature_driver]
    returns [lamb] as the nodes and [ab[0,1]**2 * v[0,j]**2] as the weights:
    every column of [v] is a unit-norm eigenvector, and the [N] weights sum
    to [ab[0,1]**2].  The method [gauss_quadrature] returns the same rule
    from the table [self.recurrence(N+1)]. *)
Theorem gauss_quadrature_rule
  (eigh : forall n : nat, 'M[R]_n -> 'rV[R]_n * 'M[R]_n)
  (ab : table) (N : nat) (HN : (0 < N)%N) :
  (N < size ab)%N ->
  eigh_spec (jacobi_matrix_driver ab N) (eigh N (jacobi_matrix_driver ab N)) ->
  exists (lamb : 'rV[R]_N) (v : 'M[R]_N) (w : 'rV[R]_N),
    eigh N (jacobi_matrix_driver ab N) = (lamb, v)
    /\ gauss_quadrature_driver eigh ab N = Ret (lamb, w)
    /\ (forall j, jacobi_matrix_driver ab N *m col j v = lamb ord0 j *: col j v)
    /\ (forall j, \sum_i v i j ^+ 2 = 1)
    /\ (forall j, w ord0 j = beta ab 0 ^+ 2 * v (Ordinal HN) j ^+ 2)
    /\ \sum_j w ord0 j = beta ab 0 ^+ 2
    /\ (forall (recurrence_driver : nat -> outcome table) (self self' : basis),
          recurrence recurrence_driver N.+1 self = (Ret ab, self') ->
          gauss_quadrature eigh recurrence_driver N self = (Ret (lamb, w), self')).
Proof.
case: N HN => [//|N] HN Hab.
rewrite /eigh_spec /gauss_quadrature /gauss_quadrature_driver leqNgt Hab /=.
case E: (eigh _ _) => [lamb v] /= [Hortho Heig].
exists lamb, v, (\row_j (beta ab 0 ^+ 2 * v ord0 j ^+ 2)).
split; first by [].
split; first by [].
split; first by move=> j; apply: eigen_columns.
split; first by move=> j; apply: unit_columns.
split; first by move=> j; rewrite mxE first_row_index.
split.
  have -> : \sum_j (\row_j (beta ab 0 ^+ 2 * v ord0 j ^+ 2)) ord0 j
            = \sum_j beta ab 0 ^+ 2 * v ord0 j ^+ 2.
    by apply: eq_bigr => j _; rewrite mxE.
  by rewrite -mulr_sumr unit_first_row // mulr1.
move=> drv self self' Hrec.
by rewrite /mbind Hrec /lift /= leqNgt Hab /= E.
Qed.

(** [eigh] on the matrix of [demo_ab]; elsewhere the decomposition of a
    diagonal matrix. *)
Definition demo_eigh (n : nat) (J : 'M[R]_n) : 'rV[R]_n * 'M[R]_n :=
  if n == 2 then
    (\row_j List.nth j demo_lamb 0,
     \matrix_(i, j) List.nth j (List.nth i demo_v [::]) 0)
  else (\row_j J j j, 1%:M).

Ltac real_entries :=
  rewrite /= ?mulr1n ?mulr0n /GRing.mul /GRing.add /GRing.zero /GRing.one /GRing.opp /=;
  rewrite /alpha /beta /=; lra.

Lemma demo_eigh_spec :
  eigh_spec (jacobi_matrix_driver demo_ab 2) (demo_eigh 2 (jacobi_matrix_driver demo_ab 2)).
Proof.
split; apply/matrixP => i j; rewrite /= !mxE !big_ord_recl !big_ord0 !mxE /=.
  by case: i => [[|[|i]] Hi] //; case: j => [[|[|j]] Hj] //=; real_entries.
by case: i => [[|[|i]] Hi] //; case: j => [[|[|j]] Hj] //=; real_entries.
Qed.

(** The 2-point rule of [demo_ab]: nodes 0 and 25, weights summing to 4. *)
Lemma gauss_quadrature_rule_witness :
  exists (lamb w : 'rV[R]_2),
    gauss_quadrature_driver demo_eigh demo_ab 2 = Ret (lamb, w)
    /\ \sum_j w ord0 j = beta demo_ab 0 ^+ 2.
Proof.
have [lamb [v [w [_ [Hret [_ [_ [_ [Hsum _]]]]]]]]] :=
  gauss_quadrature_rule demo_eigh demo_ab 2 isT isT demo_eigh_spec.
by exists lamb, w.
Defined.

(** C1 at [N = 0]: the table has more than 0 rows, the eigenvector matrix is
    0 x 0, and reading its row 0 raises; no 0-point rule has weights summing
    to [ab[0,1]**2 = 4]. *)
Lemma gauss_quadrature_counterexample :
  (0 < size demo_ab)%N
  /\ gauss_quadrature_driver demo_eigh demo_ab 0 = Raise IndexError
  /\ (forall w : 'rV[R]_0, \sum_j w ord0 j <> beta demo_ab 0 ^+ 2).
Proof.
split; first by [].
split; first by [].
move=> w; rewrite big_ord0 expr2 => H.
move: H; rewrite /GRing.mul /GRing.zero /= /beta /=; lra.
Qed.

(** C7.  For [N >= 1], when [self.recurrence(N+1)] returns [ab] with more
    than [N] rows and [self.r_eval(anchor, N)] returns [c],
    [gauss_radau_quadrature] returns the eigenvalues of the Jacobi matrix of
    [ab] with [ab[N,0]] replaced by [ab[N,0] + c * ab[N,1]] as the nodes, and
    the squared first components [v[0,j]**2] of the eigenvectors as the
    weights, with no factor [ab[0,1]**2]: the weights sum to 1. *)
Theorem gauss_radau_weights_unscaled
  (eigh : forall n : nat, 'M[R]_n -> 'rV[R]_n * 'M[R]_n)
  (recurrence_driver : nat -> outcome table)
  (N : nat) (HN : (0 < N)%N) (anchor : R)
  (self self1 self2 : basis) (ab : table) (c : R) :
  recurrence recurrence_driver N.+1 self = (Ret ab, self1) ->
  r_eval recurrence_driver anchor N self1 = (Ret c, self2) ->
  (N < size ab)%N ->
  let cd := set_row ab N (alpha ab N + c * beta ab N, beta ab N) in
  eigh_spec (jacobi_matrix_driver cd N) (eigh N (jacobi_matrix_driver cd N)) ->
  exists (lamb : 'rV[R]_N) (v : 'M[R]_N) (w : 'rV[R]_N),
    eigh N (jacobi_matrix_driver cd N) = (lamb, v)
    /\ gauss_radau_quadrature eigh recurrence_driver N anchor self = (Ret (lamb, w), self2)
    /\ (forall j, jacobi_matrix_driver cd N *m col j v = lamb ord0 j *: col j v)
    /\ (forall j, w ord0 j = v (Ordinal HN) j ^+ 2)
    /\ \sum_j w ord0 j = 1.
Proof.
case: N HN => [//|N] HN Hrec Hr Hab cd.
rewrite /eigh_spec /gauss_radau_quadrature /mbind Hrec Hr leqNgt Hab /= -/cd.
case E: (eigh _ _) => [lamb v] /= [Hortho Heig].
exists lamb, v, (\row_j (v ord0 j ^+ 2)).
split; first by [].
split; first by [].
split; first by move=> j; apply: eigen_columns.
split; first by move=> j; rewrite mxE first_row_index.
have -> : \sum_j (\row_j (v ord0 j ^+ 2)) ord0 j = \sum_j v ord0 j ^+ 2.
  by apply: eq_bigr => j _; rewrite mxE.
exact: unit_first_row.
Qed.

Lemma demo_eigh_spec_1 (J : 'M[R]_1) : eigh_spec J (demo_eigh 1 J).
Proof.
split; rewrite /= ?trmx1 ?mulmx1 ?mul1mx //.
by apply/matrixP => i j; rewrite !mxE !ord1 eqxx mulr1n.
Qed.

(** [gauss_radau_quadrature(1, 0.)] on a new instance of the family
    [demo_driver]: the weight returned is 1, and [ab[0,1]**2] is 4. *)
Lemma gauss_radau_weights_unscaled_witness :
  exists (lamb w : 'rV[R]_1),
    gauss_radau_quadrature demo_eigh demo_driver 1 0 init = (Ret (lamb, w), demo_stored)
    /\ \sum_j w ord0 j = 1
    /\ beta (ab demo_stored) 0 ^+ 2 = 1 + 1 + 1 + 1.
Proof.
have [lamb [v [w [_ [Hret [_ [_ Hsum]]]]]]] :=
  gauss_radau_weights_unscaled demo_eigh demo_driver 1 isT 0 init demo_stored demo_stored
    demo_table demo_c erefl erefl isT (demo_eigh_spec_1 _).
exists lamb, w; split; first by [].
split; first by [].
rewrite expr2 /GRing.mul /GRing.add /GRing.one /= /beta /=; lra.
Defined.

End SpectralFacts.

(** * More facts about the Jacobi matrix and the quadrature rules *)

Module JacobiFacts.

Import mathcomp.boot.ssreflect mathcomp.boot.ssrfun mathcomp.boot.ssrbool.
Import mathcomp.boot.eqtype mathcomp.boot.choice mathcomp.boot.ssrnat.
Import mathcomp.boot.seq mathcomp.boot.fintype mathcomp.boot.bigop.
Import mathcomp.boot.nmodule.
Import mathcomp.algebra.algebraic_hierarchy.ssralg mathcomp.algebra.matrix.
Import GRing.Theory.
Import Opoly1d Spectral SpectralFacts.

Local Open Scope ring_scope.

(** A sum with one term. *)
Lemma sum_pick (N k : nat) (F : nat -> R) :
  \sum_(j < N) (if (j : nat) == k then F j else 0) = if (k < N)%N then F k else 0.
Proof.
case: ltnP => Hk.
  by rewrite -big_mkcond /= (big_pred1 (Ordinal Hk)).
rewrite big1 // => j _; case: eqP => // E.
by move: (ltn_ord j); rewrite E ltnNge Hk.
Qed.

(** Entry [i] of the Jacobi matrix times a column: the diagonal term, the
    term of the entry after and the term of the entry before. *)
Lemma jacobi_mulmx_entry (T : table) (N : nat) (g : nat -> R) (i : 'I_N) :
  (jacobi_matrix_driver T N *m \col_(j < N) g j) i ord0
  = alpha T i.+1 * g i
    + (if (i.+1 < N)%N then beta T i.+1 * g i.+1 else 0)
    + (if (0 < i)%N then beta T i * g i.-1 else 0).
Proof.
rewrite !mxE.
have -> : \sum_(j < N) jacobi_matrix_driver T N i j * (\col_(j0 < N) g j0) j ord0
        = \sum_(j < N) ((if (j : nat) == i then alpha T i.+1 * g j else 0)
                        + (if (j : nat) == i.+1 then beta T i.+1 * g j else 0)
                        + (if (j : nat) == i.-1 then (if (0 < i)%N then beta T i * g j else 0)
                           else 0)).
  apply: eq_bigr => j _; rewrite !mxE.
  case: (ltngtP i j) => Hij.
  - have -> : ((j : nat) == i.-1) = false.
      by apply/negbTE; rewrite neq_ltn; apply/orP; right; apply: leq_ltn_trans (leq_pred _) Hij.
    case: eqP => [->|_]; first by rewrite add0r addr0.
    have -> : ((i : nat) == j.+1) = false.
      by apply/negbTE; rewrite neq_ltn; apply/orP; left; apply: ltn_trans Hij _.
    by rewrite mul0r !addr0.
  - have -> : ((j : nat) == i.+1) = false.
      by apply/negbTE; rewrite neq_ltn; apply/orP; left; apply: ltn_trans Hij _.
    have Hi : (0 < i)%N by apply: leq_ltn_trans Hij.
    rewrite Hi -(eqn_add2r 1 j) !addn1 prednK // [j.+1 == i]eq_sym.
    by case: eqP => [->|_]; rewrite ?mul0r !add0r.
  - have -> : ((j : nat) == i.+1) = false by rewrite -Hij ltn_eqF.
    case Hi : (0 < i)%N.
      have -> : ((j : nat) == i.-1) = false by rewrite -Hij gtn_eqF // prednK.
      by rewrite !addr0.
    by case: eqP => _; rewrite !addr0.
rewrite !big_split /=.
rewrite (sum_pick N i (fun j => alpha T i.+1 * g j)).
rewrite (sum_pick N i.+1 (fun j => beta T i.+1 * g j)).
rewrite (sum_pick N i.-1 (fun j => if (0 < i)%N then beta T i * g j else 0)) ltn_ord.
congr (_ + _ + _).
case Hi : (0 < i)%N; last by case: ifP.
by rewrite (leq_ltn_trans (leq_pred _) (ltn_ord i)).
Qed.

Lemma ltbE (m n : nat) : Nat.ltb m n = (m < n)%N.
Proof. by apply/idP/idP => [/Nat.ltb_lt/ltP|/ltP/Nat.ltb_lt]. Qed.

(** The product with a column, row by row. *)
Lemma jacobi_mulmx_row (T : table) (N : nat) (g : nat -> R) (i : 'I_N) :
  (jacobi_matrix_driver T N *m \col_(j < N) g j) i ord0
  = EvaluationFacts.jacobi_row T N g i.
Proof.
rewrite jacobi_mulmx_entry /EvaluationFacts.jacobi_row.
by rewrite !Nat.add_1_r Nat.sub_1_r !ltbE.
Qed.

Lemma eqn_lt_false (a b : nat) : (a < b)%coq_nat -> (a == b) = false.
Proof. by move=> /ltP H; rewrite ltn_eqF. Qed.

Lemma eqn_gt_false (a b : nat) : (b < a)%coq_nat -> (a == b) = false.
Proof. by move=> /ltP H; rewrite gtn_eqF. Qed.

Lemma jacobi_matrix_driver_sym (T : table) (N : nat) :
  (jacobi_matrix_driver T N)^T = jacobi_matrix_driver T N.
Proof.
apply/matrixP => i j; rewrite !mxE.
case: (ltngtP i j) => [/ltP Hij|/ltP Hij|Hij].
- have -> : ((i : nat) == j.+1) = false by apply: eqn_lt_false; lia.
  by case: ifP.
- have -> : ((j : nat) == i.+1) = false by apply: eqn_lt_false; lia.
  by case: ifP.
- by rewrite Hij.
Qed.

Lemma jacobi_matrix_driver_band (T : table) (N : nat) (i j : 'I_N) :
  (i.+1 < j)%N || (j.+1 < i)%N -> jacobi_matrix_driver T N i j = 0.
Proof.
rewrite !mxE => /orP [/ltP H|/ltP H].
- have -> : ((i : nat) == j) = false by apply: eqn_lt_false; lia.
  have -> : ((j : nat) == i.+1) = false by apply: eqn_gt_false; lia.
  by have -> : ((i : nat) == j.+1) = false by apply: eqn_lt_false; lia.
- have -> : ((i : nat) == j) = false by apply: eqn_gt_false; lia.
  have -> : ((j : nat) == i.+1) = false by apply: eqn_lt_false; lia.
  by have -> : ((i : nat) == j.+1) = false by apply: eqn_gt_false; lia.
Qed.

Lemma column_of_entry (N : nat) (v : list R) (i : 'I_N) :
  column_of N v i ord0 = List.nth i v 0.
Proof. by rewrite mxE. Qed.

(** An eigenvalue of [J] with a non-zero eigenvector is one of the
    eigenvalues [eigh] lists. *)
Lemma eigenvalue_listed (n : nat) (J V : 'M[R]_n) (lamb : 'rV[R]_n) (u : 'cV[R]_n) (a : R) :
  V^T *m V = 1%:M -> J *m V = V *m diag_mx lamb -> J *m u = a *: u -> u <> 0 ->
  exists j, lamb ord0 j = a.
Proof.
move=> Hortho Heig Hu Hne.
have HVVt : V *m V^T = 1%:M by apply: mulmx1C.
have [w Hw Huw] : exists2 w : 'cV[R]_n, diag_mx lamb *m w = a *: w & u = V *m w.
  exists (V^T *m u); last by rewrite mulmxA HVVt mul1mx.
  have -> : diag_mx lamb = V^T *m (J *m V) by rewrite Heig mulmxA Hortho mul1mx.
  rewrite -!mulmxA [V *m (V^T *m u)]mulmxA HVVt mul1mx Hu.
  by rewrite -scalemxAr.
apply: NNPP => Hno; apply: Hne.
have Hw0 : w = 0.
  apply/matrixP => j k; rewrite (ord1 k) [RHS]mxE.
  have /matrixP /(_ j ord0) := Hw; rewrite mul_diag_mx !mxE => E.
  have Hd : lamb ord0 j <> a by move=> Ea; apply: Hno; exists j.
  have H0 : Rmult (Rminus (lamb ord0 j) a) (w j ord0) = R0.
    by rewrite Rmult_minus_distr_r; apply: Rminus_diag_eq; exact: E.
  by case: (Rmult_integral _ _ H0) => // /Rminus_diag_uniq.
by rewrite Huw Hw0 mulmx0.
Qed.

Section Methods.

Variable recurrence_driver : nat -> outcome table.

(** The matrix [jacobi_matrix(N)] returns is symmetric and tridiagonal. *)
Theorem jacobi_matrix_symmetric (N : nat) (self self' : basis) (J : 'M[R]_N) :
  jacobi_matrix recurrence_driver N self = (Ret J, self') ->
  J^T = J
  /\ forall i j : 'I_N, (i.+1 < j)%N || (j.+1 < i)%N -> J i j = 0.
Proof.
rewrite /jacobi_matrix /mbind.
case: (recurrence _ _ _) => [[T| | |] s] //.
case: ifP => _ //; rewrite /ret => -[<- _].
split; first exact: jacobi_matrix_driver_sym.
exact: jacobi_matrix_driver_band.
Qed.

(** [apply_jacobi_matrix(v)] is the product of [jacobi_matrix(len(v))] with
    [v]: when [self.recurrence(len(v)+1)] returns a table of more than
    [len(v)] rows, the two methods called on the same instance return [J]
    and [Jv] with [J v = Jv]. *)
Theorem apply_jacobi_matrix_is_product (v : list R) (self self' : basis) (T : table) :
  recurrence recurrence_driver (size v).+1 self = (Ret T, self') ->
  (size v < size T)%N ->
  exists (J : 'M[R]_(size v)) (Jv : list R),
    jacobi_matrix recurrence_driver (size v) self = (Ret J, self')
    /\ apply_jacobi_matrix recurrence_driver v self = (Ret Jv, self')
    /\ size Jv = size v
    /\ J *m column_of (size v) v = column_of (size v) Jv.
Proof.
move=> Hrec Hlen.
exists (jacobi_matrix_driver T (size v)), (apply_jacobi_rows T v).
split; first by rewrite /jacobi_matrix /mbind Hrec leqNgt Hlen.
split.
  rewrite /apply_jacobi_matrix /mbind Nat.add_1_r Hrec.
  have -> : Nat.ltb (length T) (S (length v)) = false.
    apply/Nat.ltb_ge; move/ltP: Hlen => Hlen.
    by change ((size v).+1 <= size T)%coq_nat; lia.
  by rewrite andbF.
split; first exact: EvaluationFacts.apply_jacobi_rows_length.
apply/matrixP => i j; rewrite (ord1 j) column_of_entry.
have Hi : (i < length v)%coq_nat by apply/ltP; exact: ltn_ord i.
rewrite (EvaluationFacts.apply_jacobi_rows_row T v i Hi).
exact: jacobi_mulmx_row.
Qed.

End Methods.

(** A column of [v] read as a function of the row index. *)
Lemma column_as_function (N : nat) (v : 'M[R]_N.+1) (j : 'I_N.+1) :
  \col_(i < N.+1) v (inord i) j = col j v.
Proof. by apply/matrixP => i k; rewrite !mxE inord_val. Qed.

(** The nodes of the Gauss rule are zeros of [p_N], and its weights are
    positive: for [N >= 1], a table of more than [N] rows with
    [beta_0 .. beta_N] not 0, and [eigh] returning orthonormal eigenvectors,
    every node [lamb[j]] that [gauss_quadrature_driver] returns satisfies
    [p_N(lamb[j]) = 0], with [p_N] the column [N] of [eval] on the table,
    and every weight is above 0. *)
Theorem gauss_nodes_are_zeros
  (eigh : forall n : nat, 'M[R]_n -> 'rV[R]_n * 'M[R]_n) (T : table) (N : nat) :
  (0 < N)%N ->
  (N < size T)%N ->
  eigh_spec (jacobi_matrix_driver T N) (eigh N (jacobi_matrix_driver T N)) ->
  (forall j, (j <= N)%coq_nat -> beta T j <> 0) ->
  exists lamb w : 'rV[R]_N,
    gauss_quadrature_driver eigh T N = Ret (lamb, w)
    /\ forall j, p_column T (lamb ord0 j) N = 0 /\ Rlt 0 (w ord0 j).
Proof.
case: N => [//|N] _ Hlen.
rewrite /eigh_spec /gauss_quadrature_driver leqNgt Hlen; cbn [negb].
case: (eigh _ _) => lamb v [Hortho Heig] Hb; cbn [fst snd] in Hortho, Heig.
exists lamb, (\row_j (beta T 0 ^+ 2 * v ord0 j ^+ 2)); split; first by [].
move=> j.
pose g := fun k : nat => v (inord k) j.
have Hrow : forall i, (i < N.+1)%coq_nat ->
    EvaluationFacts.jacobi_row T N.+1 g i = Rmult (lamb ord0 j) (g i).
  move=> i /ltP Hi.
  have Hcol : col j v = \col_(i < N.+1) g i by rewrite -column_as_function.
  have := eigen_columns _ (jacobi_matrix_driver T N.+1) v lamb j Heig.
  rewrite Hcol => /matrixP /(_ (Ordinal Hi) ord0).
  by rewrite jacobi_mulmx_row !mxE.
have [Hg Hlast] := EvaluationFacts.eigen_rows T N.+1 (lamb ord0 j) g
                     (ltac:(lia)) Hb Hrow.
have Hg0 : g 0%N <> 0.
  move=> E0.
  have Hz : forall i : 'I_N.+1, v i j = 0.
    move=> i; have /Hg := ltP (ltn_ord i); rewrite E0 /g inord_val => ->.
    by rewrite /GRing.zero /=; ring.
  have := unit_columns _ v j Hortho.
  rewrite big1; first by move=> i _; rewrite Hz expr0n.
  by move/esym; exact: R1_neq_R0.
split.
  by case: (Rmult_integral _ _ Hlast).
rewrite mxE.
have -> : v ord0 j = g 0%N by rewrite /g; congr (v _ j); apply: val_inj; rewrite /= inordK.
have Hb0 := Hb 0%N (ltac:(lia)).
rewrite !expr2 /GRing.mul /=.
by apply: Rmult_lt_0_compat; apply: Rsqr_pos_lt.
Qed.

Section Radau.

Variable eigh : forall n : nat, 'M[R]_n -> 'rV[R]_n * 'M[R]_n.
Variable recurrence_driver : nat -> outcome table.

(** [gauss_radau_quadrature] has a node at the anchor: for [N >= 1], when
    [self.recurrence(N+1)] returns a table [T] of [N+2] rows with
    [beta_0 .. beta_N] not 0, no [p_j(anchor) = 0] for [j < N], and [eigh]
    returns orthonormal eigenvectors of the perturbed matrix, one of the
    nodes returned is [anchor]. *)
Theorem gauss_radau_has_anchor (N : nat) (anchor : R) (self self1 : basis) (T : table) :
  (0 < N)%N ->
  recurrence recurrence_driver N.+1 self = (Ret T, self1) ->
  size T = N.+2 ->
  (forall j, (j <= N)%coq_nat -> beta T j <> 0) ->
  (forall j, (j < N)%coq_nat -> p_column T anchor j <> 0) ->
  let cd := set_row T N (alpha T N + r_column T anchor N * beta T N, beta T N) in
  eigh_spec (jacobi_matrix_driver cd N) (eigh N (jacobi_matrix_driver cd N)) ->
  exists lamb w : 'rV[R]_N,
    gauss_radau_quadrature eigh recurrence_driver N anchor self = (Ret (lamb, w), self1)
    /\ exists j, lamb ord0 j = anchor.
Proof.
case: N => [//|N] _ Hrec Hsize Hb Hp cd.
have Hagain : recurrence recurrence_driver (N.+1 + 1)%coq_nat self1 = (Ret T, self1).
  rewrite Nat.add_1_r.
  apply: (EvaluationFacts.recurrence_again recurrence_driver N.+2 self self1 T Hrec).
  by change (size T = (N.+2 + 1)%coq_nat); rewrite Hsize; lia.
have Hr : r_eval recurrence_driver anchor N.+1 self1 = (Ret (r_column T anchor N.+1), self1).
  rewrite /r_eval /mbind Hagain.
  have -> : Nat.ltb N.+1 (length T) = true.
    by apply/Nat.ltb_lt; change (N.+1 < size T)%coq_nat; rewrite Hsize; lia.
  by [].
rewrite /eigh_spec /gauss_radau_quadrature /mbind Hrec Hr.
have -> : (size T <= N.+1)%N = false by apply/negbTE/negP => /leP; rewrite Hsize; lia.
rewrite -/cd.
case: (eigh _ _) => lamb v [Hortho Heig]; cbn [fst snd] in Hortho, Heig.
exists lamb, (\row_j (v ord0 j ^+ 2)); split; first by [].
pose u : 'cV[R]_N.+1 := \col_(i < N.+1) p_column T anchor i.
apply: (eigenvalue_listed _ (jacobi_matrix_driver cd N.+1) v lamb u anchor Hortho Heig).
  apply/matrixP => i k; rewrite (ord1 k) jacobi_mulmx_row !mxE.
  apply: (EvaluationFacts.radau_rows T N.+1 anchor _ _ Hb Hp); first by lia.
    by change (N.+1 < size T)%coq_nat; rewrite Hsize; lia.
  exact/ltP.
move=> /matrixP /(_ ord0 ord0); rewrite !mxE.
by apply: (Hp 0%N); lia.
Qed.

(** With [N = 0] neither rule is returned: the calls end in an exception
    or leave what the embedding follows. *)
Theorem quadrature_needs_a_node (anchor : R) (self self' : basis)
  (rule : 'rV[R]_0 * 'rV[R]_0) :
  gauss_quadrature eigh recurrence_driver 0 self <> (Ret rule, self')
  /\ gauss_radau_quadrature eigh recurrence_driver 0 anchor self <> (Ret rule, self').
Proof.
split.
  rewrite /gauss_quadrature /mbind.
  case: (recurrence _ _ _) => [[T| | |] s] //.
  by rewrite /lift /gauss_quadrature_driver; case: ifP.
rewrite /gauss_radau_quadrature /mbind.
case: (recurrence _ _ _) => [[T| | |] s] //.
case: (r_eval _ _ _ _) => [[c| | |] s'] //.
by case: ifP.
Qed.

End Radau.

(** ** Runs *)

Lemma constant_driver_run (N : nat) :
  recurrence OpolyFacts.constant_driver N init
  = (Ret (repeat (0, 1) (N + 1)%coq_nat),
     {| ab := repeat (0, 1) (N + 1)%coq_nat; driver_calls := [:: N] |}).
Proof. exact: EvaluationFacts.constant_driver_first. Qed.

Lemma jacobi_matrix_symmetric_witness :
  (jacobi_matrix_driver (repeat (0, 1) 4) 2)^T = jacobi_matrix_driver (repeat (0, 1) 4) 2
  /\ forall i j : 'I_2, (i.+1 < j)%N || (j.+1 < i)%N ->
       jacobi_matrix_driver (repeat (0, 1) 4) 2 i j = 0.
Proof.
apply: (jacobi_matrix_symmetric OpolyFacts.constant_driver 2 init
          {| ab := repeat (0, 1) 4; driver_calls := [:: 3] |}).
by rewrite /jacobi_matrix /mbind (constant_driver_run 3).
Defined.

Lemma apply_jacobi_matrix_is_product_witness :
  exists (J : 'M[R]_2) (Jv : list R),
    jacobi_matrix OpolyFacts.constant_driver 2 init
    = (Ret J, {| ab := repeat (0, 1) 4; driver_calls := [:: 3] |})
    /\ apply_jacobi_matrix OpolyFacts.constant_driver [:: 1; 1 + 1] init
       = (Ret Jv, {| ab := repeat (0, 1) 4; driver_calls := [:: 3] |})
    /\ size Jv = 2
    /\ J *m column_of 2 [:: 1; 1 + 1] = column_of 2 Jv.
Proof.
apply: (apply_jacobi_matrix_is_product OpolyFacts.constant_driver [:: 1; 1 + 1] init
          {| ab := repeat (0, 1) 4; driver_calls := [:: 3] |} (repeat (0, 1) 4)).
- exact: (constant_driver_run 3).
- by [].
Defined.

Lemma demo_ab_beta (j : nat) : (j <= 2)%coq_nat -> beta demo_ab j <> 0.
Proof.
intros H. destruct j as [|[|[|j]]]; try lia; unfold beta, GRing.zero; simpl; lra.
Qed.

Lemma gauss_nodes_are_zeros_witness :
  exists lamb w : 'rV[R]_2,
    gauss_quadrature_driver demo_eigh demo_ab 2 = Ret (lamb, w)
    /\ forall j, p_column demo_ab (lamb ord0 j) 2 = 0 /\ Rlt 0 (w ord0 j).
Proof.
exact: (gauss_nodes_are_zeros demo_eigh demo_ab 2 isT isT demo_eigh_spec demo_ab_beta).
Defined.

Lemma demo_table_beta (j : nat) : (j <= 1)%coq_nat -> beta demo_table j <> 0.
Proof.
intros H. destruct j as [|[|j]]; try lia; unfold beta, GRing.zero; simpl; lra.
Qed.

Lemma demo_table_p (a : R) (j : nat) : (j < 1)%coq_nat -> p_column demo_table a j <> 0.
Proof.
intros H. destruct j as [|j]; try lia.
rewrite EvaluationFacts.p_column_0. unfold beta, GRing.zero; simpl; lra.
Qed.

Lemma gauss_radau_has_anchor_witness :
  exists lamb w : 'rV[R]_1,
    gauss_radau_quadrature demo_eigh demo_driver 1 0 init = (Ret (lamb, w), demo_stored)
    /\ exists j, lamb ord0 j = 0.
Proof.
apply: (gauss_radau_has_anchor demo_eigh demo_driver 1 0 init demo_stored demo_table isT
          erefl erefl demo_table_beta (demo_table_p 0)).
exact: demo_eigh_spec_1.
Defined.

End JacobiFacts.
